(** * signv: serial line framing, peer session repair and message dedup

  A shallow embedding of the TypeScript hooks [useSerial] and
  [useRemote] and of the [App] component's message router, with the
  properties the design document states about them.

  Layout:
  - [JS]      the fragment of JavaScript strings the hooks rely on
              (UTF-16 code units, [indexOf], [substring], [trim]);
  - [Utf8]    the platform's streaming UTF-8 [TextDecoder];
  - [Serial]  hooks/useSerial.ts (the framer with a stream-end flush,
              [disconnect]);
  - [SerialAuto] the auto-connecting revision of the same hook;
  - [Remote]  hooks/useRemote.ts (peer endpoint, connection handlers,
              [sendData], the retry loop);
  - [App]     [handleIncomingText] and [handleClearHistory]. *)

From Stdlib Require Import ZArith List String Ascii Strings.Byte Bool Lia.
From stdpp Require Import base option list gmap.
From Equations.Prop Require Import Equations Logic.
Import ListNotations.
Local Open Scope Z_scope.

(* ===================================================================== *)
(** ** JavaScript strings *)
(* ===================================================================== *)

Module JS.

(** A JavaScript string is a sequence of 16-bit code units. *)
Definition jsstring := list Z.

(** Literals of the source are ASCII; [lit "A"] is the string "A". *)
Definition lit (s : string) : jsstring :=
  map (fun a => Z.of_N (N_of_ascii a)) (list_ascii_of_string s).

Definition NEWLINE : Z := 10.

(** [!s] is true exactly for the empty string. *)
Definition truthy (s : jsstring) : bool :=
  match s with [] => false | _ :: _ => true end.

(** WhiteSpace and LineTerminator code points of ECMAScript, the code
    units [String.prototype.trim] strips. *)
Definition isWhiteSpace (c : Z) : bool :=
  (c =? 9) || (c =? 10) || (c =? 11) || (c =? 12) || (c =? 13) ||
  (c =? 32) || (c =? 160) || (c =? 5760) ||
  ((8192 <=? c) && (c <=? 8202)) ||
  (c =? 8232) || (c =? 8233) || (c =? 8239) || (c =? 8287) ||
  (c =? 12288) || (c =? 65279).

Fixpoint trimStart (s : jsstring) : jsstring :=
  match s with
  | [] => []
  | c :: r => if isWhiteSpace c then trimStart r else s
  end.

Definition trimEnd (s : jsstring) : jsstring := rev (trimStart (rev s)).

Definition trim (s : jsstring) : jsstring := trimEnd (trimStart s).

(** [s.indexOf(c)] for a one-character search string: the index of the
    first occurrence, or -1. *)
Fixpoint indexOf_from (s : jsstring) (c : Z) (i : Z) : Z :=
  match s with
  | [] => -1
  | x :: r => if x =? c then i else indexOf_from r c (i + 1)
  end.

Definition indexOf (s : jsstring) (c : Z) : Z := indexOf_from s c 0.

Definition clamp (n len : Z) : Z := Z.max 0 (Z.min n len).

(** [s.substring(a, b)]: both indices are clamped to [0, length] and
    swapped when out of order. *)
Definition substring (s : jsstring) (a b : Z) : jsstring :=
  let len := Z.of_nat (length s) in
  let a' := clamp a len in
  let b' := clamp b len in
  let lo := Z.min a' b' in
  let hi := Z.max a' b' in
  firstn (Z.to_nat (hi - lo)) (skipn (Z.to_nat lo) s).

(** [s.substring(a)]. *)
Definition substring_from (s : jsstring) (a : Z) : jsstring :=
  substring s a (Z.of_nat (length s)).

(** *** Facts about [indexOf] and [substring] *)

Lemma indexOf_from_cases (s : jsstring) (c k : Z) :
  (indexOf_from s c k = -1 /\ Forall (fun x => x <> c) s) \/
  (exists pre post,
      s = pre ++ c :: post /\ Forall (fun x => x <> c) pre /\
      indexOf_from s c k = k + Z.of_nat (length pre)).
Proof.
  revert k. induction s as [|x r IH]; intros k; simpl.
  - left. split; [reflexivity|constructor].
  - destruct (Z.eqb_spec x c) as [->|Hne].
    + right. exists [], r. simpl. repeat split; [constructor|lia].
    + destruct (IH (k + 1)) as [[E F]|(pre & post & -> & F & E)].
      * left. split; [exact E|constructor; assumption].
      * right. exists (x :: pre), post. simpl.
        repeat split; [constructor; assumption|lia].
Qed.

Lemma substring_0 (s : jsstring) (n : nat) :
  (n <= length s)%nat -> substring s 0 (Z.of_nat n) = firstn n s.
Proof.
  intros Hn. unfold substring, clamp.
  replace (Z.min (Z.max 0 (Z.min 0 (Z.of_nat (length s))))
                 (Z.max 0 (Z.min (Z.of_nat n) (Z.of_nat (length s))))) with 0
    by lia.
  replace (Z.max (Z.max 0 (Z.min 0 (Z.of_nat (length s))))
                 (Z.max 0 (Z.min (Z.of_nat n) (Z.of_nat (length s)))) - 0)
    with (Z.of_nat n) by lia.
  simpl. now rewrite Nat2Z.id.
Qed.

Lemma substring_from_skipn (s : jsstring) (n : nat) :
  (n <= length s)%nat -> substring_from s (Z.of_nat n) = skipn n s.
Proof.
  intros Hn. unfold substring_from, substring, clamp.
  set (len := Z.of_nat (length s)).
  replace (Z.min (Z.max 0 (Z.min (Z.of_nat n) len)) (Z.max 0 (Z.min len len)))
    with (Z.of_nat n) by lia.
  replace (Z.max (Z.max 0 (Z.min (Z.of_nat n) len)) (Z.max 0 (Z.min len len))
           - Z.of_nat n) with (Z.of_nat (length s - n)) by lia.
  rewrite !Nat2Z.id. apply firstn_all2. rewrite length_skipn. lia.
Qed.

(** What the framer's loop relies on: when [indexOf] finds the character,
    [substring(0, i)] is the text before its first occurrence and
    [substring(i + 1)] the text after it. *)
Lemma indexOf_found (s : jsstring) (c : Z) :
  indexOf s c <> -1 ->
  exists pre post,
    s = pre ++ c :: post /\ Forall (fun x => x <> c) pre /\
    substring s 0 (indexOf s c) = pre /\
    substring_from s (indexOf s c + 1) = post.
Proof.
  intros Hfound. unfold indexOf in *.
  destruct (indexOf_from_cases s c 0) as [[E _]|(pre & post & -> & F & E)];
    [congruence|].
  exists pre, post. rewrite E. repeat split; [exact F| |].
  - rewrite Z.add_0_l, substring_0 by (rewrite length_app; lia).
    rewrite firstn_app, firstn_all, Nat.sub_diag. simpl. apply app_nil_r.
  - replace (0 + Z.of_nat (length pre) + 1) with (Z.of_nat (S (length pre)))
      by lia.
    rewrite substring_from_skipn by (rewrite length_app; simpl; lia).
    rewrite skipn_app, skipn_all2 by lia.
    replace (S (length pre) - length pre)%nat with 1%nat by lia.
    reflexivity.
Qed.

Lemma indexOf_absent (s : jsstring) (c : Z) :
  indexOf s c = -1 -> Forall (fun x => x <> c) s.
Proof.
  intros E. unfold indexOf in E.
  destruct (indexOf_from_cases s c 0) as [[_ F]|(pre & post & _ & _ & E')];
    [exact F|lia].
Qed.

End JS.

(* ===================================================================== *)
(** ** The streaming UTF-8 decoder behind [new TextDecoder()] *)
(* ===================================================================== *)

Module Utf8.
Import JS.

(** State of the UTF-8 decoder of the Encoding Standard. *)
Record utf8 := {
  code_point : Z;
  bytes_seen : Z;
  bytes_needed : Z;
  lower_boundary : Z;
  upper_boundary : Z
}.

Definition utf8_init : utf8 :=
  {| code_point := 0; bytes_seen := 0; bytes_needed := 0;
     lower_boundary := 128; upper_boundary := 191 |}.

Inductive result :=
| Continue
| Scalar (cp : Z)
| Error
| ErrorRestore.   (* error, and the byte is put back on the queue *)

Definition between (lo x hi : Z) : bool := (lo <=? x) && (x <=? hi).

(** The decoder's handler for one byte. *)
Definition handler (d : utf8) (b : Z) : utf8 * result :=
  if bytes_needed d =? 0 then
    if between 0 b 127 then (d, Scalar b)
    else if between 194 b 223 then
      ({| code_point := Z.land b 31; bytes_seen := bytes_seen d;
          bytes_needed := 1;
          lower_boundary := lower_boundary d;
          upper_boundary := upper_boundary d |}, Continue)
    else if between 224 b 239 then
      ({| code_point := Z.land b 15; bytes_seen := bytes_seen d;
          bytes_needed := 2;
          lower_boundary := if b =? 224 then 160 else lower_boundary d;
          upper_boundary := if b =? 237 then 159 else upper_boundary d |},
       Continue)
    else if between 240 b 244 then
      ({| code_point := Z.land b 7; bytes_seen := bytes_seen d;
          bytes_needed := 3;
          lower_boundary := if b =? 240 then 144 else lower_boundary d;
          upper_boundary := if b =? 244 then 143 else upper_boundary d |},
       Continue)
    else (d, Error)
  else if negb (between (lower_boundary d) b (upper_boundary d)) then
    (utf8_init, ErrorRestore)
  else
    let cp := Z.lor (Z.shiftl (code_point d) 6) (Z.land b 63) in
    let seen := bytes_seen d + 1 in
    if negb (seen =? bytes_needed d) then
      ({| code_point := cp; bytes_seen := seen;
          bytes_needed := bytes_needed d;
          lower_boundary := 128; upper_boundary := 191 |}, Continue)
    else (utf8_init, Scalar cp).

Definition REPLACEMENT : Z := 65533.

(** Scalar values a result contributes in replacement error mode. *)
Definition emitted (r : result) : list Z :=
  match r with
  | Continue => []
  | Scalar cp => [cp]
  | Error | ErrorRestore => [REPLACEMENT]
  end.

(** Processing one byte of the queue; a restored byte is read again by
    the next iteration, where the decoder is back in its initial state. *)
Definition process_byte (d : utf8) (b : Z) : utf8 * list Z :=
  match handler d b with
  | (d', ErrorRestore) =>
      let '(d'', r) := handler d' b in (d'', REPLACEMENT :: emitted r)
  | (d', r) => (d', emitted r)
  end.

Fixpoint process (d : utf8) (bs : list byte) : utf8 * list Z :=
  match bs with
  | [] => (d, [])
  | b :: rest =>
      let '(d1, o1) := process_byte d (Z.of_N (Byte.to_N b)) in
      let '(d2, o2) := process d1 rest in
      (d2, o1 ++ o2)
  end.

(** UTF-16 code units of a scalar value. *)
Definition code_units (cp : Z) : jsstring :=
  if cp <? 65536 then [cp]
  else
    let v := cp - 65536 in
    [55296 + Z.shiftr v 10; 56320 + Z.land v 1023].

Definition BOM : Z := 65279.

(** Serialising the queue of scalar values: the first scalar value of
    the stream is dropped when it is the byte order mark. *)
Fixpoint serialize (bom_seen : bool) (q : list Z) : bool * jsstring :=
  match q with
  | [] => (bom_seen, [])
  | item :: rest =>
      if bom_seen then
        let '(f, out) := serialize true rest in (f, code_units item ++ out)
      else if item =? BOM then serialize true rest
      else
        let '(f, out) := serialize true rest in (f, code_units item ++ out)
  end.

(** A [TextDecoder] for UTF-8 (not fatal, BOM not ignored). *)
Record TextDecoder := {
  decoder : utf8;
  BOM_seen : bool
}.

Definition newTextDecoder : TextDecoder :=
  {| decoder := utf8_init; BOM_seen := false |}.

(** [td.decode(value, { stream: true })]: the bytes are run through the
    decoder, nothing is flushed at the end of the chunk, and the decoder
    keeps its state for the next call. *)
Definition decode (td : TextDecoder) (value : list byte)
  : TextDecoder * jsstring :=
  let '(d, q) := process (decoder td) value in
  let '(f, out) := serialize (BOM_seen td) q in
  ({| decoder := d; BOM_seen := f |}, out).

(** *** The decoder is a transducer: chunking does not matter *)

Lemma process_app (d : utf8) (xs ys : list byte) :
  process d (xs ++ ys) =
  let '(d1, o1) := process d xs in
  let '(d2, o2) := process d1 ys in
  (d2, o1 ++ o2).
Proof.
  revert d. induction xs as [|b xs IH]; intros d; simpl.
  - destruct (process d ys). reflexivity.
  - destruct (process_byte d (Z.of_N (Byte.to_N b))) as [d1 o1].
    rewrite IH. destruct (process d1 xs) as [d2 o2].
    destruct (process d2 ys) as [d3 o3]. now rewrite app_assoc.
Qed.

Lemma serialize_app (f : bool) (q1 q2 : list Z) :
  serialize f (q1 ++ q2) =
  let '(f1, o1) := serialize f q1 in
  let '(f2, o2) := serialize f1 q2 in
  (f2, o1 ++ o2).
Proof.
  revert f. induction q1 as [|x q1 IH]; intros f; simpl.
  - destruct (serialize f q2). reflexivity.
  - destruct f; [|destruct (x =? BOM)]; rewrite IH;
      destruct (serialize true q1) as [f1 o1];
      destruct (serialize f1 q2) as [f2 o2];
      now rewrite ?app_assoc.
Qed.

Lemma decode_app (td : TextDecoder) (xs ys : list byte) :
  decode td (xs ++ ys) =
  let '(td1, s1) := decode td xs in
  let '(td2, s2) := decode td1 ys in
  (td2, s1 ++ s2).
Proof.
  unfold decode. rewrite process_app.
  destruct (process (decoder td) xs) as [d1 q1].
  destruct (process d1 ys) as [d2 q2] eqn:Hys.
  rewrite serialize_app.
  destruct (serialize (BOM_seen td) q1) as [f1 o1]. simpl. rewrite Hys.
  destruct (serialize f1 q2) as [f2 o2]. reflexivity.
Qed.

Lemma decode_nil (td : TextDecoder) : decode td [] = (td, []).
Proof. destruct td. reflexivity. Qed.

End Utf8.

(* ===================================================================== *)
(** ** hooks/useSerial.ts *)
(* ===================================================================== *)

Module Serial.
Import JS Utf8.

Inductive Origin := device | user.

(** [SerialMessage]; every message the code builds carries an origin. *)
Record SerialMessage := {
  id : string;
  text : jsstring;
  timestamp : Z;
  origin : Origin
}.

(** How a promise returned by a platform object settles. *)
Inductive settles := fulfilled | rejected (reason : string).

(** The platform objects the hook holds: only identity and what their
    methods answer matter here. *)
Record SerialPort := {
  port_id : nat;
  close_settles : settles
}.

Record StreamReader := {
  reader_id : nat;
  cancel_settles : settles
}.

(** Calls made on platform objects, in order. *)
Inductive call :=
| reader_cancel (r : nat)
| port_close (p : nat).

(** Callbacks handed to [setTimeout]. *)
Inductive task :=
| closePort.   (* the arrow function inside [disconnect] *)

(** The hook's refs and state. [published], [timers] and [calls] are
    bookkeeping of the model: the values passed to [setLastMessage]
    (oldest first), the pending [setTimeout] callbacks with their delay in
    milliseconds (oldest first), and the calls made on platform objects. *)
Record Hook := {
  isConnected : bool;
  lastMessage : option SerialMessage;
  port : option SerialPort;
  reader : option StreamReader;
  keepReading : bool;
  readBuffer : jsstring;
  textDecoder : TextDecoder;
  published : list SerialMessage;
  timers : list (Z * task);
  calls : list call
}.

Definition set_isConnected (v : bool) (h : Hook) : Hook :=
  {| isConnected := v; lastMessage := lastMessage h; port := port h;
     reader := reader h; keepReading := keepReading h;
     readBuffer := readBuffer h; textDecoder := textDecoder h;
     published := published h; timers := timers h; calls := calls h |}.

Definition setLastMessage (m : SerialMessage) (h : Hook) : Hook :=
  {| isConnected := isConnected h; lastMessage := Some m; port := port h;
     reader := reader h; keepReading := keepReading h;
     readBuffer := readBuffer h; textDecoder := textDecoder h;
     published := published h ++ [m]; timers := timers h; calls := calls h |}.

Definition set_port (v : option SerialPort) (h : Hook) : Hook :=
  {| isConnected := isConnected h; lastMessage := lastMessage h; port := v;
     reader := reader h; keepReading := keepReading h;
     readBuffer := readBuffer h; textDecoder := textDecoder h;
     published := published h; timers := timers h; calls := calls h |}.

Definition set_keepReading (v : bool) (h : Hook) : Hook :=
  {| isConnected := isConnected h; lastMessage := lastMessage h; port := port h;
     reader := reader h; keepReading := v;
     readBuffer := readBuffer h; textDecoder := textDecoder h;
     published := published h; timers := timers h; calls := calls h |}.

Definition set_readBuffer (v : jsstring) (h : Hook) : Hook :=
  {| isConnected := isConnected h; lastMessage := lastMessage h; port := port h;
     reader := reader h; keepReading := keepReading h;
     readBuffer := v; textDecoder := textDecoder h;
     published := published h; timers := timers h; calls := calls h |}.

Definition set_textDecoder (v : TextDecoder) (h : Hook) : Hook :=
  {| isConnected := isConnected h; lastMessage := lastMessage h; port := port h;
     reader := reader h; keepReading := keepReading h;
     readBuffer := readBuffer h; textDecoder := v;
     published := published h; timers := timers h; calls := calls h |}.

Definition set_timers (v : list (Z * task)) (h : Hook) : Hook :=
  {| isConnected := isConnected h; lastMessage := lastMessage h; port := port h;
     reader := reader h; keepReading := keepReading h;
     readBuffer := readBuffer h; textDecoder := textDecoder h;
     published := published h; timers := v; calls := calls h |}.

Definition log_call (c : call) (h : Hook) : Hook :=
  {| isConnected := isConnected h; lastMessage := lastMessage h; port := port h;
     reader := reader h; keepReading := keepReading h;
     readBuffer := readBuffer h; textDecoder := textDecoder h;
     published := published h; timers := timers h; calls := calls h ++ [c] |}.

Definition set_reader (v : option StreamReader) (h : Hook) : Hook :=
  {| isConnected := isConnected h; lastMessage := lastMessage h; port := port h;
     reader := v; keepReading := keepReading h;
     readBuffer := readBuffer h; textDecoder := textDecoder h;
     published := published h; timers := timers h; calls := calls h |}.

Definition holds_port (h : Hook) : bool :=
  match port h with Some _ => true | None => false end.

(** [readLoop] of hooks/useSerial.ts once the inner loop has broken: the
    [finally] block, the test of the outer loop, which takes the reader
    [next] when it goes round again, and the lines after the loop, where
    [isConnected] is the value the callback was created with. *)
Definition readLoop_after_break (next : StreamReader) (isConnected_then : bool)
    (h : Hook) : Hook :=
  let h1 := set_reader None h in
  if holds_port h1 && keepReading h1 then set_reader (Some next) h1
  else if negb (keepReading h1) && isConnected_then
       then set_port None (set_isConnected false h1)
       else h1.

(** What becomes of the read the loop is suspended at
    ([await reader.current.read()]) while [disconnect] awaits
    [reader.current.cancel()]. Cancelling the reader ends the stream, so
    the read resolves with [done] and the loop runs on to its end before
    [disconnect] resumes: [next] and [isConnected_then] are what
    [readLoop_after_break] needs. [read_stays_pending] is the case where
    the call settles no read. *)
Inductive pending_read :=
| read_stays_pending
| read_resolves_done (next : StreamReader) (isConnected_then : bool).

(** *** Calls that may throw, and the teardown *)

Inductive completion (A : Type) :=
| normal (a : A)
| throw (e : string).
Arguments normal {A} a.
Arguments throw {A} e.

(** A computation over the hook that returns or throws. *)
Definition M (A : Type) : Type := Hook -> Hook * completion A.

Definition ret {A : Type} (a : A) : M A := fun h => (h, normal a).

Definition bind {A B : Type} (m : M A) (k : A -> M B) : M B :=
  fun h =>
    match m h with
    | (h', normal a) => k a h'
    | (h', throw e) => (h', throw e)
    end.

#[local] Instance M_ret : MRet M := @ret.
#[local] Instance M_bind : MBind M := fun A B k m => bind m k.

(** [try { body } catch (e) { handler }]. *)
Definition try_catch {A : Type} (body : M A) (handler : string -> M A) : M A :=
  fun h =>
    match body h with
    | (h', throw e) => handler e h'
    | r => r
    end.

Definition update (f : Hook -> Hook) : M unit := fun h => (f h, normal tt).

Definition read {A : Type} (f : Hook -> A) : M A := fun h => (h, normal (f h)).

(** [await obj.method()]: the call is made, and a rejection is thrown. *)
Definition await (c : call) (s : settles) : M unit :=
  fun h =>
    (log_call c h,
     match s with fulfilled => normal tt | rejected e => throw e end).

(** [await obj.method()] while [others] runs: the call is made, the other
    asynchronous function runs up to its next [await] or its end, whatever
    it throws staying its own, and then the caller resumes or catches. *)
Definition await_while (c : call) (others : M unit) (s : settles) : M unit :=
  fun h =>
    (fst (others (log_call c h)),
     match s with fulfilled => normal tt | rejected e => throw e end).

Definition setTimeout (t : task) (ms : Z) : M unit :=
  update (fun h => set_timers (timers h ++ [(ms, t)]) h).

(** The callback [disconnect] hands to [setTimeout]. *)
Definition closePort_callback : M unit :=
  p ← read port;
  match p with
  | Some pt =>
      try_catch (await (port_close (port_id pt)) (close_settles pt))
                (fun _ => ret tt) ;;
      update (set_port None)
  | None => ret tt
  end ;;
  update (set_isConnected false) ;;
  update (set_readBuffer []).

Definition run_task (t : task) : M unit :=
  match t with closePort => closePort_callback end.

Fixpoint run_tasks (ts : list (Z * task)) : M unit :=
  match ts with
  | [] => ret tt
  | (_, t) :: rest => run_task t ;; run_tasks rest
  end.

(** The event loop runs every pending timer callback, oldest first. *)
Definition run_timers : M unit :=
  fun h => run_tasks (timers h) (set_timers [] h).

(** [m] run in [h] returns normally and leaves the hook in [h']. *)
Definition returns {A : Type} (m : M A) (h h' : Hook) : Prop :=
  exists a, m h = (h', normal a).

(** A hook that is connected and reading. *)
Definition connected_hook : Hook :=
  {| isConnected := true; lastMessage := None;
     port := Some {| port_id := 1; close_settles := fulfilled |};
     reader := Some {| reader_id := 1; cancel_settles := fulfilled |};
     keepReading := true; readBuffer := [];
     textDecoder := newTextDecoder; published := []; timers := [];
     calls := [] |}.

(** *** Lines of a text, in the design document's words *)

(** The newline-terminated segments of a text, in order, paired with the
    unterminated text after the last newline. *)
Fixpoint split_lines (s : jsstring) : list jsstring * jsstring :=
  match s with
  | [] => ([], [])
  | c :: r =>
      let '(segs, rest) := split_lines r in
      if c =? NEWLINE then ([] :: segs, rest)
      else
        match segs with
        | [] => ([], c :: rest)
        | seg :: segs' => ((c :: seg) :: segs', rest)
        end
  end.

Definition terminated_segments (s : jsstring) : list jsstring :=
  fst (split_lines s).

Definition unterminated (s : jsstring) : jsstring := snd (split_lines s).

(** The lines a framer owes for a text: every terminated segment,
    trimmed, except those that are empty after trimming. *)
Definition lines_of (s : jsstring) : list jsstring :=
  List.filter truthy (map trim (terminated_segments s)).

(** What [reader.read()] resolves to. *)
Record ReadResult := {
  value : option (list byte);
  done : bool
}.

(** The messages published between two states of the hook. *)
Definition emitted_since (h h' : Hook) : list SerialMessage :=
  skipn (length (published h)) (published h').

(** The read that delivers a chunk of a stream that has not ended. *)
Definition chunk_read (v : list byte) : ReadResult :=
  {| value := Some v; done := false |}.

(** A stream cut inside the two-byte encoding of U+00E9 and next to
    newlines: "A\n caf", the first byte of the accented letter, its second
    byte and "\n", "\n", " \n", "B". *)
Definition example_chunks : list (list byte) :=
  [ [x41; x0a; x20; x63; x61; x66; xc3];
    [xa9; x0a];
    [x0a];
    [x20; x0a];
    [x42] ].

Definition example_hook : Hook :=
  {| isConnected := true; lastMessage := None; port := None;
     reader := None; keepReading := true; readBuffer := [];
     textDecoder := newTextDecoder; published := []; timers := [];
     calls := [] |}.

Section Framer.

(** [crypto.randomUUID()] and [Date.now()]: the n-th message the hook
    builds receives [randomUUID n] and [Date_now n]. *)
Variable randomUUID : nat -> string.
Variable Date_now : nat -> Z.

Definition processLine (line : jsstring) (h : Hook) : Hook :=
  if negb (truthy line) then h
  else
    let n := length (published h) in
    let newMessage :=
      {| id := randomUUID n; text := line; timestamp := Date_now n;
         origin := device |} in
    setLastMessage newMessage h.

(** The loop
    [while ((newlineIndex = readBuffer.current.indexOf('\n')) !== -1)]. *)
Equations? drainLines (h : Hook) : Hook by wf (length (readBuffer h)) lt :=
  drainLines h with inspect (indexOf (readBuffer h) NEWLINE) := {
    | exist _ newlineIndex Hidx with inspect (newlineIndex =? -1) := {
      | exist _ true Hnone := h
      | exist _ false Hfound :=
          let line := trim (substring (readBuffer h) 0 newlineIndex) in
          let h1 := set_readBuffer
                      (substring_from (readBuffer h) (newlineIndex + 1)) h in
          drainLines (processLine line h1) } }.
Proof.
  assert (Hbuf : readBuffer (processLine line h1) = readBuffer h1).
  { unfold processLine. destruct (negb (truthy line)); reflexivity. }
  rewrite Hbuf. clear Hbuf. subst h1. simpl.
  assert (Hrange : forall s i, indexOf_from s NEWLINE i = -1 \/
            (i <= indexOf_from s NEWLINE i < i + Z.of_nat (length s))%Z).
  { induction s as [|x r IH]; intros i; simpl; [left; reflexivity|].
    destruct (x =? NEWLINE)%Z; [right; lia|].
    destruct (IH (i + 1)%Z) as [E|E]; [left; exact E|right; lia]. }
  apply Z.eqb_neq in Hfound.
  destruct (Hrange (readBuffer h) 0%Z) as [E|E];
    [unfold indexOf in Hfound; congruence|].
  unfold substring_from, substring, clamp, indexOf.
  rewrite length_take, length_drop. lia.
Qed.

(** The body of [if (value) { ... }]. *)
Definition onValue (v : list byte) (h : Hook) : Hook :=
  let '(td, s) := decode (textDecoder h) v in
  drainLines (set_textDecoder td (set_readBuffer (readBuffer h ++ s) h)).

(** One iteration of the inner [while (true)] of [readLoop], given what
    [reader.read()] resolved to; the boolean tells whether the loop breaks. *)
Definition readLoop_iteration (r : ReadResult) (h : Hook) : Hook * bool :=
  let h1 := match value r with Some v => onValue v h | None => h end in
  if done r then
    if truthy (trim (readBuffer h1)) then
      (set_readBuffer [] (processLine (trim (readBuffer h1)) h1), true)
    else (h1, true)
  else (h1, false).

(** The inner loop over the successive results of [reader.read()]. *)
Fixpoint readLoop_inner (rs : list ReadResult) (h : Hook) : Hook :=
  match rs with
  | [] => h
  | r :: rest =>
      let '(h1, break) := readLoop_iteration r h in
      if break then h1 else readLoop_inner rest h1
  end.

(** The read loop from the read that [disconnect] has cancelled to its
    end: the iteration on [done], with its flush, then the way out. *)
Definition readLoop_resumes (p : pending_read) : M unit :=
  match p with
  | read_stays_pending => ret tt
  | read_resolves_done next isConnected_then =>
      update (fun h =>
                readLoop_after_break next isConnected_then
                  (fst (readLoop_iteration {| value := None; done := true |} h)))
  end.

(** [disconnect]; [p] is what the read loop does inside the [await]. *)
Definition disconnect (p : pending_read) : M unit :=
  update (set_keepReading false) ;;
  r ← read reader;
  match r with
  | Some rd =>
      try_catch (await_while (reader_cancel (reader_id rd))
                   (readLoop_resumes p) (cancel_settles rd))
                (fun _ => ret tt)
  | None => ret tt
  end ;;
  setTimeout closePort 100.

(** The reading of "Disconnected after each of the two calls" that looks
    at the state as soon as each call has returned. *)
Definition disconnected_after_both_calls (p1 p2 : pending_read) (h : Hook)
  : Prop :=
  exists h1 h2,
    returns (disconnect p1) h h1 /\ isConnected h1 = false /\
    returns (disconnect p2) h1 h2 /\ isConnected h2 = false.

(** *** The newline loop emits the lines of the buffer *)

Lemma split_lines_no_newline (s : jsstring) :
  Forall (fun x => x <> NEWLINE) s -> split_lines s = ([], s).
Proof.
  induction 1 as [|c r Hc _ IH]; simpl; [reflexivity|].
  rewrite IH. destruct (Z.eqb_spec c NEWLINE); [contradiction|reflexivity].
Qed.

Lemma split_lines_first_newline (pre post : jsstring) :
  Forall (fun x => x <> NEWLINE) pre ->
  split_lines (pre ++ NEWLINE :: post) =
  (pre :: terminated_segments post, unterminated post).
Proof.
  unfold terminated_segments, unterminated.
  induction 1 as [|c r Hc _ IH]; simpl.
  - destruct (split_lines post). reflexivity.
  - rewrite IH. destruct (Z.eqb_spec c NEWLINE); [contradiction|reflexivity].
Qed.

(** The split is the one the words describe: the text is its segments,
    each followed by a newline, then the unterminated rest, and no segment
    and no rest holds a newline. *)
Lemma split_lines_sound (s : jsstring) :
  s = flat_map (fun seg => seg ++ [NEWLINE]) (terminated_segments s)
        ++ unterminated s /\
  Forall (Forall (fun x => x <> NEWLINE)) (terminated_segments s) /\
  Forall (fun x => x <> NEWLINE) (unterminated s).
Proof.
  unfold terminated_segments, unterminated.
  induction s as [|c r IH]; simpl.
  - split; [reflexivity|split; constructor].
  - destruct (split_lines r) as [segs rest]. simpl in *.
    destruct IH as (IH1 & IH2 & IH3).
    destruct (Z.eqb_spec c NEWLINE) as [->|Hne]; simpl.
    + split; [now rewrite <- IH1|split; [|exact IH3]].
      constructor; [constructor|exact IH2].
    + destruct segs as [|seg segs']; simpl in *.
      * split; [now rewrite <- IH1|split; [constructor|]].
        constructor; assumption.
      * inversion IH2; subst. split; [|split; [|exact IH3]].
        -- now rewrite <- !app_assoc.
        -- constructor; [constructor; assumption|assumption].
Qed.

Lemma split_lines_app (a b : jsstring) :
  split_lines (a ++ b) =
  (terminated_segments a ++ terminated_segments (unterminated a ++ b),
   unterminated (unterminated a ++ b)).
Proof.
  unfold terminated_segments, unterminated.
  induction a as [|c r IH]; simpl.
  - destruct (split_lines b). reflexivity.
  - rewrite IH. destruct (split_lines r) as [segs rest]. simpl.
    destruct (Z.eqb_spec c NEWLINE) as [->|Hne]; simpl; [reflexivity|].
    destruct segs as [|seg segs']; simpl; [|reflexivity].
    destruct (split_lines (rest ++ b)) as [segs2 rest2]. simpl.
    destruct (Z.eqb_spec c NEWLINE); [contradiction|].
    destruct segs2; reflexivity.
Qed.

Lemma lines_of_app (a b : jsstring) :
  lines_of (a ++ b) = lines_of a ++ lines_of (unterminated a ++ b).
Proof.
  unfold lines_of, terminated_segments at 1.
  rewrite split_lines_app. simpl.
  now rewrite map_app, List.filter_app.
Qed.

Lemma unterminated_app (a b : jsstring) :
  unterminated (a ++ b) = unterminated (unterminated a ++ b).
Proof. unfold unterminated at 1. now rewrite split_lines_app. Qed.

Lemma lines_of_nonempty (s : jsstring) : Forall (fun l => l <> []) (lines_of s).
Proof.
  unfold lines_of. apply List.Forall_forall. intros l Hl.
  apply List.filter_In in Hl. destruct Hl as [_ Hl].
  destruct l; [discriminate|congruence].
Qed.

Lemma processLine_readBuffer (line : jsstring) (h : Hook) :
  readBuffer (processLine line h) = readBuffer h.
Proof. unfold processLine. destruct (negb (truthy line)); reflexivity. Qed.

Lemma processLine_textDecoder (line : jsstring) (h : Hook) :
  textDecoder (processLine line h) = textDecoder h.
Proof. unfold processLine. destruct (negb (truthy line)); reflexivity. Qed.

Lemma processLine_published (line : jsstring) (h : Hook) :
  map text (published (processLine line h)) =
  map text (published h) ++ List.filter truthy [line].
Proof.
  unfold processLine. destruct line as [|c l]; simpl.
  - now rewrite app_nil_r.
  - now rewrite map_app.
Qed.

Lemma drainLines_loop (h : Hook) :
  drainLines h =
  let newlineIndex := indexOf (readBuffer h) NEWLINE in
  if newlineIndex =? -1 then h
  else
    let line := trim (substring (readBuffer h) 0 newlineIndex) in
    drainLines
      (processLine line
         (set_readBuffer
            (substring_from (readBuffer h) (newlineIndex + 1)) h)).
Proof.
  rewrite drainLines_equation_1. cbv zeta.
  unfold drainLines_unfold_clause_1, inspect. simpl.
  destruct (indexOf (readBuffer h) NEWLINE =? -1); reflexivity.
Qed.

Lemma drainLines_spec (h : Hook) :
  map text (published (drainLines h)) =
    map text (published h) ++ lines_of (readBuffer h) /\
  readBuffer (drainLines h) = unterminated (readBuffer h) /\
  textDecoder (drainLines h) = textDecoder h.
Proof.
  remember (length (readBuffer h)) as n eqn:Hn.
  revert h Hn. induction n as [n IH] using lt_wf_ind. intros h Hn.
  rewrite drainLines_loop. cbv zeta.
  destruct (Z.eqb_spec (indexOf (readBuffer h) NEWLINE) (-1)) as [Habs|Hfound].
  - apply indexOf_absent, split_lines_no_newline in Habs.
    unfold lines_of, terminated_segments, unterminated. rewrite Habs. simpl.
    now rewrite app_nil_r.
  - destruct (indexOf_found _ _ Hfound) as (pre & post & Hbuf & Hpre & -> & ->).
    set (h' := processLine (trim pre) (set_readBuffer post h)).
    assert (Hbuf' : readBuffer h' = post)
      by (unfold h'; now rewrite processLine_readBuffer).
    destruct (IH (length post)) with (h := h') as (P & B & D).
    { subst n. rewrite Hbuf, length_app. simpl. lia. }
    { now rewrite Hbuf'. }
    rewrite P, B, D, Hbuf'. unfold h'.
    rewrite processLine_published, processLine_textDecoder. simpl.
    unfold lines_of, terminated_segments, unterminated.
    rewrite Hbuf, split_lines_first_newline by exact Hpre. simpl.
    unfold terminated_segments, unterminated.
    split; [|split; reflexivity].
    rewrite <- app_assoc. f_equal.
    destruct (truthy (trim pre)); reflexivity.
Qed.

Lemma onValue_spec (v : list byte) (h : Hook) :
  let '(td, s) := decode (textDecoder h) v in
  map text (published (onValue v h)) =
    map text (published h) ++ lines_of (readBuffer h ++ s) /\
  readBuffer (onValue v h) = unterminated (readBuffer h ++ s) /\
  textDecoder (onValue v h) = td.
Proof.
  unfold onValue. destruct (decode (textDecoder h) v) as [td s].
  apply drainLines_spec.
Qed.

(** Feeding chunks: the lines published are those of the buffered text
    followed by the decoding of all the bytes. *)
Lemma readLoop_inner_chunks (chunks : list (list byte)) (h : Hook) :
  Forall (fun x => x <> NEWLINE) (readBuffer h) ->
  let '(td, s) := decode (textDecoder h) (concat chunks) in
  let h' := readLoop_inner (map chunk_read chunks) h in
  map text (published h') =
    map text (published h) ++ lines_of (readBuffer h ++ s) /\
  readBuffer h' = unterminated (readBuffer h ++ s) /\
  textDecoder h' = td.
Proof.
  revert h. induction chunks as [|v rest IH]; intros h Hinv.
  - cbn [concat map readLoop_inner]. rewrite decode_nil. cbv zeta.
    rewrite app_nil_r. unfold lines_of, terminated_segments, unterminated.
    rewrite split_lines_no_newline by exact Hinv. simpl.
    now rewrite app_nil_r.
  - cbn [concat map readLoop_inner]. rewrite decode_app.
    change (readLoop_iteration (chunk_read v) h) with (onValue v h, false).
    cbv iota.
    pose proof (onValue_spec v h) as Hv.
    destruct (decode (textDecoder h) v) as [td1 s1].
    destruct Hv as (P1 & B1 & D1).
    specialize (IH (onValue v h)). rewrite D1, B1, P1 in IH.
    destruct (decode td1 (concat rest)) as [td2 s2].
    destruct IH as (P2 & B2 & D2).
    { apply split_lines_sound. }
    cbv zeta in *. rewrite P2, B2, D2.
    rewrite (app_assoc (readBuffer h) s1 s2).
    rewrite (lines_of_app (readBuffer h ++ s1) s2).
    rewrite (unterminated_app (readBuffer h ++ s1) s2).
    rewrite <- app_assoc. repeat split; reflexivity.
Qed.

Lemma emitted_since_texts (h h' : Hook) (l : list jsstring) :
  map text (published h') = map text (published h) ++ l ->
  map text (emitted_since h h') = l.
Proof.
  intros E. unfold emitted_since.
  rewrite <- skipn_map, E, skipn_app, skipn_all2 by (now rewrite length_map).
  rewrite length_map, Nat.sub_diag. reflexivity.
Qed.

(** C1. Starting from an empty read buffer, let [bytes] be cut into
    [chunks] in any way (a cut may fall next to a newline or inside a
    multi-byte character) and let [decoded] be the streaming decoding of
    [bytes]. Feeding the chunks one read at a time publishes exactly the
    lines of [decoded]: the newline-terminated segments, each trimmed,
    without those that are empty after trimming, in order. So the number
    of messages is the number N of such segments, and no message has an
    empty text. *)
Theorem framer_lines_any_split
  (h : Hook) (bytes : list byte) (chunks : list (list byte)) :
  readBuffer h = [] ->
  concat chunks = bytes ->
  let decoded := snd (decode (textDecoder h) bytes) in
  let emitted :=
    emitted_since h (readLoop_inner (map chunk_read chunks) h) in
  map text emitted =
    List.filter truthy (map trim (terminated_segments decoded)) /\
  length emitted = length (lines_of decoded) /\
  Forall (fun m => text m <> []) emitted.
Proof.
  intros Hbuf <-. cbv zeta.
  pose proof (readLoop_inner_chunks chunks h) as H.
  rewrite Hbuf in H. specialize (H (List.Forall_nil _)).
  destruct (decode (textDecoder h) (concat chunks)) as [td s].
  destruct H as (P & _ & _). simpl in P |- *.
  apply emitted_since_texts in P. fold (lines_of s).
  split; [exact P|]. split.
  - rewrite <- P. now rewrite length_map.
  - pose proof (lines_of_nonempty s) as Hne. rewrite <- P in Hne.
    rewrite List.Forall_forall in Hne. apply List.Forall_forall.
    intros m Hm. apply Hne, List.in_map, Hm.
Qed.

(** At stream end this revision flushes: buffered text that is not empty
    after trimming is published as one trimmed line, the buffer is emptied
    and the loop breaks. *)
Lemma readLoop_done_flushes (h : Hook) :
  trim (readBuffer h) <> [] ->
  exists h',
    readLoop_iteration {| value := None; done := true |} h = (h', true) /\
    map text (emitted_since h h') = [trim (readBuffer h)] /\
    readBuffer h' = [].
Proof.
  intros Hne. unfold readLoop_iteration. simpl.
  destruct (trim (readBuffer h)) as [|c l] eqn:E; [contradiction|]. simpl.
  eexists. split; [reflexivity|]. split; [|reflexivity].
  apply emitted_since_texts. unfold processLine. simpl.
  now rewrite map_app.
Qed.

End Framer.

Lemma framer_lines_any_split_witness :
  readBuffer example_hook = [] /\
  map text
    (emitted_since example_hook
       (readLoop_inner (fun _ => "uuid"%string) Z.of_nat
          (map chunk_read example_chunks) example_hook))
  = [lit "A"; [99; 97; 102; 233]].
Proof.
  split; [reflexivity|].
  exact (proj1 (framer_lines_any_split (fun _ => "uuid"%string) Z.of_nat
                  example_hook (concat example_chunks) example_chunks
                  eq_refl eq_refl)).
Defined.

(** The design document's examples: "A\nB\n" as one chunk, as "A\n" then
    "B\n", and as "A\nB" then "\n", all publish "A" then "B". *)
Example framer_examples :
  let texts chunks :=
    map text
      (published
         (readLoop_inner (fun _ => "uuid"%string) Z.of_nat
            (map chunk_read chunks) example_hook)) in
  texts [[x41; x0a; x42; x0a]] = [lit "A"; lit "B"] /\
  texts [[x41; x0a]; [x42; x0a]] = [lit "A"; lit "B"] /\
  texts [[x41; x0a; x42]; [x0a]] = [lit "A"; lit "B"].
Proof. vm_compute. repeat split; reflexivity. Qed.

(** *** [disconnect] *)

Section Teardown.

Variable randomUUID : nat -> string.
Variable Date_now : nat -> Z.

Local Abbreviation disconnect := (disconnect randomUUID Date_now).
Local Abbreviation readLoop_resumes := (readLoop_resumes randomUUID Date_now).

(** The iteration on [done] touches the buffer and the messages only. *)
Lemma readLoop_done_refs (h : Hook) :
  let h' := fst (readLoop_iteration randomUUID Date_now
                   {| value := None; done := true |} h) in
  isConnected h' = isConnected h /\ port h' = port h /\
  reader h' = reader h /\ keepReading h' = keepReading h /\
  timers h' = timers h /\ calls h' = calls h.
Proof.
  unfold readLoop_iteration, processLine. simpl.
  destruct (truthy (trim (readBuffer h))); simpl; [|repeat split].
  destruct (negb (truthy (trim (readBuffer h)))); repeat split.
Qed.

Lemma readLoop_after_break_refs (next : StreamReader) (c : bool) (h : Hook) :
  let h' := readLoop_after_break next c h in
  (isConnected h' = true -> isConnected h = true) /\
  keepReading h' = keepReading h /\ timers h' = timers h /\
  calls h' = calls h.
Proof.
  unfold readLoop_after_break, holds_port. cbv zeta. cbn [port set_reader keepReading].
  destruct (port h); destruct (keepReading h) eqn:K; destruct c; cbn;
    rewrite ?K; repeat split; auto; intros; discriminate.
Qed.

Lemma readLoop_resumes_returns (p : pending_read) (h : Hook) :
  exists h',
    readLoop_resumes p h = (h', normal tt) /\
    (isConnected h' = true -> isConnected h = true) /\
    keepReading h' = keepReading h /\ timers h' = timers h /\
    calls h' = calls h.
Proof.
  destruct p as [|next c]; simpl.
  - exists h. repeat split; auto.
  - eexists. split; [reflexivity|].
    destruct (readLoop_done_refs h) as (A & _ & _ & B & C & D).
    destruct (readLoop_after_break_refs next c
                (fst (readLoop_iteration randomUUID Date_now
                        {| value := None; done := true |} h)))
      as (A' & B' & C' & D').
    cbv zeta in *. repeat split; try congruence.
    intros H. rewrite <- A. now apply A'.
Qed.

Lemma disconnect_returns (p : pending_read) (h : Hook) :
  exists h1,
    returns (disconnect p) h h1 /\
    (isConnected h1 = true -> isConnected h = true) /\
    (reader h = None -> isConnected h1 = isConnected h) /\
    keepReading h1 = false /\
    timers h1 = timers h ++ [(100, closePort)].
Proof.
  unfold returns, Serial.disconnect, mbind, M_bind, bind, update, read,
    try_catch, await_while, setTimeout, ret. simpl.
  destruct (reader h) as [rd|]; simpl.
  - destruct (readLoop_resumes_returns p
                (log_call (reader_cancel (reader_id rd))
                   (set_keepReading false h))) as (h' & E & A & B & C & _).
    rewrite E. simpl in A, B, C |- *.
    destruct (cancel_settles rd); simpl; eexists;
      (split; [eexists; reflexivity|]); simpl;
      (split; [exact A|]); (split; [discriminate|]);
      (split; [exact B|]); now rewrite C.
  - eexists; (split; [eexists; reflexivity|]); simpl; auto.
Qed.

Lemma closePort_callback_returns (h : Hook) :
  exists h1,
    returns closePort_callback h h1 /\
    isConnected h1 = false /\ port h1 = None /\ readBuffer h1 = [] /\
    timers h1 = timers h.
Proof.
  unfold returns, closePort_callback, mbind, M_bind, bind, update, read,
    try_catch, await, ret. simpl.
  destruct (port h) as [pt|] eqn:Hp; simpl.
  - destruct (close_settles pt); simpl; eexists; (split; [eexists; reflexivity|]);
      simpl; repeat split; reflexivity.
  - eexists; (split; [eexists; reflexivity|]); simpl.
    repeat split; try reflexivity. exact Hp.
Qed.

Lemma run_tasks_returns (ts : list (Z * task)) (h : Hook) :
  exists h1,
    returns (run_tasks ts) h h1 /\
    (ts <> [] \/ isConnected h = false -> isConnected h1 = false) /\
    timers h1 = timers h.
Proof.
  revert h. induction ts as [|[ms t] rest IH]; intros h.
  - exists h. split; [exists tt; reflexivity|]. split; [|reflexivity].
    intros [Hne|Hd]; [contradiction|exact Hd].
  - destruct t. simpl.
    destruct (closePort_callback_returns h) as (h1 & [[] R1] & C1 & _ & _ & T1).
    destruct (IH h1) as (h2 & [[] R2] & C2 & T2).
    exists h2. split; [|split].
    + exists tt. unfold mbind, M_bind, bind. rewrite R1. exact R2.
    + intros _. apply C2. now right.
    + congruence.
Qed.

Lemma run_timers_returns (h : Hook) :
  exists h1,
    returns run_timers h h1 /\
    (timers h <> [] \/ isConnected h = false -> isConnected h1 = false) /\
    timers h1 = [].
Proof.
  unfold run_timers.
  destruct (run_tasks_returns (timers h) (set_timers [] h)) as (h1 & R & C & T).
  exists h1. split; [exact R|]. split; [exact C|exact T].
Qed.

(** C9, as the code has it. From any state, and whatever becomes of the
    read the loop is waiting for, two calls of [disconnect] in succession
    both return without throwing. Each call stops the reading and
    schedules the teardown 100 ms later; it never makes the state
    Connected, and Disconnected is reached for certain only when a
    pending teardown has run, whether both calls came before it or the
    second call came after the first teardown; from then on the state
    stays Disconnected through the second call and its teardown. *)
Theorem disconnect_twice_after_grace (p1 p2 : pending_read) (h : Hook) :
  exists h1 h2 h3,
    returns (disconnect p1) h h1 /\ returns (disconnect p2) h1 h2 /\
    keepReading h1 = false /\ keepReading h2 = false /\
    timers h1 = timers h ++ [(100, closePort)] /\
    timers h2 = timers h1 ++ [(100, closePort)] /\
    (isConnected h1 = true -> isConnected h = true) /\
    (isConnected h2 = true -> isConnected h1 = true) /\
    returns run_timers h2 h3 /\ isConnected h3 = false /\
    (exists g1 g2 g3,
        returns run_timers h1 g1 /\ isConnected g1 = false /\
        returns (disconnect p2) g1 g2 /\ isConnected g2 = false /\
        returns run_timers g2 g3 /\ isConnected g3 = false).
Proof.
  destruct (disconnect_returns p1 h) as (h1 & R1 & C1 & _ & K1 & T1).
  destruct (disconnect_returns p2 h1) as (h2 & R2 & C2 & _ & K2 & T2).
  destruct (run_timers_returns h2) as (h3 & R3 & C3 & _).
  destruct (run_timers_returns h1) as (g1 & Q1 & D1 & _).
  destruct (disconnect_returns p2 g1) as (g2 & Q2 & D2 & _ & _ & U2).
  destruct (run_timers_returns g2) as (g3 & Q3 & D3 & _).
  assert (N1 : timers h1 <> []) by (rewrite T1; now destruct (timers h)).
  assert (N2 : timers h2 <> []) by (rewrite T2; now destruct (timers h1)).
  assert (M2 : timers g2 <> []) by (rewrite U2; now destruct (timers g1)).
  assert (G1 : isConnected g1 = false) by auto.
  assert (G2 : isConnected g2 = false).
  { destruct (isConnected g2) eqn:E; [|reflexivity].
    rewrite (D2 eq_refl) in G1. discriminate. }
  exists h1, h2, h3. repeat split; try assumption; auto.
  exists g1, g2, g3. repeat split; try assumption; auto.
Qed.

End Teardown.

(** C9 as worded fails. A connected hook whose read loop was started
    while it showed Disconnected, as [connect] does: the first call
    cancels the reader, the loop ends without touching [isConnected], and
    the call returns with [isConnected] still true, the teardown being
    only scheduled. *)
Lemma disconnect_twice_counterexample :
  ~ disconnected_after_both_calls (fun _ => "uuid"%string) Z.of_nat
      (read_resolves_done {| reader_id := 2; cancel_settles := fulfilled |}
         false)
      read_stays_pending connected_hook.
Proof.
  intros (h1 & h2 & [[] R1] & C1 & _).
  vm_compute in R1. inversion R1; subst h1. discriminate C1.
Qed.

End Serial.

(* ===================================================================== *)
(** ** The auto-connecting revision of useSerial *)
(* ===================================================================== *)

(** The second copy of the hook in the repository adds auto-connect on
    launch and on plug events. Its [processLine], its newline loop and its
    [disconnect] are those of [Serial]; its [readLoop] differs at stream
    end. *)
Module SerialAuto.
Import JS Utf8 Serial.

(** The stream "A" without a newline, then the end of the stream. *)
Definition unterminated_stream : list ReadResult :=
  [ chunk_read [x41]; {| value := None; done := true |} ].

Section Framer.

Variable randomUUID : nat -> string.
Variable Date_now : nat -> Z.

(** One iteration of the inner [while (true)]: on [done] the loop breaks
    and nothing else happens. *)
Definition readLoop_iteration (r : ReadResult) (h : Hook) : Hook * bool :=
  let h1 :=
    match value r with
    | Some v => onValue randomUUID Date_now v h
    | None => h
    end in
  if done r then (h1, true) else (h1, false).

Fixpoint readLoop_inner (rs : list ReadResult) (h : Hook) : Hook :=
  match rs with
  | [] => h
  | r :: rest =>
      let '(h1, break) := readLoop_iteration r h in
      if break then h1 else readLoop_inner rest h1
  end.

(** At stream end this revision leaves the hook as it is: whatever the
    buffer holds stays there and is not published. *)
Lemma readLoop_done_is_break (h : Hook) :
  readLoop_iteration {| value := None; done := true |} h = (h, true).
Proof. reflexivity. Qed.

End Framer.

(** C8 on this revision: after "A" and the end of the stream nothing has
    been published and the buffer still holds "A", where the flush of
    [Serial.readLoop_iteration] publishes the line "A" and empties the
    buffer. *)
Theorem readLoop_done_keeps_tail :
  let run := readLoop_inner (fun _ => "uuid"%string) Z.of_nat in
  published (run unterminated_stream example_hook) = [] /\
  readBuffer (run unterminated_stream example_hook) = lit "A" /\
  map text
    (published
       (Serial.readLoop_inner (fun _ => "uuid"%string) Z.of_nat
          unterminated_stream example_hook)) = [lit "A"] /\
  readBuffer
    (Serial.readLoop_inner (fun _ => "uuid"%string) Z.of_nat
       unterminated_stream example_hook) = [].
Proof. vm_compute. repeat split; reflexivity. Qed.

End SerialAuto.

(* ===================================================================== *)
(** ** hooks/useRemote.ts *)
(* ===================================================================== *)

Module Remote.
Import JS.

Inductive Status := disconnected | connecting | connected.

Record RemoteMessage := { text : jsstring }.

(** A [Peer] endpoint of the signaling library. [preferredId] is the
    argument of the [initializePeer] call that made it, which the handlers
    installed by that call capture. *)
Record PeerObj := {
  peer_id : option string;       (* first argument of [new Peer] *)
  preferredId : option string;
  peer_disconnected : bool;      (* peer.disconnected *)
  peer_destroyed : bool          (* peer.destroyed *)
}.

(** A data connection. [wired] tells that [setupConnectionHandlers] has
    installed the hook's handlers on it, [closed] that [close()] has been
    called on it or that it has reported 'close'. *)
Record ConnObj := {
  conn_peer : string;            (* conn.peer *)
  conn_open : bool;              (* conn.open *)
  wired : bool;
  closed : bool
}.

(** Calls made on the signaling library, in order. The library's
    [destroy], [reconnect], [close] and [send] return normally; [connect]
    may also return nothing or throw, which [attemptConnection] handles. *)
Inductive call :=
| new_Peer (p : nat) (id : option string)
| peer_destroy (p : nat)
| peer_reconnect (p : nat)
| peer_connect (p : nat) (target : string)
| conn_on (c : nat)
| conn_close (c : nat)
| conn_send (c : nat) (payload : jsstring).

(** What [peer.connect] answers. *)
Inductive connect_answer :=
| gives_connection
| gives_nothing
| connect_throws.

(** Callbacks handed to [setTimeout]. *)
Inductive task :=
| retryHosting (preferredId : option string).

(** State, refs, the library's objects by identity, and the model's
    bookkeeping: calls made, pending [setTimeout] callbacks with their
    delay in milliseconds, and the period of the retry interval once the
    effect has registered it. *)
Record Session := {
  myId : string;
  remoteId : string;
  connectionStatus : Status;
  lastRemoteMessage : option RemoteMessage;
  error : option string;
  peerRef : option nat;
  connRef : option nat;
  targetIdRef : option string;
  mountedRef : bool;
  peers : gmap nat PeerObj;
  conns : gmap nat ConnObj;
  calls : list call;
  timers : list (Z * task);
  retryLoop : option Z
}.

Definition set_myId (v : string) (s : Session) : Session :=
  {| myId := v; remoteId := remoteId s;
     connectionStatus := connectionStatus s;
     lastRemoteMessage := lastRemoteMessage s; error := error s;
     peerRef := peerRef s; connRef := connRef s;
     targetIdRef := targetIdRef s; mountedRef := mountedRef s;
     peers := peers s; conns := conns s; calls := calls s;
     timers := timers s; retryLoop := retryLoop s |}.

Definition set_remoteId (v : string) (s : Session) : Session :=
  {| myId := myId s; remoteId := v; connectionStatus := connectionStatus s;
     lastRemoteMessage := lastRemoteMessage s; error := error s;
     peerRef := peerRef s; connRef := connRef s;
     targetIdRef := targetIdRef s; mountedRef := mountedRef s;
     peers := peers s; conns := conns s; calls := calls s;
     timers := timers s; retryLoop := retryLoop s |}.

Definition set_connectionStatus (v : Status) (s : Session) : Session :=
  {| myId := myId s; remoteId := remoteId s; connectionStatus := v;
     lastRemoteMessage := lastRemoteMessage s; error := error s;
     peerRef := peerRef s; connRef := connRef s;
     targetIdRef := targetIdRef s; mountedRef := mountedRef s;
     peers := peers s; conns := conns s; calls := calls s;
     timers := timers s; retryLoop := retryLoop s |}.

Definition set_lastRemoteMessage (v : option RemoteMessage) (s : Session) : Session :=
  {| myId := myId s; remoteId := remoteId s;
     connectionStatus := connectionStatus s; lastRemoteMessage := v;
     error := error s; peerRef := peerRef s; connRef := connRef s;
     targetIdRef := targetIdRef s; mountedRef := mountedRef s;
     peers := peers s; conns := conns s; calls := calls s;
     timers := timers s; retryLoop := retryLoop s |}.

Definition set_error (v : option string) (s : Session) : Session :=
  {| myId := myId s; remoteId := remoteId s;
     connectionStatus := connectionStatus s;
     lastRemoteMessage := lastRemoteMessage s; error := v;
     peerRef := peerRef s; connRef := connRef s;
     targetIdRef := targetIdRef s; mountedRef := mountedRef s;
     peers := peers s; conns := conns s; calls := calls s;
     timers := timers s; retryLoop := retryLoop s |}.

Definition set_peerRef (v : option nat) (s : Session) : Session :=
  {| myId := myId s; remoteId := remoteId s;
     connectionStatus := connectionStatus s;
     lastRemoteMessage := lastRemoteMessage s; error := error s;
     peerRef := v; connRef := connRef s; targetIdRef := targetIdRef s;
     mountedRef := mountedRef s; peers := peers s; conns := conns s;
     calls := calls s; timers := timers s; retryLoop := retryLoop s |}.

Definition set_connRef (v : option nat) (s : Session) : Session :=
  {| myId := myId s; remoteId := remoteId s;
     connectionStatus := connectionStatus s;
     lastRemoteMessage := lastRemoteMessage s; error := error s;
     peerRef := peerRef s; connRef := v; targetIdRef := targetIdRef s;
     mountedRef := mountedRef s; peers := peers s; conns := conns s;
     calls := calls s; timers := timers s; retryLoop := retryLoop s |}.

Definition set_targetIdRef (v : option string) (s : Session) : Session :=
  {| myId := myId s; remoteId := remoteId s;
     connectionStatus := connectionStatus s;
     lastRemoteMessage := lastRemoteMessage s; error := error s;
     peerRef := peerRef s; connRef := connRef s; targetIdRef := v;
     mountedRef := mountedRef s; peers := peers s; conns := conns s;
     calls := calls s; timers := timers s; retryLoop := retryLoop s |}.

Definition set_mountedRef (v : bool) (s : Session) : Session :=
  {| myId := myId s; remoteId := remoteId s;
     connectionStatus := connectionStatus s;
     lastRemoteMessage := lastRemoteMessage s; error := error s;
     peerRef := peerRef s; connRef := connRef s;
     targetIdRef := targetIdRef s; mountedRef := v; peers := peers s;
     conns := conns s; calls := calls s; timers := timers s;
     retryLoop := retryLoop s |}.

Definition set_peers (v : gmap nat PeerObj) (s : Session) : Session :=
  {| myId := myId s; remoteId := remoteId s;
     connectionStatus := connectionStatus s;
     lastRemoteMessage := lastRemoteMessage s; error := error s;
     peerRef := peerRef s; connRef := connRef s;
     targetIdRef := targetIdRef s; mountedRef := mountedRef s; peers := v;
     conns := conns s; calls := calls s; timers := timers s;
     retryLoop := retryLoop s |}.

Definition set_conns (v : gmap nat ConnObj) (s : Session) : Session :=
  {| myId := myId s; remoteId := remoteId s;
     connectionStatus := connectionStatus s;
     lastRemoteMessage := lastRemoteMessage s; error := error s;
     peerRef := peerRef s; connRef := connRef s;
     targetIdRef := targetIdRef s; mountedRef := mountedRef s;
     peers := peers s; conns := v; calls := calls s; timers := timers s;
     retryLoop := retryLoop s |}.

Definition set_calls (v : list call) (s : Session) : Session :=
  {| myId := myId s; remoteId := remoteId s;
     connectionStatus := connectionStatus s;
     lastRemoteMessage := lastRemoteMessage s; error := error s;
     peerRef := peerRef s; connRef := connRef s;
     targetIdRef := targetIdRef s; mountedRef := mountedRef s;
     peers := peers s; conns := conns s; calls := v; timers := timers s;
     retryLoop := retryLoop s |}.

Definition set_timers (v : list (Z * task)) (s : Session) : Session :=
  {| myId := myId s; remoteId := remoteId s;
     connectionStatus := connectionStatus s;
     lastRemoteMessage := lastRemoteMessage s; error := error s;
     peerRef := peerRef s; connRef := connRef s;
     targetIdRef := targetIdRef s; mountedRef := mountedRef s;
     peers := peers s; conns := conns s; calls := calls s; timers := v;
     retryLoop := retryLoop s |}.

Definition set_retryLoop (v : option Z) (s : Session) : Session :=
  {| myId := myId s; remoteId := remoteId s;
     connectionStatus := connectionStatus s;
     lastRemoteMessage := lastRemoteMessage s; error := error s;
     peerRef := peerRef s; connRef := connRef s;
     targetIdRef := targetIdRef s; mountedRef := mountedRef s;
     peers := peers s; conns := conns s; calls := calls s;
     timers := timers s; retryLoop := v |}.

(** Truthiness of an optional string: [undefined], [null] and the empty
    string are falsy. *)
Definition truthy_id (o : option string) : bool :=
  match o with
  | Some id => negb (String.eqb id "")
  | None => false
  end.

Definition PREFIX : string := "sg-v2-".

Definition peer_has (f : PeerObj -> bool) (s : Session) (p : nat) : bool :=
  match peers s !! p with Some o => f o | None => false end.

Definition conn_has (f : ConnObj -> bool) (s : Session) (c : nat) : bool :=
  match conns s !! c with Some o => f o | None => false end.

Definition log (c : call) (s : Session) : Session :=
  set_calls (calls s ++ [c]) s.

Definition setTimeout (t : task) (ms : Z) (s : Session) : Session :=
  set_timers (timers s ++ [(ms, t)]) s.

(** [peer.destroy()]. *)
Definition destroy (p : nat) (s : Session) : Session :=
  log (peer_destroy p)
    (set_peers
       (alter (fun o => {| peer_id := peer_id o; preferredId := preferredId o;
                           peer_disconnected := true;
                           peer_destroyed := true |}) p (peers s)) s).

(** [peer.reconnect()]. *)
Definition reconnect (p : nat) (s : Session) : Session :=
  log (peer_reconnect p)
    (set_peers
       (alter (fun o => {| peer_id := peer_id o; preferredId := preferredId o;
                           peer_disconnected := false;
                           peer_destroyed := peer_destroyed o |}) p (peers s))
       s).

(** [conn.close()]. *)
Definition close (c : nat) (s : Session) : Session :=
  log (conn_close c)
    (set_conns
       (alter (fun o => {| conn_peer := conn_peer o; conn_open := false;
                           wired := wired o; closed := true |}) c (conns s))
       s).

Definition setupConnectionHandlers (c : nat) (s : Session) : Session :=
  log (conn_on c)
    (set_conns
       (alter (fun o => {| conn_peer := conn_peer o; conn_open := conn_open o;
                           wired := true; closed := closed o |}) c (conns s))
       (set_connRef (Some c) s)).

(** The connection object the library hands over, under a fresh identity. *)
Definition new_conn (remote : string) (s : Session) : nat * Session :=
  let c := fresh (dom (conns s)) in
  (c, set_conns (<[c := {| conn_peer := remote; conn_open := false;
                           wired := false; closed := false |}]> (conns s)) s).

Definition attemptConnection (answer : connect_answer) (target : string)
    (s : Session) : Session :=
  match peerRef s with
  | None => s
  | Some p =>
      if peer_has peer_destroyed s p then s
      else
        let fullTargetId := (PREFIX ++ target)%string in
        let s1 := match connRef s with Some c => close c s | None => s end in
        let s2 := log (peer_connect p fullTargetId) s1 in
        match answer with
        | gives_connection =>
            let '(c, s3) := new_conn fullTargetId s2 in
            setupConnectionHandlers c s3
        | gives_nothing => s2
        | connect_throws => s2
        end
  end.

Definition initializePeer (preferredId : option string) (s : Session)
  : Session :=
  match peerRef s with
  | Some _ => s
  | None =>
      let peerId :=
        match preferredId with
        | Some id => if truthy_id preferredId
                     then Some (PREFIX ++ id)%string else None
        | None => None
        end in
      let p := fresh (dom (peers s)) in
      set_peerRef (Some p)
        (log (new_Peer p peerId)
           (set_peers
              (<[p := {| peer_id := peerId; preferredId := preferredId;
                         peer_disconnected := false;
                         peer_destroyed := false |}]> (peers s)) s))
  end.

(** [peer.on('open', ...)] of the peer [p]. *)
Definition onPeerOpen (answer : connect_answer) (p : nat) (id : string)
    (s : Session) : Session :=
  if negb (mountedRef s) then s
  else
    let preferred :=
      match peers s !! p with Some o => preferredId o | None => None end in
    let s1 :=
      set_error None
        (set_myId (if truthy_id preferred then default id preferred else id)
           s) in
    match targetIdRef s1 with
    | Some target =>
        if truthy_id (Some target) then attemptConnection answer target s1
        else s1
    | None => s1
    end.

(** [peer.on('connection', ...)]: the library hands over the inbound
    connection of the remote peer [remote]. *)
Definition onPeerConnection (remote : string) (s : Session) : Session :=
  let '(conn, s0) := new_conn remote s in
  let s1 := match connRef s0 with Some c => close c s0 | None => s0 end in
  setupConnectionHandlers conn s1.

(** The state [onPeerConnection] passes through once the previous
    connection has been closed and before the handlers are installed. *)
Definition onPeerConnection_closed (remote : string) (s : Session) : Session :=
  let '(conn, s0) := new_conn remote s in
  match connRef s0 with Some c => close c s0 | None => s0 end.

(** [peer.on('error', ...)] of the peer [p], for an error of type
    [err_type]. *)
Definition onPeerError (p : nat) (err_type : string) (s : Session) : Session :=
  let preferred :=
    match peers s !! p with Some o => preferredId o | None => None end in
  if String.eqb err_type "unavailable-id" && truthy_id preferred then
    setTimeout (retryHosting preferred) 1500 (destroy p s)
  else s.

(** [peer.on('disconnected', ...)] of the peer [p]. *)
Definition onPeerDisconnected (p : nat) (s : Session) : Session :=
  if negb (peer_has peer_destroyed s p) then reconnect p s else s.

Definition run_task (t : task) (s : Session) : Session :=
  match t with
  | retryHosting preferredId =>
      initializePeer preferredId (set_peerRef None s)
  end.

Definition connectToPeer (answer : connect_answer) (targetId : string)
    (s : Session) : Session :=
  if negb (truthy_id (Some targetId)) then s
  else
    let s1 :=
      set_remoteId targetId
        (set_connectionStatus connecting
           (set_targetIdRef (Some targetId) s)) in
    match peerRef s1 with
    | Some p =>
        if negb (peer_has peer_destroyed s1 p)
        then attemptConnection answer targetId s1
        else initializePeer None s1
    | None => initializePeer None s1
    end.

Definition sendData (payload : jsstring) (s : Session) : Session :=
  match connRef s with
  | Some c =>
      if conn_has conn_open s c then log (conn_send c payload) s else s
  | None => s
  end.

Definition startHosting (id : string) (s : Session) : Session :=
  initializePeer (Some id) s.

(** The period of the retry interval, in milliseconds. *)
Definition RETRY_PERIOD : Z := 2000.

(** The effect that runs once on mount. *)
Definition mount (s : Session) : Session :=
  set_retryLoop (Some RETRY_PERIOD) (set_mountedRef true s).

(** [const isConnected = connRef.current && connRef.current.open]. *)
Definition isConnected (s : Session) : bool :=
  match connRef s with
  | Some c => conn_has conn_open s c
  | None => false
  end.

(** One tick of [retryLoop]. *)
Definition retryLoop_tick (answer : connect_answer) (s : Session) : Session :=
  if negb (mountedRef s) then s
  else
    match targetIdRef s with
    | Some target =>
        if truthy_id (Some target) then
          if negb (isConnected s) then
            match peerRef s with
            | Some p =>
                if peer_has peer_disconnected s p
                   && negb (peer_has peer_destroyed s p)
                then reconnect p s
                else if negb (peer_has peer_destroyed s p)
                then attemptConnection answer target s
                else s
            | None => initializePeer None s
            end
          else s
        else s
    | None => s
    end.

(** [str.replace(pat, by)] for string arguments: the first occurrence. *)
Definition replace_first (pat by_ str : string) : string :=
  match String.index 0 pat str with
  | Some i =>
      (String.substring 0 i str ++ by_ ++
       String.substring (i + String.length pat)
                        (String.length str - i - String.length pat) str)%string
  | None => str
  end.

(** The handlers [setupConnectionHandlers] installs on the connection [c]. *)
Definition onConnOpen (c : nat) (s : Session) : Session :=
  let peer := match conns s !! c with Some o => conn_peer o | None => ""%string end in
  set_error None
    (set_remoteId (replace_first PREFIX ""%string peer)
       (set_connectionStatus connected s)).

(** [data] is [None] for a falsy payload, and otherwise holds the
    payload's [text] field when it has one. *)
Definition onConnData (data : option (option jsstring)) (s : Session)
  : Session :=
  match data with
  | Some (Some t) =>
      if truthy t then set_lastRemoteMessage (Some {| text := t |}) s else s
  | _ => s
  end.

Definition onConnClose (c : nat) (s : Session) : Session :=
  set_connRef None (set_connectionStatus disconnected s).

Definition onConnError (c : nat) (s : Session) : Session :=
  set_connectionStatus disconnected s.

(** The library closes the connection [c] (the remote side went away)
    and reports it. *)
Definition connection_lost (c : nat) (s : Session) : Session :=
  onConnClose c
    (set_conns
       (alter (fun o => {| conn_peer := conn_peer o; conn_open := false;
                           wired := wired o; closed := true |}) c (conns s))
       s).

(** The library marks the connection [c] open and reports it. *)
Definition connection_opened (c : nat) (s : Session) : Session :=
  onConnOpen c
    (set_conns
       (alter (fun o => {| conn_peer := conn_peer o; conn_open := true;
                           wired := wired o; closed := closed o |}) c (conns s))
       s).

(** *** Vocabulary of the properties *)

(** The calls made on the library between two states. *)
Definition calls_since (s s' : Session) : list call :=
  skipn (length (calls s)) (calls s').

(** An active logical connection: the hook has installed its handlers on
    it and it has not been closed. *)
Definition active (s : Session) (c : nat) : Prop :=
  exists o, conns s !! c = Some o /\ wired o = true /\ closed o = false.

Definition at_most_one_active (s : Session) : Prop :=
  forall c1 c2, active s c1 -> active s c2 -> c1 = c2.

(** The invariant behind it: an active connection is the one [connRef]
    holds. *)
Definition held_is_only_active (s : Session) : Prop :=
  forall c, active s c -> connRef s = Some c.

(** The hook before anything has happened. *)
Definition initial : Session :=
  {| myId := ""%string; remoteId := ""%string;
     connectionStatus := disconnected;
     lastRemoteMessage := None; error := None; peerRef := None;
     connRef := None; targetIdRef := None; mountedRef := true;
     peers := ∅; conns := ∅; calls := []; timers := [];
     retryLoop := None |}.

(** What can happen to a hosting session: a connection arrives; an
    active connection opens, delivers data, fails or is lost; the
    application sends. *)
Inductive host_step : Session -> Session -> Prop :=
| host_inbound (remote : string) (s : Session) :
    host_step s (onPeerConnection remote s)
| host_opened (c : nat) (s : Session) :
    active s c -> host_step s (connection_opened c s)
| host_data (c : nat) (data : option (option jsstring)) (s : Session) :
    active s c -> host_step s (onConnData data s)
| host_error (c : nat) (s : Session) :
    active s c -> host_step s (onConnError c s)
| host_lost (c : nat) (s : Session) :
    active s c -> host_step s (connection_lost c s)
| host_send (payload : jsstring) (s : Session) :
    host_step s (sendData payload s).

Inductive host_reachable : Session -> Prop :=
| reach_initial : host_reachable initial
| reach_step (s s' : Session) :
    host_reachable s -> host_step s s' -> host_reachable s'.

(** The repair tick as the design document words it, for a mounted hook
    whose target is set and whose connection is not open: one action, by
    priority, the last resort being an outbound attempt to the target. *)
Definition tick_as_worded (answer : connect_answer) (s : Session) : Prop :=
  forall target,
    mountedRef s = true -> targetIdRef s = Some target -> target <> ""%string ->
    isConnected s = false ->
    let made := calls_since s (retryLoop_tick answer s) in
    match peerRef s with
    | Some p =>
        if peer_has peer_disconnected s p && negb (peer_has peer_destroyed s p)
        then made = [peer_reconnect p]
        else In (peer_connect p (PREFIX ++ target)%string) made
    | None => exists p, made = [new_Peer p None]
    end.

(** A client whose endpoint has been destroyed and is still referenced. *)
Definition client_with_destroyed_peer : Session :=
  {| myId := ""%string; remoteId := "1234"%string;
     connectionStatus := connecting;
     lastRemoteMessage := None; error := None; peerRef := Some 0%nat;
     connRef := None; targetIdRef := Some "1234"%string; mountedRef := true;
     peers := {[ 0%nat := {| peer_id := None; preferredId := None;
                             peer_disconnected := true;
                             peer_destroyed := true |} ]};
     conns := ∅; calls := []; timers := []; retryLoop := Some RETRY_PERIOD |}.

(** A host that holds an open connection from the peer "sg-v2-c1". *)
Definition host_with_connection : Session :=
  {| myId := "1234"%string; remoteId := "c1"%string;
     connectionStatus := connected;
     lastRemoteMessage := None; error := None; peerRef := Some 0%nat;
     connRef := Some 0%nat; targetIdRef := None; mountedRef := true;
     peers := {[ 0%nat := {| peer_id := Some "sg-v2-1234"%string;
                             preferredId := Some "1234"%string;
                             peer_disconnected := false;
                             peer_destroyed := false |} ]};
     conns := {[ 0%nat := {| conn_peer := "sg-v2-c1"%string; conn_open := true;
                             wired := true; closed := false |} ]};
     calls := []; timers := []; retryLoop := Some RETRY_PERIOD |}.

(** *** Traces *)

Lemma calls_since_app (s s' : Session) (l : list call) :
  calls s' = calls s ++ l -> calls_since s s' = l.
Proof.
  intros E. unfold calls_since.
  rewrite E, skipn_app, skipn_all, Nat.sub_diag. reflexivity.
Qed.

Lemma calls_since_refl (s : Session) : calls_since s s = [].
Proof. apply calls_since_app. now rewrite app_nil_r. Qed.

Lemma initializePeer_calls (preferred : option string) (s : Session) :
  peerRef s = None ->
  let p := fresh (dom (peers s)) in
  let peerId :=
    if truthy_id preferred then option_map (String.append PREFIX) preferred
    else None in
  calls (initializePeer preferred s) = calls s ++ [new_Peer p peerId] /\
  peerRef (initializePeer preferred s) = Some p /\
  peers (initializePeer preferred s) !! p =
    Some {| peer_id := peerId; preferredId := preferred;
            peer_disconnected := false; peer_destroyed := false |} /\
  timers (initializePeer preferred s) = timers s.
Proof.
  intros Hnone. unfold initializePeer. rewrite Hnone. simpl.
  destruct preferred as [id|]; simpl.
  - destruct (negb (String.eqb id "")); simpl;
      rewrite lookup_insert_eq; repeat split; reflexivity.
  - rewrite lookup_insert_eq. repeat split; reflexivity.
Qed.

Lemma attemptConnection_calls (answer : connect_answer) (target : string)
    (s : Session) (p : nat) :
  peerRef s = Some p -> peer_has peer_destroyed s p = false ->
  exists c,
    calls (attemptConnection answer target s) =
      calls s
      ++ match connRef s with Some old => [conn_close old] | None => [] end
      ++ [peer_connect p (PREFIX ++ target)%string]
      ++ match answer with gives_connection => [conn_on c] | _ => [] end /\
    connRef (attemptConnection answer target s) =
      match answer with gives_connection => Some c | _ => connRef s end.
Proof.
  intros Hp Hd. unfold attemptConnection. rewrite Hp.
  unfold peer_has in *. rewrite Hd.
  destruct answer, (connRef s) as [old|] eqn:Hc; simpl;
    [eexists | eexists | exists 0%nat ..];
    rewrite <- ?app_assoc; simpl;
    (split; [reflexivity | first [reflexivity | assumption]]).
Qed.

(** *** [sendData] *)

(** C7. [sendData] forwards the text over the current connection when
    there is one and it reports itself open: the call [send] is made on it
    and nothing else changes. Otherwise the hook is left exactly as it
    was: nothing is sent, nothing is kept for later, nothing is raised. *)
Theorem sendData_open_or_silent (payload : jsstring) (s : Session) :
  (forall c, connRef s = Some c -> conn_has conn_open s c = true ->
     sendData payload s = log (conn_send c payload) s /\
     calls_since s (sendData payload s) = [conn_send c payload]) /\
  (isConnected s = false ->
     sendData payload s = s /\ calls_since s (sendData payload s) = []).
Proof.
  split.
  - intros c Hc Ho. unfold sendData. rewrite Hc, Ho.
    split; [reflexivity|]. now apply calls_since_app.
  - unfold isConnected, sendData. intros Hn.
    destruct (connRef s) as [c|]; [rewrite Hn|];
      (split; [reflexivity|apply calls_since_refl]).
Qed.

(** *** Identity collision *)

(** C6. A host registered under [PREFIX ++ id] whose endpoint reports
    'unavailable-id' destroys that endpoint and schedules one callback
    1500 ms later; whenever that callback runs, it creates an endpoint
    under the same [PREFIX ++ id], whose handlers again capture [id]. *)
Theorem collision_retries_same_identity (s : Session) (id : string) :
  id <> ""%string -> peerRef s = None ->
  let registered := (PREFIX ++ id)%string in
  let p := fresh (dom (peers s)) in
  let s1 := startHosting id s in
  let s2 := onPeerError p "unavailable-id" s1 in
  calls_since s s1 = [new_Peer p (Some registered)] /\
  calls_since s1 s2 = [peer_destroy p] /\
  peer_has peer_destroyed s2 p = true /\
  timers s2 = timers s1 ++ [(1500, retryHosting (Some id))] /\
  forall s', exists p',
    let s3 := run_task (retryHosting (Some id)) s' in
    calls_since s' s3 = [new_Peer p' (Some registered)] /\
    peerRef s3 = Some p' /\
    (preferredId <$> peers s3 !! p') = Some (Some id).
Proof.
  intros Hid Hnone. cbv zeta.
  assert (Ht : truthy_id (Some id) = true).
  { simpl. destruct (String.eqb_spec id ""); [contradiction|reflexivity]. }
  destruct (initializePeer_calls (Some id) s Hnone) as (C1 & R1 & P1 & T1).
  rewrite Ht in C1, P1. simpl in C1, P1.
  unfold startHosting.
  split; [now apply calls_since_app|].
  unfold onPeerError. rewrite P1. simpl preferredId.
  rewrite Ht. simpl.
  split; [apply calls_since_app; reflexivity|].
  split; [unfold peer_has; simpl; rewrite lookup_alter_eq, P1; reflexivity|].
  split; [reflexivity|].
  intros s'. unfold run_task.
  destruct (initializePeer_calls (Some id) (set_peerRef None s') eq_refl)
    as (C3 & R3 & P3 & _).
  rewrite Ht in C3, P3. simpl in C3, P3.
  eexists. split; [apply calls_since_app; exact C3|].
  split; [exact R3|]. rewrite P3. reflexivity.
Qed.

Lemma collision_retries_same_identity_witness :
  let s1 := startHosting "1234" initial in
  let s2 := onPeerError 0 "unavailable-id" s1 in
  calls_since initial s1 = [new_Peer 0 (Some "sg-v2-1234"%string)] /\
  calls_since s1 s2 = [peer_destroy 0] /\
  timers s2 = [(1500, retryHosting (Some "1234"%string))].
Proof.
  pose proof (collision_retries_same_identity initial "1234"
                ltac:(discriminate) eq_refl) as (H1 & H2 & _ & H4 & _).
  exact (conj H1 (conj H2 H4)).
Defined.

(** *** The retry loop *)

Lemma retryLoop_tick_idle (answer : connect_answer) (s : Session) :
  mountedRef s = false \/ truthy_id (targetIdRef s) = false \/
  isConnected s = true ->
  retryLoop_tick answer s = s.
Proof.
  unfold retryLoop_tick. intros [H|[H|H]].
  - now rewrite H.
  - destruct (mountedRef s); [|reflexivity]. cbn [negb].
    destruct (targetIdRef s) as [t|]; [|reflexivity].
    now rewrite H.
  - destruct (mountedRef s); [|reflexivity]. cbn [negb].
    destruct (targetIdRef s) as [t|]; [|reflexivity].
    destruct (truthy_id (Some t)); [|reflexivity].
    now rewrite H.
Qed.

(** C4, as the code has it. The effect registers the tick with a period
    of 2000 ms. A tick leaves the hook untouched when the hook is
    unmounted, when no target is set, or when the current connection
    reports itself open. Otherwise it does one thing, by priority:
    (1) an endpoint that is disconnected from signaling and not destroyed
    is asked to reconnect; (2) when there is no endpoint one is created
    (with no fixed identity); (3) an endpoint that is not destroyed gets
    one [connect] to [PREFIX ++ target], after the stale connection object,
    if one is held, has been closed, and the hook's handlers are installed
    on the connection when the library returns one; (4) an endpoint that
    is destroyed and still referenced is left alone: the tick does
    nothing. *)
Theorem retryLoop_tick_priorities (answer : connect_answer) (s : Session) :
  retryLoop (mount s) = Some 2000 /\
  (mountedRef s = false \/ truthy_id (targetIdRef s) = false \/
   isConnected s = true ->
   retryLoop_tick answer s = s) /\
  (forall target,
     mountedRef s = true -> targetIdRef s = Some target ->
     target <> ""%string -> isConnected s = false ->
     let s' := retryLoop_tick answer s in
     match peerRef s with
     | Some p =>
         if peer_has peer_disconnected s p && negb (peer_has peer_destroyed s p)
         then calls_since s s' = [peer_reconnect p]
         else if negb (peer_has peer_destroyed s p)
         then exists c,
           calls_since s s' =
             match connRef s with Some old => [conn_close old] | None => [] end
             ++ [peer_connect p (PREFIX ++ target)%string]
             ++ match answer with gives_connection => [conn_on c] | _ => [] end
         else s' = s
     | None =>
         calls_since s s' = [new_Peer (fresh (dom (peers s))) None]
     end).
Proof.
  split; [reflexivity|]. split; [apply retryLoop_tick_idle|].
  intros target Hm Ht Hne Hc. cbv zeta. unfold retryLoop_tick.
  rewrite Hm, Ht, Hc. simpl.
  destruct (String.eqb_spec target ""); [contradiction|]. simpl.
  destruct (peerRef s) as [p|] eqn:Hp.
  - destruct (peer_has peer_disconnected s p && negb (peer_has peer_destroyed s p)).
    + now apply calls_since_app.
    + destruct (peer_has peer_destroyed s p) eqn:Hd; simpl; [reflexivity|].
      destruct (attemptConnection_calls answer target s p Hp Hd) as (c & C & _).
      exists c. now apply calls_since_app.
  - destruct (initializePeer_calls None s Hp) as (C & _).
    now apply calls_since_app.
Qed.

(** C4 as worded fails once the endpoint has been destroyed while it is
    still referenced: the tick then makes no call at all, where the
    wording has it issue an outbound attempt. *)
Lemma retryLoop_tick_counterexample :
  ~ tick_as_worded gives_connection client_with_destroyed_peer.
Proof.
  intros H.
  specialize (H "1234"%string eq_refl eq_refl ltac:(discriminate) eq_refl).
  vm_compute in H. exact H.
Qed.

(** *** Connection replacement on the host *)

Lemma active_new_conn (remote : string) (s : Session) (c : nat) :
  active (new_conn remote s).2 c <-> active s c.
Proof.
  unfold active, new_conn. simpl.
  pose proof (is_fresh (dom (conns s))) as Hfresh.
  apply not_elem_of_dom in Hfresh.
  destruct (decide (c = fresh (dom (conns s)))) as [->|Hne].
  - rewrite lookup_insert_eq, Hfresh. split.
    + intros (o & [= <-] & W & _). discriminate W.
    + intros (o & [=] & _).
  - now rewrite lookup_insert_ne by congruence.
Qed.

Lemma active_close (c c' : nat) (s : Session) :
  active (close c s) c' <-> c' <> c /\ active s c'.
Proof.
  unfold active, close. simpl. split.
  - intros (o & L & W & C).
    destruct (decide (c' = c)) as [->|Hne].
    + rewrite lookup_alter_eq in L.
      destruct (conns s !! c) as [o'|]; simpl in L; [|discriminate].
      injection L as <-. discriminate C.
    + rewrite lookup_alter_ne in L by congruence. eauto.
  - intros (Hne & o & L & W & C). exists o.
    rewrite lookup_alter_ne by congruence. auto.
Qed.

Lemma active_setupConnectionHandlers (c c' : nat) (s : Session) :
  active (setupConnectionHandlers c s) c' -> c' = c \/ active s c'.
Proof.
  unfold active, setupConnectionHandlers. simpl.
  intros (o & L & W & C).
  destruct (decide (c' = c)) as [->|Hne]; [now left|right].
  rewrite lookup_alter_ne in L by congruence. eauto.
Qed.

Lemma held_is_only_active_one (s : Session) :
  held_is_only_active s -> at_most_one_active s.
Proof.
  intros H c1 c2 A1 A2. apply H in A1, A2. congruence.
Qed.

Lemma held_is_only_active_initial : held_is_only_active initial.
Proof.
  intros c (o & L & _). simpl in L. rewrite lookup_empty in L. discriminate.
Qed.

(** Closing the connection that is held leaves no connection active. *)
Lemma close_held_none_active (s : Session) :
  held_is_only_active s ->
  forall c,
    ~ active (match connRef s with Some old => close old s | None => s end) c.
Proof.
  intros Hinv c A. destruct (connRef s) as [old|] eqn:Hc.
  - apply active_close in A as [Hne A]. apply Hinv in A. congruence.
  - apply Hinv in A. congruence.
Qed.

Lemma onPeerConnection_step_invariant (remote : string) (s : Session) :
  held_is_only_active s -> held_is_only_active (onPeerConnection remote s).
Proof.
  intros Hinv. unfold onPeerConnection.
  set (s0 := (new_conn remote s).2).
  change (new_conn remote s) with (fresh (dom (conns s)), s0). cbv iota beta.
  assert (Hinv0 : held_is_only_active s0).
  { intros c A. apply active_new_conn in A. apply Hinv in A. exact A. }
  pose proof (close_held_none_active s0 Hinv0) as Hnone.
  intros c A. apply active_setupConnectionHandlers in A as [->|A];
    [reflexivity|]. now apply Hnone in A.
Qed.

(** C5. Let the host hold the invariant that an active connection is the
    one [connRef] holds. When the library hands over an inbound
    connection, the handler first calls [close] on the connection it
    holds, if any, and only then installs the hook's handlers on the new
    one. In between no connection is active; afterwards the new
    connection is the only active one and the one [connRef] holds. So at
    most one connection is active at each of these moments, and the
    invariant holds again for the next arrival. *)
Theorem onPeerConnection_replaces (remote : string) (s : Session) :
  held_is_only_active s ->
  let conn := fresh (dom (conns s)) in
  let s1 := onPeerConnection_closed remote s in
  let s2 := onPeerConnection remote s in
  s2 = setupConnectionHandlers conn s1 /\
  (forall old, connRef s = Some old ->
     calls_since s s1 = [conn_close old] /\
     calls_since s s2 = [conn_close old; conn_on conn]) /\
  (connRef s = None -> calls_since s s2 = [conn_on conn]) /\
  (forall c, ~ active s1 c) /\
  (forall c, active s2 c -> c = conn) /\
  connRef s2 = Some conn /\
  at_most_one_active s1 /\ at_most_one_active s2 /\
  held_is_only_active s2.
Proof.
  intros Hinv. cbv zeta.
  unfold onPeerConnection, onPeerConnection_closed.
  set (conn := fresh (dom (conns s))).
  set (s0 := (new_conn remote s).2).
  change (new_conn remote s) with (conn, s0). cbv iota beta.
  assert (Hinv0 : held_is_only_active s0).
  { intros c A. apply active_new_conn in A. apply Hinv in A. exact A. }
  pose proof (close_held_none_active s0 Hinv0) as Hnone.
  change (connRef s0) with (connRef s) in *.
  assert (Honly : forall c,
             active (setupConnectionHandlers conn
                       (match connRef s with
                        | Some c0 => close c0 s0 | None => s0 end)) c ->
             c = conn).
  { intros c A. apply active_setupConnectionHandlers in A as [->|A];
      [reflexivity|]. now apply Hnone in A. }
  split; [reflexivity|].
  split; [|split; [|split; [exact Hnone|split; [exact Honly|]]]].
  - intros old ->. split; apply calls_since_app; simpl;
      rewrite <- ?app_assoc; reflexivity.
  - intros ->. apply calls_since_app. reflexivity.
  - split; [reflexivity|]. split; [|split].
    + intros c1 c2 A1 _. now apply Hnone in A1.
    + intros c1 c2 A1 A2. apply Honly in A1, A2. congruence.
    + intros c A. apply Honly in A. subst c. reflexivity.
Qed.

Lemma host_with_connection_invariant :
  held_is_only_active host_with_connection.
Proof.
  intros c (o & L & _). simpl in L.
  apply lookup_singleton_Some in L as [<- _]. reflexivity.
Qed.

Lemma onPeerConnection_replaces_witness :
  calls_since host_with_connection
    (onPeerConnection "sg-v2-c2" host_with_connection)
  = [conn_close 0; conn_on 1] /\
  connRef (onPeerConnection "sg-v2-c2" host_with_connection) = Some 1%nat /\
  at_most_one_active (onPeerConnection "sg-v2-c2" host_with_connection).
Proof.
  pose proof (onPeerConnection_replaces "sg-v2-c2" host_with_connection
                host_with_connection_invariant)
    as (_ & H1 & _ & _ & _ & H2 & _ & H3 & _).
  split; [exact (proj2 (H1 0%nat eq_refl))|]. split; [exact H2|exact H3].
Defined.

(** The invariant is kept by the other ways a connection comes and goes:
    an outbound attempt, and the loss of the connection that is held. *)
Lemma attemptConnection_invariant (answer : connect_answer) (target : string)
    (s : Session) :
  held_is_only_active s ->
  held_is_only_active (attemptConnection answer target s).
Proof.
  intros Hinv. unfold attemptConnection.
  destruct (peerRef s) as [p|]; [|exact Hinv].
  destruct (peer_has peer_destroyed s p); [exact Hinv|]. cbv zeta.
  pose proof (close_held_none_active s Hinv) as Hnone.
  set (s1 := match connRef s with Some c => close c s | None => s end) in *.
  assert (Hnone2 : forall c, ~ active (log (peer_connect p (PREFIX ++ target)) s1) c)
    by exact Hnone.
  destruct answer.
  - set (s2 := log (peer_connect p (PREFIX ++ target)) s1) in *.
    change (new_conn (PREFIX ++ target) s2)
      with (fresh (dom (conns s2)), (new_conn (PREFIX ++ target) s2).2).
    cbv iota beta. intros c A.
    apply active_setupConnectionHandlers in A as [->|A]; [reflexivity|].
    apply active_new_conn in A. now apply Hnone2 in A.
  - intros c A. now apply Hnone2 in A.
  - intros c A. now apply Hnone2 in A.
Qed.

Lemma connection_lost_invariant (c : nat) (s : Session) :
  held_is_only_active s -> connRef s = Some c ->
  held_is_only_active (connection_lost c s).
Proof.
  intros Hinv Hc c' (o & L & W & C). exfalso.
  unfold connection_lost, onConnClose in L. simpl in L.
  destruct (decide (c' = c)) as [->|Hne].
  - rewrite lookup_alter_eq in L.
    destruct (conns s !! c) as [o'|]; simpl in L; [|discriminate].
    injection L as <-. discriminate C.
  - rewrite lookup_alter_ne in L by congruence.
    assert (A : active s c') by (exists o; auto).
    apply Hinv in A. congruence.
Qed.

(** Should the library report 'close' of the previous connection while
    [close] runs, the handler of that report clears [connRef] and the
    status, and the installation that follows ends with the same
    connection held and the same connections active. *)
Lemma setupConnectionHandlers_after_report (conn old : nat) (s : Session) :
  connRef (setupConnectionHandlers conn (onConnClose old s))
    = connRef (setupConnectionHandlers conn s) /\
  conns (setupConnectionHandlers conn (onConnClose old s))
    = conns (setupConnectionHandlers conn s) /\
  calls (setupConnectionHandlers conn (onConnClose old s))
    = calls (setupConnectionHandlers conn s).
Proof. repeat split; reflexivity. Qed.

(** Along every run of a hosting session the invariant holds, hence at
    most one connection is active at each moment. *)
Lemma host_reachable_invariant (s : Session) :
  host_reachable s -> held_is_only_active s /\ at_most_one_active s.
Proof.
  intros Hr.
  cut (held_is_only_active s);
    [intros H; split; [exact H|now apply held_is_only_active_one]|].
  induction Hr as [|s s' _ IH Hstep]; [apply held_is_only_active_initial|].
  destruct Hstep as [remote s|c s A|c data s A|c s A|c s A|payload s].
  - apply (onPeerConnection_step_invariant remote s IH).
  - intros c' (o & L & W & C).
    unfold connection_opened, onConnOpen in L |- *. simpl in L |- *.
    apply IH. destruct (decide (c' = c)) as [->|Hne].
    + rewrite lookup_alter_eq in L.
      destruct (conns s !! c) as [o'|] eqn:E; simpl in L; [|discriminate].
      injection L as <-. exists o'. auto.
    + rewrite lookup_alter_ne in L by congruence. exists o. auto.
  - unfold onConnData. destruct data as [[t|]|]; [|exact IH|exact IH].
    destruct (truthy t); exact IH.
  - exact IH.
  - apply connection_lost_invariant; [exact IH|]. now apply IH.
  - unfold sendData. destruct (connRef s) as [c|]; [|exact IH].
    destruct (conn_has conn_open s c); exact IH.
Qed.

End Remote.

(* ===================================================================== *)
(** ** The router of the App component *)
(* ===================================================================== *)

Module App.
Import JS Serial.

(** The reserved text of the emergency trigger. *)
Definition SOS_TRIGGER : jsstring := lit "!!SOS_TRIGGER!!".

(** [a === b] on strings. *)
Definition strict_eq (a b : jsstring) : bool := bool_decide (a = b).

Definition is_device (o : Origin) : bool :=
  match o with device => true | user => false end.

(** The component's state and the ref [lastProcessedText]. [spoken] lists
    the texts handed to [speak], oldest first, and [created] counts the
    messages built so far. *)
Record State := {
  allowDuplicates : bool;
  isSpeakingEnabled : bool;
  isSosActive : bool;
  history : list SerialMessage;
  currentDisplayMessage : option SerialMessage;
  lastProcessedText : jsstring;
  spoken : list jsstring;
  created : nat
}.

Definition setIsSosActive (v : bool) (s : State) : State :=
  {| allowDuplicates := allowDuplicates s;
     isSpeakingEnabled := isSpeakingEnabled s; isSosActive := v;
     history := history s; currentDisplayMessage := currentDisplayMessage s;
     lastProcessedText := lastProcessedText s; spoken := spoken s;
     created := created s |}.

Definition setHistory (f : list SerialMessage -> list SerialMessage)
    (s : State) : State :=
  {| allowDuplicates := allowDuplicates s;
     isSpeakingEnabled := isSpeakingEnabled s; isSosActive := isSosActive s;
     history := f (history s);
     currentDisplayMessage := currentDisplayMessage s;
     lastProcessedText := lastProcessedText s; spoken := spoken s;
     created := created s |}.

Definition setCurrentDisplayMessage (v : option SerialMessage) (s : State)
  : State :=
  {| allowDuplicates := allowDuplicates s;
     isSpeakingEnabled := isSpeakingEnabled s; isSosActive := isSosActive s;
     history := history s; currentDisplayMessage := v;
     lastProcessedText := lastProcessedText s; spoken := spoken s;
     created := created s |}.

Definition set_lastProcessedText (v : jsstring) (s : State) : State :=
  {| allowDuplicates := allowDuplicates s;
     isSpeakingEnabled := isSpeakingEnabled s; isSosActive := isSosActive s;
     history := history s; currentDisplayMessage := currentDisplayMessage s;
     lastProcessedText := v; spoken := spoken s; created := created s |}.

(** [speak(text)] of the speech service, with speech synthesis present. *)
Definition speak (t : jsstring) (s : State) : State :=
  {| allowDuplicates := allowDuplicates s;
     isSpeakingEnabled := isSpeakingEnabled s; isSosActive := isSosActive s;
     history := history s; currentDisplayMessage := currentDisplayMessage s;
     lastProcessedText := lastProcessedText s;
     spoken := if truthy t then spoken s ++ [t] else spoken s;
     created := created s |}.

Definition count_created (s : State) : State :=
  {| allowDuplicates := allowDuplicates s;
     isSpeakingEnabled := isSpeakingEnabled s; isSosActive := isSosActive s;
     history := history s; currentDisplayMessage := currentDisplayMessage s;
     lastProcessedText := lastProcessedText s; spoken := spoken s;
     created := S (created s) |}.

(** [arr.slice(0, n)]. *)
Definition slice0 {A : Type} (n : nat) (l : list A) : list A := firstn n l.
Arguments slice0 : simpl never.

(** The component when it mounts, with the settings it starts from. *)
Definition initial : State :=
  {| allowDuplicates := false; isSpeakingEnabled := true;
     isSosActive := false; history := []; currentDisplayMessage := None;
     lastProcessedText := []; spoken := []; created := 0 |}.

Section Router.

(** [crypto.randomUUID()] and [Date.now()] for the n-th message built. *)
Variable randomUUID : nat -> string.
Variable Date_now : nat -> Z.

Definition handleIncomingText (t : jsstring) (origin : Origin) (s : State)
  : State :=
  let s1 :=
    if strict_eq t SOS_TRIGGER && is_device origin
    then setIsSosActive true s else s in
  if is_device origin && negb (allowDuplicates s1)
     && strict_eq t (lastProcessedText s1)
  then s1
  else
    let newMessage :=
      {| id := randomUUID (created s1); text := t;
         timestamp := Date_now (created s1); origin := origin |} in
    let s2 := count_created s1 in
    let s3 := if is_device origin then set_lastProcessedText t s2 else s2 in
    let s4 := setCurrentDisplayMessage (Some newMessage) s3 in
    let s5 :=
      if isSpeakingEnabled s4 && is_device origin
         && negb (strict_eq t SOS_TRIGGER)
      then speak t s4 else s4 in
    setHistory (fun prev => slice0 30 (newMessage :: prev)) s5.

Definition handleClearHistory (s : State) : State :=
  setCurrentDisplayMessage None
    (set_lastProcessedText [] (setHistory (fun _ => []) s)).

(** The component after one Device-origin emergency trigger. *)
Definition after_one_trigger : State :=
  handleIncomingText SOS_TRIGGER device initial.

(** The design document's wording for the sentinel: with dedup enabled, a
    Device-origin sentinel always adds a flagged entry to the history. *)
Definition sentinel_always_recorded (s : State) : Prop :=
  allowDuplicates s = false ->
  exists m,
    text m = SOS_TRIGGER /\
    history (handleIncomingText SOS_TRIGGER device s)
    = slice0 30 (m :: history s).

(** *** Dedup, history and the emergency trigger *)

Lemma strict_eq_true (a b : jsstring) : strict_eq a b = true <-> a = b.
Proof. unfold strict_eq. apply bool_decide_eq_true. Qed.

Lemma strict_eq_false (a b : jsstring) : strict_eq a b = false <-> a <> b.
Proof. unfold strict_eq. apply bool_decide_eq_false. Qed.

(** The two ways an ingestion ends. *)
Lemma handleIncomingText_suppressed (t : jsstring) (s : State) :
  allowDuplicates s = false -> t = lastProcessedText s ->
  handleIncomingText t device s =
  if strict_eq t SOS_TRIGGER then setIsSosActive true s else s.
Proof.
  intros Hd Ht. unfold handleIncomingText. simpl.
  rewrite andb_true_r.
  destruct (strict_eq t SOS_TRIGGER); simpl; rewrite Hd; simpl;
    (replace (strict_eq t (lastProcessedText s)) with true
       by (symmetry; now apply strict_eq_true)); reflexivity.
Qed.

Lemma handleIncomingText_accepted (t : jsstring) (o : Origin) (s : State) :
  is_device o && negb (allowDuplicates s) && strict_eq t (lastProcessedText s)
    = false ->
  let m := {| id := randomUUID (created s); text := t;
              timestamp := Date_now (created s); origin := o |} in
  let s' := handleIncomingText t o s in
  history s' = slice0 30 (m :: history s) /\
  currentDisplayMessage s' = Some m /\
  created s' = S (created s) /\
  lastProcessedText s' = (if is_device o then t else lastProcessedText s) /\
  isSosActive s' =
    (if strict_eq t SOS_TRIGGER && is_device o then true else isSosActive s).
Proof.
  intros Hacc. cbv zeta. unfold handleIncomingText.
  destruct o; simpl in Hacc |- *;
    destruct (strict_eq t SOS_TRIGGER); simpl; rewrite ?Hacc; simpl;
    destruct (isSpeakingEnabled s); simpl; repeat split; reflexivity.
Qed.

(** C3. A Device-origin text that equals the stored dedup text, with
    dedup enabled, builds no message and leaves history, display and
    dedup text as they were. Every other ingestion builds a message with
    the text and origin given, shows it, puts it in front of the history
    and keeps the newest 30 entries. The dedup text changes only on
    Device-origin ingestion, and User-origin text is never suppressed. *)
Theorem handleIncomingText_dedup (t : jsstring) (o : Origin) (s : State) :
  let s' := handleIncomingText t o s in
  (o = device -> allowDuplicates s = false -> t = lastProcessedText s ->
     history s' = history s /\
     currentDisplayMessage s' = currentDisplayMessage s /\
     lastProcessedText s' = lastProcessedText s /\
     created s' = created s) /\
  (~ (o = device /\ allowDuplicates s = false /\ t = lastProcessedText s) ->
     exists m,
       text m = t /\ origin m = o /\
       history s' = firstn 30 (m :: history s) /\
       currentDisplayMessage s' = Some m /\
       created s' = S (created s) /\
       (length (history s') <= 30)%nat /\
       lastProcessedText s' = (if is_device o then t else lastProcessedText s)) /\
  (lastProcessedText s' <> lastProcessedText s -> o = device).
Proof.
  cbv zeta.
  destruct (is_device o && negb (allowDuplicates s)
            && strict_eq t (lastProcessedText s)) eqn:Hsup.
  - apply andb_true_iff in Hsup as [Hsup Heq].
    apply andb_true_iff in Hsup as [Ho Hd].
    apply strict_eq_true in Heq. apply negb_true_iff in Hd.
    destruct o; [|discriminate].
    rewrite (handleIncomingText_suppressed t s Hd Heq).
    split; [|split].
    + intros _ _ _. destruct (strict_eq t SOS_TRIGGER); repeat split; reflexivity.
    + intros Hno. exfalso. apply Hno. auto.
    + reflexivity.
  - destruct (handleIncomingText_accepted t o s Hsup) as (H1 & H2 & H3 & H4 & _).
    split; [|split].
    + intros -> Hd Heq. simpl in Hsup. rewrite Hd in Hsup. simpl in Hsup.
      apply strict_eq_false in Hsup. contradiction.
    + intros _.
      exists {| id := randomUUID (created s); text := t;
                timestamp := Date_now (created s); origin := o |}.
      split; [reflexivity|]. split; [reflexivity|].
      rewrite H1, H2, H3, H4. unfold slice0.
      repeat split; try reflexivity. rewrite length_firstn. lia.
    + intros Hch. rewrite H4 in Hch. destruct o; [reflexivity|].
      simpl in Hch. contradiction.
Qed.

(** C10. A Device-origin emergency trigger always leaves the alarm flag
    set. When it repeats the stored dedup text with dedup enabled, its
    message is suppressed (history and display stay as they were) and the
    flag is set all the same: the result is the state before with only
    the flag raised. *)
Theorem sos_alarm_before_dedup (s : State) :
  isSosActive (handleIncomingText SOS_TRIGGER device s) = true /\
  (allowDuplicates s = false -> lastProcessedText s = SOS_TRIGGER ->
     handleIncomingText SOS_TRIGGER device s = setIsSosActive true s /\
     history (handleIncomingText SOS_TRIGGER device s) = history s /\
     currentDisplayMessage (handleIncomingText SOS_TRIGGER device s)
       = currentDisplayMessage s).
Proof.
  assert (Hsos : strict_eq SOS_TRIGGER SOS_TRIGGER = true)
    by now apply strict_eq_true.
  split.
  - destruct (is_device device && negb (allowDuplicates s)
              && strict_eq SOS_TRIGGER (lastProcessedText s)) eqn:Hsup.
    + apply andb_true_iff in Hsup as [Hsup Heq].
      apply andb_true_iff in Hsup as [_ Hd].
      apply strict_eq_true in Heq. apply negb_true_iff in Hd.
      rewrite (handleIncomingText_suppressed _ s Hd Heq), Hsos. reflexivity.
    + destruct (handleIncomingText_accepted SOS_TRIGGER device s Hsup)
        as (_ & _ & _ & _ & H5).
      rewrite H5, Hsos. reflexivity.
  - intros Hd Heq.
    rewrite (handleIncomingText_suppressed _ s Hd (eq_sym Heq)), Hsos.
    repeat split; reflexivity.
Qed.

(** C2, as the code has it. With dedup enabled, a Device-origin emergency
    trigger adds a flagged entry in front of the history when the stored
    dedup text is another text, and leaves the history as it was when the
    stored dedup text is the trigger itself: a trigger that repeats the
    Device-origin text accepted just before is suppressed like any other
    repeat. *)
Theorem sentinel_recorded_unless_repeat (s : State) :
  allowDuplicates s = false ->
  let s' := handleIncomingText SOS_TRIGGER device s in
  (lastProcessedText s <> SOS_TRIGGER ->
     exists m,
       text m = SOS_TRIGGER /\ origin m = device /\
       history s' = firstn 30 (m :: history s)) /\
  (lastProcessedText s = SOS_TRIGGER -> history s' = history s).
Proof.
  intros Hd. cbv zeta. split.
  - intros Hne.
    destruct (handleIncomingText_accepted SOS_TRIGGER device s) as (H1 & _).
    { simpl. rewrite Hd. simpl. apply strict_eq_false. congruence. }
    exists {| id := randomUUID (created s); text := SOS_TRIGGER;
              timestamp := Date_now (created s); origin := device |}.
    split; [reflexivity|]. split; [reflexivity|exact H1].
  - intros Heq.
    rewrite (handleIncomingText_suppressed _ s Hd (eq_sym Heq)).
    destruct (strict_eq SOS_TRIGGER SOS_TRIGGER); reflexivity.
Qed.

(** [handleClearHistory] is the other writer of the dedup text: it empties
    the history and resets the dedup text, so that the next Device-origin
    line that is not empty is accepted whatever it is. *)
Lemma handleClearHistory_resets (s : State) :
  history (handleClearHistory s) = [] /\
  lastProcessedText (handleClearHistory s) = [] /\
  currentDisplayMessage (handleClearHistory s) = None /\
  forall t, t <> [] ->
    exists m, text m = t /\
      history (handleIncomingText t device (handleClearHistory s)) = [m].
Proof.
  repeat split; try reflexivity. intros t Hne.
  destruct (handleIncomingText_accepted t device (handleClearHistory s))
    as (H1 & _).
  { simpl. apply andb_false_iff. right. apply strict_eq_false. exact Hne. }
  eexists. split; [|exact H1]. reflexivity.
Qed.

End Router.

(** The design document's examples, with dedup enabled: "Hello" twice
    gives one message; "Hello", "World", "Hello" gives three. *)
Example dedup_examples :
  let ingest t := handleIncomingText (fun _ => "uuid"%string) Z.of_nat t device in
  map text (history (ingest (lit "Hello") (ingest (lit "Hello") initial)))
    = [lit "Hello"] /\
  map text
    (history
       (ingest (lit "Hello") (ingest (lit "World") (ingest (lit "Hello") initial))))
    = [lit "Hello"; lit "World"; lit "Hello"].
Proof. vm_compute. repeat split; reflexivity. Qed.

Lemma sentinel_recorded_unless_repeat_witness :
  allowDuplicates initial = false /\
  (exists m,
      text m = SOS_TRIGGER /\ origin m = device /\
      history (after_one_trigger (fun _ => "uuid"%string) Z.of_nat)
      = firstn 30 (m :: history initial)) /\
  history
    (handleIncomingText (fun _ => "uuid"%string) Z.of_nat SOS_TRIGGER device
       (after_one_trigger (fun _ => "uuid"%string) Z.of_nat))
  = history (after_one_trigger (fun _ => "uuid"%string) Z.of_nat).
Proof.
  split; [reflexivity|]. split.
  - apply (sentinel_recorded_unless_repeat (fun _ => "uuid"%string) Z.of_nat
             initial eq_refl).
    discriminate.
  - apply (sentinel_recorded_unless_repeat (fun _ => "uuid"%string) Z.of_nat
             (after_one_trigger (fun _ => "uuid"%string) Z.of_nat) eq_refl).
    reflexivity.
Defined.

(** C2 as worded fails on the second of two consecutive triggers: the
    history keeps its single entry. *)
Lemma sentinel_counterexample :
  ~ sentinel_always_recorded (fun _ => "uuid"%string) Z.of_nat
      (after_one_trigger (fun _ => "uuid"%string) Z.of_nat).
Proof.
  intros H. destruct (H eq_refl) as (m & _ & Hh).
  apply (f_equal (@length _)) in Hh. vm_compute in Hh. discriminate Hh.
Qed.

End App.

(* ===================================================================== *)
(** ** More about the framer of useSerial *)
(* ===================================================================== *)

Module SerialFacts.
Import JS Utf8 Serial.

(** The read that ends a stream. *)
Definition end_read : ReadResult := {| value := None; done := true |}.

(** What every line the framer publishes looks like: it comes from the
    device, is not empty, holds no newline and is its own trimming. *)
Definition wellformed_line (m : SerialMessage) : Prop :=
  origin m = device /\ text m <> [] /\ trim (text m) = text m /\
  Forall (fun c => c <> NEWLINE) (text m).

(** The pieces of a text between newlines, the last one being the text
    after the last newline. *)
Definition pieces (s : jsstring) : list jsstring :=
  terminated_segments s ++ [unterminated s].

(** [h'] has published what [h] had, then only well-formed lines. *)
Definition adds_lines (h h' : Hook) : Prop :=
  exists new, published h' = published h ++ new /\ Forall wellformed_line new.

(** A stream of [Serial] that is cut inside U+00E9, holds an empty and a
    blank line, and ends on the unterminated text " B ". *)
Definition example_reads : list ReadResult :=
  map chunk_read example_chunks ++ [chunk_read [x20]; end_read].

(** *** [trim] *)

Lemma trimStart_head (s : jsstring) (c : Z) (r : jsstring) :
  trimStart s = c :: r -> isWhiteSpace c = false.
Proof.
  induction s as [|x s IH]; simpl; [discriminate|].
  destruct (isWhiteSpace x) eqn:E; [exact IH|].
  intros [= <- <-]. exact E.
Qed.

Lemma trimStart_fixed (s : jsstring) :
  (forall c r, s = c :: r -> isWhiteSpace c = false) -> trimStart s = s.
Proof.
  destruct s as [|c r]; [reflexivity|]. intros H. simpl.
  now rewrite (H c r eq_refl).
Qed.

Lemma trimStart_keeps_last (l : jsstring) (c : Z) :
  isWhiteSpace c = false -> exists l', trimStart (l ++ [c]) = l' ++ [c].
Proof.
  intros Hc. induction l as [|x l IH]; simpl.
  - rewrite Hc. now exists [].
  - destruct (isWhiteSpace x); [exact IH|]. now exists (x :: l).
Qed.

Lemma trimStart_suffix (s : jsstring) :
  exists pre, s = pre ++ trimStart s.
Proof.
  induction s as [|x s [pre IH]]; simpl; [now exists []|].
  destruct (isWhiteSpace x); [|now exists []].
  exists (x :: pre). simpl. now rewrite <- IH.
Qed.

Lemma trim_infix (s : jsstring) : exists a b, s = a ++ trim s ++ b.
Proof.
  unfold trim, trimEnd.
  destruct (trimStart_suffix s) as [a Ha].
  destruct (trimStart_suffix (rev (trimStart s))) as [b Hb].
  exists a, (rev b).
  rewrite <- rev_app_distr, <- Hb, rev_involutive. exact Ha.
Qed.

Lemma trim_Forall (P : Z -> Prop) (s : jsstring) :
  Forall P s -> Forall P (trim s).
Proof.
  intros H. destruct (trim_infix s) as (a & b & E). rewrite E in H.
  apply Forall_app in H as [_ H]. now apply Forall_app in H as [H _].
Qed.

Lemma trim_head (s : jsstring) (c : Z) (r : jsstring) :
  trim s = c :: r -> isWhiteSpace c = false.
Proof.
  unfold trim, trimEnd. intros E.
  destruct (trimStart s) as [|d x] eqn:Ex; [discriminate|].
  pose proof (trimStart_head _ _ _ Ex) as Hd.
  assert (Hrev : rev (d :: x) = rev x ++ [d]) by reflexivity.
  rewrite Hrev in E.
  destruct (trimStart_keeps_last (rev x) d Hd) as [l' El].
  rewrite El, rev_app_distr in E. simpl in E. injection E as <- _. exact Hd.
Qed.

Lemma trim_last (s r : jsstring) (c : Z) :
  trim s = r ++ [c] -> isWhiteSpace c = false.
Proof.
  unfold trim, trimEnd. intros E.
  destruct (trimStart (rev (trimStart s))) as [|d y] eqn:Ey.
  - destruct r; discriminate.
  - pose proof (trimStart_head _ _ _ Ey) as Hd.
    assert (Hrev : rev (d :: y) = rev y ++ [d]) by reflexivity.
    rewrite Hrev in E. apply app_inj_tail in E as [_ <-]. exact Hd.
Qed.

(** Trimming twice is trimming once. *)
Lemma trim_idempotent (s : jsstring) : trim (trim s) = trim s.
Proof.
  unfold trim at 1.
  rewrite (trimStart_fixed (trim s)) by (intros c r; apply trim_head).
  unfold trimEnd.
  destruct (rev (trim s)) as [|c y] eqn:Er.
  - simpl. rewrite <- (rev_involutive (trim s)), Er. reflexivity.
  - assert (E : trim s = rev y ++ [c]).
    { rewrite <- (rev_involutive (trim s)), Er. reflexivity. }
    simpl. rewrite (trim_last _ _ _ E). simpl. symmetry. exact E.
Qed.

(** *** Runs of the read loop *)

Section Runs.

Variable randomUUID : nat -> string.
Variable Date_now : nat -> Z.

Local Abbreviation processLine := (processLine randomUUID Date_now).
Local Abbreviation drainLines := (drainLines randomUUID Date_now).
Local Abbreviation onValue := (onValue randomUUID Date_now).
Local Abbreviation readLoop_iteration := (readLoop_iteration randomUUID Date_now).
Local Abbreviation readLoop_inner := (readLoop_inner randomUUID Date_now).

Lemma adds_lines_refl (h : Hook) : adds_lines h h.
Proof. exists []. split; [now rewrite app_nil_r|constructor]. Qed.

Lemma adds_lines_trans (h1 h2 h3 : Hook) :
  adds_lines h1 h2 -> adds_lines h2 h3 -> adds_lines h1 h3.
Proof.
  intros (n1 & E1 & F1) (n2 & E2 & F2). exists (n1 ++ n2). split.
  - now rewrite E2, E1, app_assoc.
  - apply Forall_app. split; assumption.
Qed.

Lemma adds_lines_set_readBuffer (b : jsstring) (h h' : Hook) :
  adds_lines h h' -> adds_lines h (set_readBuffer b h').
Proof. exact (fun H => H). Qed.

Lemma processLine_adds (line : jsstring) (h : Hook) :
  trim line = line -> Forall (fun c => c <> NEWLINE) line ->
  adds_lines h (processLine line h).
Proof.
  intros Ht Hn. unfold Serial.processLine.
  destruct line as [|c l]; simpl; [apply adds_lines_refl|].
  eexists. split; [reflexivity|]. constructor; [|constructor].
  repeat split; simpl; [discriminate|exact Ht|exact Hn].
Qed.

Lemma drainLines_adds (h : Hook) : adds_lines h (drainLines h).
Proof.
  remember (length (readBuffer h)) as n eqn:Hn.
  revert h Hn. induction n as [n IH] using lt_wf_ind. intros h Hn.
  rewrite drainLines_loop. cbv zeta.
  destruct (Z.eqb_spec (indexOf (readBuffer h) NEWLINE) (-1)) as [_|Hfound];
    [apply adds_lines_refl|].
  destruct (indexOf_found _ _ Hfound) as (pre & post & Hbuf & Hpre & -> & ->).
  set (h1 := set_readBuffer post h).
  apply adds_lines_trans with (h2 := processLine (trim pre) h1).
  - apply (processLine_adds (trim pre) h1);
      [apply trim_idempotent|now apply trim_Forall].
  - apply (IH (length post)); [|now rewrite processLine_readBuffer].
    subst n. rewrite Hbuf, length_app. simpl. lia.
Qed.

Lemma drainLines_no_newline (h : Hook) :
  Forall (fun c => c <> NEWLINE) (readBuffer (drainLines h)).
Proof.
  destruct (drainLines_spec randomUUID Date_now h) as (_ & -> & _).
  apply split_lines_sound.
Qed.

Lemma onValue_adds (v : list byte) (h : Hook) :
  adds_lines h (onValue v h) /\
  Forall (fun c => c <> NEWLINE) (readBuffer (onValue v h)).
Proof.
  unfold Serial.onValue. destruct (decode (textDecoder h) v) as [td s].
  split; [|apply drainLines_no_newline].
  exact (drainLines_adds (set_textDecoder td (set_readBuffer (readBuffer h ++ s) h))).
Qed.

Lemma readLoop_iteration_adds (r : ReadResult) (h : Hook) :
  Forall (fun c => c <> NEWLINE) (readBuffer h) ->
  adds_lines h (readLoop_iteration r h).1 /\
  Forall (fun c => c <> NEWLINE) (readBuffer (readLoop_iteration r h).1).
Proof.
  intros Hinv. unfold Serial.readLoop_iteration.
  set (h1 := match value r with Some v => onValue v h | None => h end).
  assert (H1 : adds_lines h h1 /\ Forall (fun c => c <> NEWLINE) (readBuffer h1)).
  { unfold h1. destruct (value r) as [v|]; [apply onValue_adds|].
    split; [apply adds_lines_refl|exact Hinv]. }
  destruct H1 as [A1 N1]. cbv zeta.
  destruct (done r); [|now split].
  destruct (truthy (trim (readBuffer h1))); [|now split]. simpl.
  split; [|constructor].
  apply adds_lines_trans with (h2 := h1); [exact A1|].
  apply adds_lines_set_readBuffer, processLine_adds;
    [apply trim_idempotent|now apply trim_Forall].
Qed.

Lemma readLoop_inner_adds (rs : list ReadResult) (h : Hook) :
  Forall (fun c => c <> NEWLINE) (readBuffer h) ->
  adds_lines h (readLoop_inner rs h) /\
  Forall (fun c => c <> NEWLINE) (readBuffer (readLoop_inner rs h)).
Proof.
  revert h. induction rs as [|r rs IH]; intros h Hinv; simpl.
  - split; [apply adds_lines_refl|exact Hinv].
  - destruct (readLoop_iteration_adds r h Hinv) as [A N].
    destruct (readLoop_iteration r h) as [h1 brk]. simpl in A, N.
    destruct brk; [now split|].
    destruct (IH h1 N) as [A' N']. split; [|exact N'].
    now apply adds_lines_trans with (h2 := h1).
Qed.

(** Whatever the device sends and however the reads fall, every message
    the read loop publishes is a well-formed line: Device origin, not
    empty, no newline inside, no white space at either end. *)
Theorem framer_lines_wellformed (rs : list ReadResult) (h : Hook) :
  Forall (fun c => c <> NEWLINE) (readBuffer h) ->
  Forall wellformed_line (emitted_since h (readLoop_inner rs h)).
Proof.
  intros Hinv. destruct (readLoop_inner_adds rs h Hinv) as [(new & E & F) _].
  unfold emitted_since.
  rewrite E, skipn_app, skipn_all, Nat.sub_diag. exact F.
Qed.

(** After any number of reads the read buffer holds no newline: a line is
    published as soon as its newline has been decoded, and only the
    unterminated rest is kept. *)
Theorem framer_buffer_no_newline (rs : list ReadResult) (h : Hook) :
  Forall (fun c => c <> NEWLINE) (readBuffer h) ->
  Forall (fun c => c <> NEWLINE) (readBuffer (readLoop_inner rs h)).
Proof. intros Hinv. now apply readLoop_inner_adds. Qed.

(** *** A whole stream *)

Lemma readLoop_inner_chunks_then (chunks : list (list byte))
    (rs : list ReadResult) (h : Hook) :
  readLoop_inner (map chunk_read chunks ++ rs) h =
  readLoop_inner rs (readLoop_inner (map chunk_read chunks) h).
Proof.
  revert h. induction chunks as [|v chunks IH]; intros h; [reflexivity|].
  cbn [map app Serial.readLoop_inner].
  change (readLoop_iteration (chunk_read v) h) with (onValue v h, false).
  cbv iota. apply IH.
Qed.

Lemma auto_readLoop_inner_chunks_then (chunks : list (list byte))
    (rs : list ReadResult) (h : Hook) :
  SerialAuto.readLoop_inner randomUUID Date_now (map chunk_read chunks ++ rs) h =
  SerialAuto.readLoop_inner randomUUID Date_now rs
    (readLoop_inner (map chunk_read chunks) h).
Proof.
  revert h. induction chunks as [|v chunks IH]; intros h; [reflexivity|].
  cbn [map app SerialAuto.readLoop_inner Serial.readLoop_inner].
  change (SerialAuto.readLoop_iteration randomUUID Date_now (chunk_read v) h)
    with (onValue v h, false).
  change (readLoop_iteration (chunk_read v) h) with (onValue v h, false).
  cbv iota. apply IH.
Qed.

(** A stream that is read to its end, in hooks/useSerial.ts: the messages
    published are the pieces of the decoded text between newlines, the
    unterminated last piece included, each trimmed, without the empty
    ones; what the buffer is left with is blank. The cut into chunks
    does not matter. *)
Theorem stream_read_to_end (chunks : list (list byte)) (h : Hook) :
  readBuffer h = [] ->
  let decoded := snd (decode (textDecoder h) (concat chunks)) in
  let h' := readLoop_inner (map chunk_read chunks ++ [end_read]) h in
  map text (emitted_since h h')
    = List.filter truthy (map trim (pieces decoded)) /\
  trim (readBuffer h') = [].
Proof.
  intros Hbuf. cbv zeta. rewrite readLoop_inner_chunks_then.
  pose proof (readLoop_inner_chunks randomUUID Date_now chunks h) as H.
  rewrite Hbuf in H. specialize (H (List.Forall_nil _)).
  destruct (decode (textDecoder h) (concat chunks)) as [td s].
  cbv zeta in H. destruct H as (P & B & _). simpl in P, B |- *.
  set (h1 := readLoop_inner (map chunk_read chunks) h) in *.
  unfold pieces. rewrite map_app, List.filter_app. fold (lines_of s).
  unfold Serial.readLoop_iteration, end_read. simpl.
  destruct (trim (readBuffer h1)) as [|c l] eqn:Et; simpl.
  - split; [|exact Et].
    rewrite <- B, Et. simpl. rewrite app_nil_r.
    now apply emitted_since_texts.
  - split; [|reflexivity]. apply emitted_since_texts.
    unfold Serial.processLine. simpl.
    rewrite map_app, P, <- B, Et, <- app_assoc. reflexivity.
Qed.

(** The same stream in the auto-connecting revision: only the terminated
    pieces are published, and the unterminated rest stays in the buffer
    when the loop breaks. *)
Theorem auto_stream_read_to_end (chunks : list (list byte)) (h : Hook) :
  readBuffer h = [] ->
  let decoded := snd (decode (textDecoder h) (concat chunks)) in
  let h' :=
    SerialAuto.readLoop_inner randomUUID Date_now
      (map chunk_read chunks ++ [end_read]) h in
  map text (emitted_since h h') = lines_of decoded /\
  readBuffer h' = unterminated decoded.
Proof.
  intros Hbuf. cbv zeta. rewrite auto_readLoop_inner_chunks_then.
  pose proof (readLoop_inner_chunks randomUUID Date_now chunks h) as H.
  rewrite Hbuf in H. specialize (H (List.Forall_nil _)).
  destruct (decode (textDecoder h) (concat chunks)) as [td s].
  cbv zeta in H. destruct H as (P & B & _). simpl in P, B |- *.
  split; [now apply emitted_since_texts|exact B].
Qed.

End Runs.

Lemma framer_lines_wellformed_witness :
  Forall wellformed_line
    (emitted_since example_hook
       (readLoop_inner (fun _ => "uuid"%string) Z.of_nat example_reads
          example_hook)).
Proof.
  apply (framer_lines_wellformed (fun _ => "uuid"%string) Z.of_nat
           example_reads example_hook).
  constructor.
Defined.

Lemma framer_buffer_no_newline_witness :
  Forall (fun c => c <> NEWLINE)
    (readBuffer
       (readLoop_inner (fun _ => "uuid"%string) Z.of_nat
          (map chunk_read example_chunks) example_hook)).
Proof.
  apply (framer_buffer_no_newline (fun _ => "uuid"%string) Z.of_nat
           (map chunk_read example_chunks) example_hook).
  constructor.
Defined.

Lemma stream_read_to_end_witness :
  map text
    (emitted_since example_hook
       (readLoop_inner (fun _ => "uuid"%string) Z.of_nat
          (map chunk_read (example_chunks ++ [[x20]]) ++ [end_read])
          example_hook))
  = [lit "A"; [99; 97; 102; 233]; lit "B"].
Proof.
  exact (proj1 (stream_read_to_end (fun _ => "uuid"%string) Z.of_nat
                  (example_chunks ++ [[x20]]) example_hook eq_refl)).
Defined.

Lemma auto_stream_read_to_end_witness :
  map text
    (emitted_since example_hook
       (SerialAuto.readLoop_inner (fun _ => "uuid"%string) Z.of_nat
          (map chunk_read (example_chunks ++ [[x20]]) ++ [end_read])
          example_hook))
  = [lit "A"; [99; 97; 102; 233]] /\
  readBuffer
    (SerialAuto.readLoop_inner (fun _ => "uuid"%string) Z.of_nat
       (map chunk_read (example_chunks ++ [[x20]]) ++ [end_read])
       example_hook)
  = lit "B ".
Proof.
  exact (auto_stream_read_to_end (fun _ => "uuid"%string) Z.of_nat
           (example_chunks ++ [[x20]]) example_hook eq_refl).
Defined.

End SerialFacts.

(* ===================================================================== *)
(** ** More about the peer session of useRemote *)
(* ===================================================================== *)

Module RemoteFacts.
Import JS Remote.

(** What a client does on its own or on the user's request. *)
Inductive client_op :=
| op_tick (answer : connect_answer)
| op_connect (answer : connect_answer) (targetId : string).

Definition run_op (o : client_op) (s : Session) : Session :=
  match o with
  | op_tick answer => retryLoop_tick answer s
  | op_connect answer targetId => connectToPeer answer targetId s
  end.

Definition run_ops (ops : list client_op) (s : Session) : Session :=
  fold_left (fun s o => run_op o s) ops s.

(** A client connected to "1234" over the connection 0. *)
Definition connected_client : Session :=
  {| myId := "c1"%string; remoteId := "1234"%string;
     connectionStatus := connected;
     lastRemoteMessage := None; error := None; peerRef := Some 0%nat;
     connRef := Some 0%nat; targetIdRef := Some "1234"%string;
     mountedRef := true;
     peers := {[ 0%nat := {| peer_id := None; preferredId := None;
                             peer_disconnected := false;
                             peer_destroyed := false |} ]};
     conns := {[ 0%nat := {| conn_peer := "sg-v2-1234"%string;
                             conn_open := true;
                             wired := true; closed := false |} ]};
     calls := []; timers := []; retryLoop := Some RETRY_PERIOD |}.

(** *** One endpoint *)

Lemma initializePeer_sets_peerRef (preferred : option string) (s : Session) :
  peerRef (initializePeer preferred s) <> None.
Proof.
  unfold initializePeer. destruct (peerRef s) eqn:E; [congruence|].
  simpl. discriminate.
Qed.

(** [initializePeer] creates an endpoint only when none is referenced:
    called again, with whatever identity, it leaves the session as it is,
    so repeated calls never make a second endpoint. *)
Theorem initializePeer_once (a b : option string) (s : Session) :
  initializePeer b (initializePeer a s) = initializePeer a s /\
  (length (calls_since s (initializePeer b (initializePeer a s))) <= 1)%nat.
Proof.
  assert (E : initializePeer b (initializePeer a s) = initializePeer a s).
  { pose proof (initializePeer_sets_peerRef a s) as H.
    unfold initializePeer at 1.
    destruct (peerRef (initializePeer a s)); [reflexivity|contradiction]. }
  split; [exact E|]. rewrite E.
  destruct (peerRef s) as [p|] eqn:Hp.
  - unfold initializePeer. rewrite Hp, calls_since_refl. simpl. lia.
  - destruct (initializePeer_calls a s Hp) as (C & _).
    rewrite (calls_since_app _ _ _ C). simpl. lia.
Qed.

(** *** A connection requested before the endpoint exists *)

Lemma truthy_id_Some (t : string) : t <> ""%string -> truthy_id (Some t) = true.
Proof. intros H. simpl. now destruct (String.eqb_spec t ""). Qed.

(** What [connectToPeer] leaves behind on a client without endpoint. *)
Lemma connect_deferred_facts (answer : connect_answer) (target : string)
    (s : Session) :
  target <> ""%string -> peerRef s = None ->
  calls (connectToPeer answer target s)
    = calls s ++ [new_Peer (fresh (dom (peers s))) None] /\
  targetIdRef (connectToPeer answer target s) = Some target /\
  connectionStatus (connectToPeer answer target s) = connecting.
Proof.
  intros Ht Hp. unfold connectToPeer.
  rewrite (truthy_id_Some target Ht). cbn [negb].
  set (s0 := set_remoteId target
               (set_connectionStatus connecting
                  (set_targetIdRef (Some target) s))).
  assert (Hp0 : peerRef s0 = None) by exact Hp.
  rewrite Hp0. unfold initializePeer. rewrite Hp0. repeat split.
Qed.

(** [connectToPeer] on a client without endpoint creates the endpoint
    (with no fixed identity), remembers the target and shows
    'connecting'; no connection attempt is made yet. When the endpoint
    reports 'open' with the identity [id] it was given, [id] becomes
    [myId] and one attempt to [PREFIX ++ target] is issued. *)
Theorem connect_deferred_until_open
    (a0 answer : connect_answer) (target id : string) (s : Session) :
  target <> ""%string -> peerRef s = None -> mountedRef s = true ->
  let p := fresh (dom (peers s)) in
  let s1 := connectToPeer a0 target s in
  let s2 := onPeerOpen answer p id s1 in
  calls_since s s1 = [new_Peer p None] /\
  targetIdRef s1 = Some target /\ connectionStatus s1 = connecting /\
  myId s2 = id /\
  exists c,
    calls_since s1 s2 =
      match connRef s with Some old => [conn_close old] | None => [] end
      ++ [peer_connect p (PREFIX ++ target)%string]
      ++ match answer with gives_connection => [conn_on c] | _ => [] end.
Proof.
  intros Ht Hp Hm. cbv zeta.
  pose proof (truthy_id_Some target Ht) as Htr.
  unfold connectToPeer. rewrite Htr. cbn [negb].
  set (s0 := set_remoteId target
               (set_connectionStatus connecting
                  (set_targetIdRef (Some target) s))).
  assert (Hp0 : peerRef s0 = None) by exact Hp.
  rewrite Hp0.
  destruct (initializePeer_calls None s0 Hp0) as (C & R & P & _).
  change (peers s0) with (peers s) in *. change (calls s0) with (calls s) in C.
  simpl in C, P.
  set (s1 := initializePeer None s0) in *.
  assert (Ht1 : targetIdRef s1 = Some target).
  { unfold s1, initializePeer. rewrite Hp0. reflexivity. }
  assert (Hs1 : connectionStatus s1 = connecting).
  { unfold s1, initializePeer. rewrite Hp0. reflexivity. }
  assert (Hm1 : mountedRef s1 = true).
  { unfold s1, initializePeer. rewrite Hp0. exact Hm. }
  assert (Hc1 : connRef s1 = connRef s).
  { unfold s1, initializePeer. rewrite Hp0. reflexivity. }
  split; [now apply calls_since_app|]. split; [exact Ht1|]. split; [exact Hs1|].
  unfold onPeerOpen. rewrite Hm1, P. cbn [negb preferredId].
  change (truthy_id None) with false. cbv iota zeta.
  set (s1' := set_error None (set_myId id s1)).
  change (targetIdRef s1') with (targetIdRef s1). rewrite Ht1, Htr.
  destruct (attemptConnection_calls answer target s1' (fresh (dom (peers s))))
    as (c & Cc & _).
  { exact R. }
  { unfold peer_has. change (peers s1') with (peers s1). now rewrite P. }
  split.
  - unfold attemptConnection. change (peerRef s1') with (peerRef s1).
    rewrite R. unfold peer_has. change (peers s1') with (peers s1).
    rewrite P. cbn [peer_destroyed].
    destruct answer, (connRef s1'); reflexivity.
  - exists c. apply calls_since_app.
    change (calls s1') with (calls s1) in Cc.
    change (connRef s1') with (connRef s1) in Cc.
    rewrite Hc1 in Cc. exact Cc.
Qed.

Lemma connect_deferred_until_open_witness :
  let s1 := connectToPeer gives_nothing "1234" initial in
  let s2 := onPeerOpen gives_connection 0 "rnd" s1 in
  calls_since initial s1 = [new_Peer 0 None] /\
  myId s2 = "rnd"%string /\
  calls_since s1 s2 = [peer_connect 0 "sg-v2-1234"%string; conn_on 0].
Proof.
  pose proof (connect_deferred_until_open gives_nothing gives_connection
                "1234" "rnd" initial ltac:(discriminate) eq_refl eq_refl)
    as (H1 & _ & _ & H2 & _).
  split; [exact H1|]. split; [exact H2|]. vm_compute. reflexivity.
Defined.

(** *** The identity shown once a connection is open *)

Lemma substring_whole (t : string) : String.substring 0 (String.length t) t = t.
Proof. induction t as [|a t IH]; simpl; [reflexivity|now rewrite IH]. Qed.

(** Taking the first "sg-v2-" out of a prefixed identity gives the
    identity back. *)
Lemma replace_first_prefix (t : string) :
  replace_first PREFIX "" (PREFIX ++ t)%string = t.
Proof.
  unfold replace_first, PREFIX. cbv [String.append]. simpl.
  replace (String.prefix EmptyString t) with true
    by (destruct t; reflexivity).
  simpl. rewrite Nat.sub_0_r. apply substring_whole.
Qed.

(** An outbound connection to [target] that the library returns and then
    reports open makes the hook connected, with [remoteId] the target as
    the user gave it (the prefix added for the library is taken off
    again), and the next tick of the retry loop has nothing to do. *)
Theorem outbound_open_shows_target
    (answer : connect_answer) (target : string) (s : Session) (p : nat) :
  peerRef s = Some p -> peer_has peer_destroyed s p = false ->
  let s1 := attemptConnection gives_connection target s in
  exists c,
    connRef s1 = Some c /\
    let s2 := connection_opened c s1 in
    remoteId s2 = target /\ connectionStatus s2 = connected /\
    error s2 = None /\ isConnected s2 = true /\
    retryLoop_tick answer s2 = s2.
Proof.
  intros Hp Hd. cbv zeta.
  unfold attemptConnection. rewrite Hp, Hd. cbv zeta.
  set (s0 := log (peer_connect p (PREFIX ++ target))
               match connRef s with Some c => close c s | None => s end).
  set (c := fresh (dom (conns s0))).
  change (new_conn (PREFIX ++ target) s0) with
    (c, (new_conn (PREFIX ++ target) s0).2). cbv iota beta.
  exists c. split; [reflexivity|]. cbv zeta.
  assert (L : conns (setupConnectionHandlers c (new_conn (PREFIX ++ target) s0).2)
              !! c
              = Some {| conn_peer := (PREFIX ++ target)%string;
                        conn_open := false; wired := true; closed := false |}).
  { unfold setupConnectionHandlers, new_conn. simpl. fold c.
    now rewrite lookup_alter_eq, lookup_insert_eq. }
  set (s1 := setupConnectionHandlers c (new_conn (PREFIX ++ target) s0).2) in *.
  assert (R : connRef s1 = Some c) by reflexivity.
  clearbody s1.
  assert (Hopen : isConnected (connection_opened c s1) = true).
  { unfold isConnected, connection_opened, onConnOpen, conn_has. simpl.
    now rewrite R, lookup_alter_eq, L. }
  split; [|split; [reflexivity|split; [reflexivity|split; [exact Hopen|]]]].
  - unfold connection_opened, onConnOpen. simpl.
    rewrite lookup_alter_eq, L. simpl. apply replace_first_prefix.
  - apply retryLoop_tick_idle. now right; right.
Qed.

Lemma outbound_open_shows_target_witness :
  exists c,
    connRef (attemptConnection gives_connection "1234"
               (initializePeer None initial)) = Some c /\
    remoteId
      (connection_opened c
         (attemptConnection gives_connection "1234"
            (initializePeer None initial))) = "1234"%string.
Proof.
  destruct (outbound_open_shows_target gives_nothing "1234"
              (initializePeer None initial) 0 eq_refl eq_refl)
    as (c & H1 & H2 & _).
  exists c. split; [exact H1|exact H2].
Defined.

(** *** Repair *)

(** When a healthy client loses the connection it holds, the hook shows
    'disconnected' and drops the reference, so a send does nothing; the
    next tick of the retry loop makes exactly one call to [connect], to
    [PREFIX ++ target], with no [close] before it, and installs the
    handlers on the connection if the library returns one. *)
Theorem repair_after_loss
    (answer : connect_answer) (payload : jsstring) (target : string)
    (s : Session) (p c : nat) :
  mountedRef s = true -> targetIdRef s = Some target -> target <> ""%string ->
  peerRef s = Some p ->
  peer_has peer_disconnected s p = false ->
  peer_has peer_destroyed s p = false ->
  connRef s = Some c ->
  let s1 := connection_lost c s in
  let s2 := retryLoop_tick answer s1 in
  connectionStatus s1 = disconnected /\ connRef s1 = None /\
  sendData payload s1 = s1 /\
  exists c',
    calls_since s1 s2 =
      [peer_connect p (PREFIX ++ target)%string]
      ++ match answer with gives_connection => [conn_on c'] | _ => [] end /\
    connRef s2 = match answer with gives_connection => Some c' | _ => None end.
Proof.
  intros Hm Ht Hne Hp Hdis Hdes Hc. cbv zeta.
  set (s1 := connection_lost c s).
  assert (Hm1 : mountedRef s1 = true) by exact Hm.
  assert (Ht1 : targetIdRef s1 = Some target) by exact Ht.
  assert (Hp1 : peerRef s1 = Some p) by exact Hp.
  assert (Hdis1 : peer_has peer_disconnected s1 p = false) by exact Hdis.
  assert (Hdes1 : peer_has peer_destroyed s1 p = false) by exact Hdes.
  assert (Hc1 : connRef s1 = None) by reflexivity.
  assert (Hs1 : connectionStatus s1 = disconnected) by reflexivity.
  clearbody s1.
  split; [exact Hs1|]. split; [exact Hc1|].
  split; [unfold sendData; now rewrite Hc1|].
  unfold retryLoop_tick, isConnected.
  rewrite Hm1, Ht1, (truthy_id_Some target Hne), Hc1, Hp1, Hdis1, Hdes1.
  cbn [negb andb].
  destruct (attemptConnection_calls answer target s1 p Hp1 Hdes1) as (c' & C & R).
  rewrite Hc1 in C, R. exists c'. split; [now apply calls_since_app|exact R].
Qed.

Lemma repair_after_loss_witness :
  let s1 := connection_lost 0 connected_client in
  connectionStatus s1 = disconnected /\
  sendData (lit "Hello") s1 = s1 /\
  calls_since s1 (retryLoop_tick gives_connection s1)
  = [peer_connect 0 "sg-v2-1234"%string; conn_on 1].
Proof.
  pose proof (repair_after_loss gives_connection (lit "Hello") "1234"
                connected_client 0 0 eq_refl eq_refl ltac:(discriminate)
                eq_refl eq_refl eq_refl eq_refl) as (H1 & _ & H3 & _).
  split; [exact H1|]. split; [exact H3|]. vm_compute. reflexivity.
Defined.

(** *** A destroyed endpoint *)

Lemma run_op_destroyed (o : client_op) (s : Session) (p : nat) :
  peerRef s = Some p -> peer_has peer_destroyed s p = true ->
  peerRef (run_op o s) = Some p /\
  peer_has peer_destroyed (run_op o s) p = true /\
  calls (run_op o s) = calls s /\ connRef (run_op o s) = connRef s.
Proof.
  intros Hp Hd. destruct o as [answer|answer targetId]; simpl.
  - assert (E : retryLoop_tick answer s = s); [|now rewrite E].
    unfold retryLoop_tick. rewrite Hp, Hd. cbn [negb andb].
    rewrite andb_false_r.
    destruct (mountedRef s); [|reflexivity]. cbn [negb].
    destruct (targetIdRef s) as [t|]; [|reflexivity].
    destruct (truthy_id (Some t)); [|reflexivity].
    destruct (isConnected s); reflexivity.
  - unfold connectToPeer.
    destruct (truthy_id (Some targetId)); cbn [negb]; [|now repeat split].
    set (s0 := set_remoteId targetId
                 (set_connectionStatus connecting
                    (set_targetIdRef (Some targetId) s))).
    change (peerRef s0) with (peerRef s). rewrite Hp.
    change (peer_has peer_destroyed s0 p) with (peer_has peer_destroyed s p).
    rewrite Hd. cbn [negb].
    unfold initializePeer. change (peerRef s0) with (peerRef s). rewrite Hp.
    now repeat split.
Qed.

(** Once the endpoint a client references has been destroyed, neither the
    retry loop nor a new [connectToPeer] does anything about it: whatever
    the sequence of ticks and connection requests, no call reaches the
    library, no endpoint is created and no connection is attempted. *)
Theorem destroyed_endpoint_is_never_replaced
    (ops : list client_op) (s : Session) (p : nat) :
  peerRef s = Some p -> peer_has peer_destroyed s p = true ->
  calls (run_ops ops s) = calls s /\
  peerRef (run_ops ops s) = Some p /\
  connRef (run_ops ops s) = connRef s.
Proof.
  revert s. unfold run_ops.
  induction ops as [|o ops IH]; intros s Hp Hd; simpl; [now repeat split|].
  destruct (run_op_destroyed o s p Hp Hd) as (Hp' & Hd' & C & R).
  destruct (IH (run_op o s) Hp' Hd') as (C2 & P2 & R2).
  repeat split; congruence.
Qed.

Lemma destroyed_endpoint_is_never_replaced_witness :
  calls
    (run_ops [op_tick gives_connection; op_connect gives_connection "1234";
              op_tick gives_connection] client_with_destroyed_peer)
  = [] /\
  peerRef
    (run_ops [op_tick gives_connection; op_connect gives_connection "1234";
              op_tick gives_connection] client_with_destroyed_peer)
  = Some 0%nat.
Proof.
  pose proof (destroyed_endpoint_is_never_replaced
                [op_tick gives_connection; op_connect gives_connection "1234";
                 op_tick gives_connection] client_with_destroyed_peer 0
                eq_refl eq_refl) as (H1 & H2 & _).
  split; [exact H1|exact H2].
Defined.

(** A host that received a connection, then a second one, and sent a
    text: at most one connection is active. *)
Lemma host_reachable_invariant_witness :
  held_is_only_active
    (sendData (lit "Hello")
       (onPeerConnection "sg-v2-b" (onPeerConnection "sg-v2-a" initial))) /\
  at_most_one_active
    (sendData (lit "Hello")
       (onPeerConnection "sg-v2-b" (onPeerConnection "sg-v2-a" initial))).
Proof.
  apply host_reachable_invariant.
  eapply reach_step; [|apply host_send].
  eapply reach_step; [|apply host_inbound].
  eapply reach_step; [|apply host_inbound].
  apply reach_initial.
Defined.

End RemoteFacts.

(* ===================================================================== *)
(** ** More about the router of the App component *)
(* ===================================================================== *)

Module AppFacts.
Import JS Serial App.

(** What happens to the component: a text arrives, the user clears the
    history, toggles a setting, or dismisses the alarm. *)
Inductive event :=
| ingest (t : jsstring) (o : Origin)
| clear
| allow_duplicates (b : bool)
| speaking (b : bool)
| cancel_sos.

Definition setAllowDuplicates (v : bool) (s : State) : State :=
  {| allowDuplicates := v;
     isSpeakingEnabled := isSpeakingEnabled s; isSosActive := isSosActive s;
     history := history s; currentDisplayMessage := currentDisplayMessage s;
     lastProcessedText := lastProcessedText s; spoken := spoken s;
     created := created s |}.

Definition setIsSpeakingEnabled (v : bool) (s : State) : State :=
  {| allowDuplicates := allowDuplicates s;
     isSpeakingEnabled := v; isSosActive := isSosActive s;
     history := history s; currentDisplayMessage := currentDisplayMessage s;
     lastProcessedText := lastProcessedText s; spoken := spoken s;
     created := created s |}.

(** The Device-origin texts of a history, newest first. *)
Definition device_texts (l : list SerialMessage) : list jsstring :=
  map text (List.filter (fun m => is_device (origin m)) l).

(** No two neighbours are equal. *)
Fixpoint no_repeat (l : list jsstring) : Prop :=
  match l with
  | a :: r => match r with b :: _ => a <> b | [] => True end /\ no_repeat r
  | [] => True
  end.

(** With dedup on: the Device texts of the history do not repeat, and
    the newest of them is the stored dedup text. *)
Definition dedup_invariant (s : State) : Prop :=
  allowDuplicates s = false /\
  no_repeat (device_texts (history s)) /\
  match device_texts (history s) with
  | t :: _ => lastProcessedText s = t
  | [] => True
  end.

(** Is the event a Device-origin emergency trigger? *)
Definition is_trigger (e : jsstring * Origin) : bool :=
  strict_eq e.1 SOS_TRIGGER && is_device e.2.

Section Runs.

Variable randomUUID : nat -> string.
Variable Date_now : nat -> Z.

Definition step (e : event) (s : State) : State :=
  match e with
  | ingest t o => handleIncomingText randomUUID Date_now t o s
  | clear => handleClearHistory s
  | allow_duplicates b => setAllowDuplicates b s
  | speaking b => setIsSpeakingEnabled b s
  | cancel_sos => setIsSosActive false s
  end.

Definition run (evs : list event) (s : State) : State :=
  fold_left (fun s e => step e s) evs s.

Definition ingest_all (l : list (jsstring * Origin)) (s : State) : State :=
  run (map (fun e => ingest e.1 e.2) l) s.

(** *** The history is bounded *)

Lemma handleIncomingText_history (t : jsstring) (o : Origin) (s : State) :
  history (handleIncomingText randomUUID Date_now t o s) = history s \/
  exists m, text m = t /\ origin m = o /\
    history (handleIncomingText randomUUID Date_now t o s)
    = firstn 30 (m :: history s).
Proof.
  destruct (is_device o && negb (allowDuplicates s)
            && strict_eq t (lastProcessedText s)) eqn:Hsup.
  - left. apply andb_true_iff in Hsup as [Hsup Heq].
    apply andb_true_iff in Hsup as [Ho Hd].
    apply strict_eq_true in Heq. apply negb_true_iff in Hd.
    destruct o; [|discriminate].
    rewrite (handleIncomingText_suppressed _ _ t s Hd Heq).
    now destruct (strict_eq t SOS_TRIGGER).
  - right.
    destruct (handleIncomingText_accepted randomUUID Date_now t o s Hsup)
      as (H1 & _).
    eexists. split; [|split; [|exact H1]]; reflexivity.
Qed.

Lemma step_history_bound (e : event) (s : State) :
  (length (history s) <= 30)%nat -> (length (history (step e s)) <= 30)%nat.
Proof.
  intros Hb. destruct e as [t o| | | |]; simpl; try exact Hb; [|lia].
  destruct (handleIncomingText_history t o s) as [->|(m & _ & _ & ->)];
    [exact Hb|].
  rewrite length_firstn. lia.
Qed.

(** Whatever arrives and whatever the user does, the history never holds
    more than 30 messages. *)
Theorem history_never_exceeds_30 (evs : list event) :
  (length (history (run evs initial)) <= 30)%nat.
Proof.
  unfold run.
  cut (forall s, (length (history s) <= 30)%nat ->
                 (length (history (fold_left (fun s e => step e s) evs s)) <= 30)%nat).
  { intros H. apply H. simpl. lia. }
  induction evs as [|e evs IH]; intros s Hb; simpl; [exact Hb|].
  apply IH, step_history_bound, Hb.
Qed.

(** *** No Device text twice in a row *)

Lemma no_repeat_app_l (p r : list jsstring) : no_repeat (p ++ r) -> no_repeat p.
Proof.
  induction p as [|a p IH]; simpl; [trivial|].
  intros [H1 H2]. split; [|now apply IH].
  destruct p as [|b p]; [trivial|exact H1].
Qed.

Lemma device_texts_firstn (n : nat) (l : list SerialMessage) :
  exists rest, device_texts l = device_texts (firstn n l) ++ rest.
Proof.
  exists (device_texts (skipn n l)). unfold device_texts.
  now rewrite <- map_app, <- List.filter_app, firstn_skipn.
Qed.

Lemma dedup_invariant_prefix (s : State) (h : list SerialMessage)
    (rest : list jsstring) :
  allowDuplicates s = false ->
  no_repeat (device_texts h ++ rest) ->
  match device_texts h ++ rest with
  | t :: _ => lastProcessedText s = t
  | [] => True
  end ->
  no_repeat (device_texts h) /\
  match device_texts h with
  | t :: _ => lastProcessedText s = t
  | [] => True
  end.
Proof.
  intros _ Hn Hh. split; [now apply no_repeat_app_l in Hn|].
  destruct (device_texts h); [trivial|exact Hh].
Qed.

Lemma handleIncomingText_allowDuplicates (t : jsstring) (o : Origin)
    (s : State) :
  allowDuplicates (handleIncomingText randomUUID Date_now t o s)
  = allowDuplicates s.
Proof.
  unfold handleIncomingText.
  destruct o; simpl; destruct (strict_eq t SOS_TRIGGER); simpl;
    destruct (allowDuplicates s) eqn:Ha; simpl;
    destruct (strict_eq t (lastProcessedText s)); simpl;
    destruct (isSpeakingEnabled s); simpl; rewrite ?Ha; reflexivity.
Qed.

Lemma step_dedup_invariant (e : event) (s : State) :
  e <> allow_duplicates true ->
  dedup_invariant s -> dedup_invariant (step e s).
Proof.
  intros He (Hd & Hn & Hh).
  destruct e as [t o| |b| |]; simpl;
    [| now repeat split | | now repeat split | now repeat split].
  - destruct (is_device o && negb (allowDuplicates s)
              && strict_eq t (lastProcessedText s)) eqn:Hsup.
    + apply andb_true_iff in Hsup as [Hsup Heq].
      apply strict_eq_true in Heq. destruct o; [|discriminate].
      rewrite (handleIncomingText_suppressed _ _ t s Hd Heq).
      destruct (strict_eq t SOS_TRIGGER); now repeat split.
    + destruct (handleIncomingText_accepted randomUUID Date_now t o s Hsup)
        as (H1 & _ & _ & H4 & _).
      set (s' := handleIncomingText randomUUID Date_now t o s) in *.
      set (m := {| id := randomUUID (created s); text := t;
                   timestamp := Date_now (created s); origin := o |}) in *.
      assert (Hd' : allowDuplicates s' = false)
        by (unfold s'; now rewrite handleIncomingText_allowDuplicates).
      split; [exact Hd'|].
      unfold slice0 in H1. rewrite H1.
      destruct (device_texts_firstn 30 (m :: history s)) as [rest Hrest].
      assert (Hfull :
        no_repeat (device_texts (m :: history s)) /\
        match device_texts (m :: history s) with
        | t0 :: _ => lastProcessedText s' = t0
        | [] => True
        end).
      { unfold device_texts in *. simpl. rewrite H4.
        destruct o; simpl.
        - simpl in Hsup. rewrite Hd in Hsup. simpl in Hsup.
          apply strict_eq_false in Hsup.
          split; [|reflexivity]. split; [|exact Hn].
          destruct (map text (List.filter (fun m0 => is_device (origin m0))
                                (history s))); [trivial|congruence].
        - split; [exact Hn|exact Hh]. }
      rewrite Hrest in Hfull. destruct Hfull as [F1 F2].
      split; [now apply no_repeat_app_l in F1|].
      destruct (device_texts (firstn 30 (m :: history s))); [trivial|exact F2].
  - destruct b; [congruence|]. now repeat split.
Qed.

(** As long as dedup stays enabled, the history never shows the same
    Device text twice in a row, counting Device entries only: texts of
    User origin in between do not reset the comparison. *)
Theorem history_never_repeats_device_text (evs : list event) :
  Forall (fun e => e <> allow_duplicates true) evs ->
  no_repeat (device_texts (history (run evs initial))).
Proof.
  intros Hevs.
  cut (dedup_invariant (run evs initial)); [now intros (_ & H & _)|].
  unfold run.
  assert (H0 : dedup_invariant initial) by (repeat split).
  revert H0. generalize initial as s.
  induction Hevs as [|e evs He _ IH]; intros s Hs; simpl; [exact Hs|].
  apply IH, step_dedup_invariant; assumption.
Qed.

(** *** What is spoken, and what raises the alarm *)

Lemma step_spoken (e : event) (s : State) :
  spoken (step e s) = spoken s \/
  exists t, e = ingest t device /\ t <> SOS_TRIGGER /\ t <> [] /\
            isSpeakingEnabled s = true /\
            spoken (step e s) = spoken s ++ [t].
Proof.
  destruct e as [t o| | | |]; simpl; try (now left).
  unfold handleIncomingText.
  destruct o; simpl.
  - destruct (strict_eq t SOS_TRIGGER) eqn:Hsos; simpl.
    + left. destruct (negb (allowDuplicates s) && strict_eq t (lastProcessedText s));
        simpl; [reflexivity|]. now rewrite andb_false_r.
    + destruct (negb (allowDuplicates s) && strict_eq t (lastProcessedText s));
        simpl; [now left|].
      destruct (isSpeakingEnabled s) eqn:Hsp; simpl; [|now left].
      destruct t as [|c t]; simpl; [now left|]. right.
      exists (c :: t). apply strict_eq_false in Hsos.
      repeat split; [exact Hsos|discriminate].
  - left. destruct (strict_eq t SOS_TRIGGER); simpl;
      now rewrite andb_false_r.
Qed.

Lemma run_spoken (evs : list event) (s : State) :
  exists new,
    spoken (run evs s) = spoken s ++ new /\
    Forall (fun t => t <> SOS_TRIGGER /\ t <> [] /\ In (ingest t device) evs)
           new.
Proof.
  revert s. unfold run.
  induction evs as [|e evs IH]; intros s; simpl.
  - exists []. split; [now rewrite app_nil_r|constructor].
  - destruct (IH (step e s)) as (new & E & F).
    assert (F' : Forall (fun t => t <> SOS_TRIGGER /\ t <> [] /\
                                  (e = ingest t device \/ In (ingest t device) evs))
                        new).
    { eapply List.Forall_impl; [|exact F]. intros t (H1 & H2 & H3). auto. }
    destruct (step_spoken e s) as [Hs|(t & -> & H1 & H2 & _ & Hs)].
    + exists new. rewrite E, Hs. now split.
    + exists (t :: new). rewrite E, Hs, <- app_assoc. split; [reflexivity|].
      constructor; [|exact F']. auto.
Qed.

(** Whatever arrives: a text handed to [speak] is never the emergency
    trigger, is never empty, and is a text that arrived with Device
    origin; a text of User origin is never spoken. *)
Theorem spoken_only_device_texts (evs : list event) :
  Forall (fun t => t <> SOS_TRIGGER /\ t <> [] /\ In (ingest t device) evs)
         (spoken (run evs initial)).
Proof. destruct (run_spoken evs initial) as (new & -> & F). exact F. Qed.

Lemma handleIncomingText_alarm (t : jsstring) (o : Origin) (s : State) :
  isSosActive (handleIncomingText randomUUID Date_now t o s)
  = isSosActive s || is_trigger (t, o).
Proof.
  unfold is_trigger, handleIncomingText. cbn [fst snd].
  destruct o; simpl; destruct (strict_eq t SOS_TRIGGER); simpl;
    destruct (negb (allowDuplicates s) && strict_eq t (lastProcessedText s));
    simpl; destruct (isSpeakingEnabled s); simpl;
    rewrite ?orb_true_r, ?orb_false_r; reflexivity.
Qed.

(** Over any sequence of arriving texts the alarm ends up raised exactly
    when it was raised before or one of the texts was the emergency
    trigger with Device origin: no other text raises it, the trigger with
    User origin does not, a suppressed repeat of the trigger does, and no
    arrival lowers it. *)
Theorem alarm_raised_by_device_trigger_only
    (l : list (jsstring * Origin)) (s : State) :
  isSosActive (ingest_all l s) = isSosActive s || existsb is_trigger l.
Proof.
  revert s. unfold ingest_all, run.
  induction l as [|[t o] l IH]; intros s; simpl; [now rewrite orb_false_r|].
  rewrite IH, handleIncomingText_alarm. now rewrite orb_assoc.
Qed.

End Runs.

Lemma history_never_repeats_device_text_witness :
  no_repeat
    (device_texts
       (history
          (run (fun _ => "uuid"%string) Z.of_nat
             [ingest (lit "Hello") device; ingest (lit "hi") user;
              ingest (lit "Hello") device; ingest (lit "World") device]
             initial))).
Proof.
  apply (history_never_repeats_device_text (fun _ => "uuid"%string) Z.of_nat).
  repeat constructor; discriminate.
Defined.

End AppFacts.

(* ===================================================================== *)
(** ** The App component on launch: host or sender *)
(* ===================================================================== *)

Module Startup.
Import JS Remote.

(** The keys the page keeps in [localStorage]: the host's identity and
    the two SOS settings. *)
Definition STORAGE_KEY : string := "signspeak_my_id".
Definition SOS_CONTACT_KEY : string := "signspeak_sos_contact".
Definition SOS_MESSAGE_KEY : string := "signspeak_sos_message".

Definition DEFAULT_MESSAGE : string :=
  "EMERGENCY! I need immediate help. I am using my SignSpeak glove.".

(** The page on launch: [localStorage], the component's SOS settings,
    the peer session, and the component's [isSenderMode]. *)
Record Page := {
  localStorage : gmap string string;
  emergencyContact : string;
  emergencyMessage : string;
  session : Session;
  isSenderMode : bool
}.

(** [localStorage.getItem(key) || fallback]. *)
Definition getItem_or (st : gmap string string) (key fallback : string)
  : string :=
  match st !! key with
  | Some v => if truthy_id (Some v) then v else fallback
  | None => fallback
  end.

Definition setItem (key value : string) (pg : Page) : Page :=
  {| localStorage := <[key := value]> (localStorage pg);
     emergencyContact := emergencyContact pg;
     emergencyMessage := emergencyMessage pg;
     session := session pg; isSenderMode := isSenderMode pg |}.

(** A page that is loaded anew over the storage [st]: the first render,
    with the initial states read from the storage. *)
Definition fresh_page (st : gmap string string) : Page :=
  {| localStorage := st;
     emergencyContact := getItem_or st SOS_CONTACT_KEY "";
     emergencyMessage := getItem_or st SOS_MESSAGE_KEY DEFAULT_MESSAGE;
     session := initial; isSenderMode := false |}.

(** The two effects that persist the SOS settings; on mount they run
    before the initialization effect. *)
Definition persist_sos (pg : Page) : Page :=
  setItem SOS_MESSAGE_KEY (emergencyMessage pg)
    (setItem SOS_CONTACT_KEY (emergencyContact pg) pg).

(** The initialization effect. [target] is what [params.get('target')]
    gives; [generated] is the value of
    [Math.floor(1000 + Math.random() * 9000).toString()], which is
    evaluated only when no identity has been saved. *)
Definition initialization (answer : connect_answer) (target : option string)
    (generated : string) (pg : Page) : Page :=
  if truthy_id target then
    {| localStorage := localStorage pg;
       emergencyContact := emergencyContact pg;
       emergencyMessage := emergencyMessage pg;
       session := connectToPeer answer (default ""%string target) (session pg);
       isSenderMode := true |}
  else
    let savedId := localStorage pg !! STORAGE_KEY in
    if negb (truthy_id savedId) then
      {| localStorage := <[STORAGE_KEY := generated]> (localStorage pg);
         emergencyContact := emergencyContact pg;
         emergencyMessage := emergencyMessage pg;
         session := startHosting generated (session pg);
         isSenderMode := isSenderMode pg |}
    else
      {| localStorage := localStorage pg;
         emergencyContact := emergencyContact pg;
         emergencyMessage := emergencyMessage pg;
         session := startHosting (default ""%string savedId) (session pg);
         isSenderMode := isSenderMode pg |}.

(** The effects of the component that touch the storage or the peer
    session, as they run on mount. *)
Definition launch (answer : connect_answer) (target : option string)
    (generated : string) (pg : Page) : Page :=
  initialization answer target generated (persist_sos pg).

(** The identity a page has registered with the signaling server: the
    first argument of its [new Peer] call. *)
Definition registered (pg : Page) : list (option string) :=
  omap (fun c => match c with new_Peer _ id => Some id | _ => None end)
       (calls (session pg)).

(** The storage after the SOS settings of a fresh page have been
    written. *)
Definition with_sos (st : gmap string string) : gmap string string :=
  <[SOS_MESSAGE_KEY := getItem_or st SOS_MESSAGE_KEY DEFAULT_MESSAGE]>
    (<[SOS_CONTACT_KEY := getItem_or st SOS_CONTACT_KEY ""]> st).

(** *** The host identity is stable *)

Lemma startHosting_registered (id : string) :
  id <> ""%string ->
  omap (fun c => match c with new_Peer _ i => Some i | _ => None end)
       (calls (startHosting id initial))
  = [Some (PREFIX ++ id)%string].
Proof.
  intros Hid. unfold startHosting, initializePeer. simpl.
  destruct (String.eqb_spec id ""); [contradiction|reflexivity].
Qed.

Lemma with_sos_other (st : gmap string string) (k : string) :
  k <> SOS_CONTACT_KEY -> k <> SOS_MESSAGE_KEY -> with_sos st !! k = st !! k.
Proof.
  intros H1 H2. unfold with_sos.
  rewrite lookup_insert_ne by congruence.
  now rewrite lookup_insert_ne by congruence.
Qed.

Lemma with_sos_contact (st : gmap string string) :
  with_sos st !! SOS_CONTACT_KEY = Some (getItem_or st SOS_CONTACT_KEY "").
Proof.
  unfold with_sos. rewrite lookup_insert_ne by discriminate.
  apply lookup_insert_eq.
Qed.

Lemma with_sos_message (st : gmap string string) :
  with_sos st !! SOS_MESSAGE_KEY
  = Some (getItem_or st SOS_MESSAGE_KEY DEFAULT_MESSAGE).
Proof. unfold with_sos. apply lookup_insert_eq. Qed.

(** A setting read back from a storage that holds what was read from [st]
    is that same setting. *)
Lemma getItem_or_fixed (st m : gmap string string) (k d : string) :
  m !! k = Some (getItem_or st k d) -> getItem_or m k d = getItem_or st k d.
Proof.
  intros H. unfold getItem_or at 1. rewrite H.
  destruct (truthy_id (Some (getItem_or st k d))) eqn:E; [reflexivity|].
  unfold getItem_or in E |- *. destruct (st !! k) as [v|]; [|reflexivity].
  destruct (truthy_id (Some v)) eqn:F; [congruence|reflexivity].
Qed.

(** Writing the settings again, into a storage that holds them, changes
    nothing. *)
Lemma with_sos_fixed (st m : gmap string string) :
  m !! SOS_CONTACT_KEY = Some (getItem_or st SOS_CONTACT_KEY "") ->
  m !! SOS_MESSAGE_KEY = Some (getItem_or st SOS_MESSAGE_KEY DEFAULT_MESSAGE) ->
  with_sos m = m.
Proof.
  intros Hc Hm. unfold with_sos.
  rewrite (getItem_or_fixed st m _ _ Hc), (getItem_or_fixed st m _ _ Hm).
  rewrite (insert_id m _ _ Hc). apply insert_id, Hm.
Qed.

Lemma launch_host_saved (a : connect_answer) (g saved : string)
    (st : gmap string string) :
  st !! STORAGE_KEY = Some saved -> saved <> ""%string ->
  localStorage (launch a None g (fresh_page st)) = with_sos st /\
  session (launch a None g (fresh_page st)) = startHosting saved initial.
Proof.
  intros Hst Hne. unfold launch, initialization, persist_sos, setItem,
    fresh_page. cbn [truthy_id localStorage emergencyContact emergencyMessage
                     session isSenderMode].
  fold (with_sos st).
  rewrite (with_sos_other st STORAGE_KEY) by discriminate.
  rewrite Hst, (RemoteFacts.truthy_id_Some saved Hne). split; reflexivity.
Qed.

Lemma launch_host_new (a : connect_answer) (g : string)
    (st : gmap string string) :
  truthy_id (st !! STORAGE_KEY) = false ->
  localStorage (launch a None g (fresh_page st))
    = <[STORAGE_KEY := g]> (with_sos st) /\
  session (launch a None g (fresh_page st)) = startHosting g initial.
Proof.
  intros Hst. unfold launch, initialization, persist_sos, setItem,
    fresh_page. cbn [localStorage emergencyContact emergencyMessage
                     session isSenderMode].
  fold (with_sos st). change (truthy_id None) with false. cbv iota.
  rewrite (with_sos_other st STORAGE_KEY) by discriminate.
  rewrite Hst. split; reflexivity.
Qed.

(** A host that is launched, closed and launched again over the same
    storage registers under the same identity both times, whatever the
    random draws: the identity on storage when there is one, and
    otherwise the one generated at the first launch, which the first
    launch saves. *)
Theorem host_identity_persists
    (a1 a2 : connect_answer) (g1 g2 : string) (st : gmap string string) :
  g1 <> ""%string ->
  let pg1 := launch a1 None g1 (fresh_page st) in
  let pg2 := launch a2 None g2 (fresh_page (localStorage pg1)) in
  exists id,
    id <> ""%string /\
    localStorage pg1 !! STORAGE_KEY = Some id /\
    localStorage pg2 = localStorage pg1 /\
    registered pg1 = [Some (PREFIX ++ id)%string] /\
    registered pg2 = [Some (PREFIX ++ id)%string] /\
    (forall saved, st !! STORAGE_KEY = Some saved -> saved <> ""%string ->
       id = saved).
Proof.
  intros Hg. cbv zeta.
  destruct (truthy_id (st !! STORAGE_KEY)) eqn:Htr.
  - destruct (st !! STORAGE_KEY) as [saved|] eqn:Hst; [|discriminate].
    assert (Hne : saved <> ""%string).
    { intros ->. discriminate Htr. }
    destruct (launch_host_saved a1 g1 saved st Hst Hne) as [L1 S1].
    assert (Hst' : with_sos st !! STORAGE_KEY = Some saved).
    { rewrite with_sos_other by discriminate. exact Hst. }
    rewrite L1.
    destruct (launch_host_saved a2 g2 saved (with_sos st) Hst' Hne)
      as [L2 S2].
    exists saved. unfold registered. rewrite S1, S2, L2.
    rewrite startHosting_registered by exact Hne.
    split; [exact Hne|]. split; [exact Hst'|].
    split; [apply (with_sos_fixed st);
            [apply with_sos_contact|apply with_sos_message]|].
    split; [reflexivity|]. split; [reflexivity|].
    intros saved' E _. congruence.
  - destruct (launch_host_new a1 g1 st Htr) as [L1 S1]. rewrite L1.
    set (m := <[STORAGE_KEY := g1]> (with_sos st)).
    assert (Hm : m !! STORAGE_KEY = Some g1) by apply lookup_insert_eq.
    destruct (launch_host_saved a2 g2 g1 m Hm Hg) as [L2 S2].
    exists g1. unfold registered. rewrite S1, S2, L2.
    rewrite startHosting_registered by exact Hg.
    split; [exact Hg|]. split; [exact Hm|].
    split; [apply (with_sos_fixed st); unfold m;
            rewrite lookup_insert_ne by discriminate;
            [apply with_sos_contact|apply with_sos_message]|].
    split; [reflexivity|]. split; [reflexivity|].
    intros saved Hst Hne. rewrite Hst in Htr.
    rewrite (RemoteFacts.truthy_id_Some saved Hne) in Htr. discriminate.
Qed.

Lemma host_identity_persists_witness :
  registered (launch gives_nothing None "4821" (fresh_page ∅))
    = [Some "sg-v2-4821"%string] /\
  registered
    (launch gives_nothing None "7777"
       (fresh_page
          (localStorage (launch gives_nothing None "4821" (fresh_page ∅)))))
    = [Some "sg-v2-4821"%string].
Proof.
  destruct (host_identity_persists gives_nothing gives_nothing "4821" "7777"
              ∅ ltac:(discriminate)) as (id & _ & Hid & _ & H1 & H2 & _).
  assert (E : id = "4821"%string).
  { vm_compute in Hid. now injection Hid as <-. }
  subst id. split; [exact H1|exact H2].
Defined.

(** A page opened with a target in its address is a sender: of the
    storage it writes the two SOS settings only, so the host identity
    kept there is left alone; it registers under no identity of its own
    (its endpoint is created with none) and remembers the target for the
    retry loop. *)
Theorem sender_never_hosts
    (answer : connect_answer) (target g : string) (st : gmap string string) :
  target <> ""%string ->
  let pg := launch answer (Some target) g (fresh_page st) in
  (forall k, k <> SOS_CONTACT_KEY -> k <> SOS_MESSAGE_KEY ->
     localStorage pg !! k = st !! k) /\
  localStorage pg !! STORAGE_KEY = st !! STORAGE_KEY /\
  localStorage pg !! SOS_CONTACT_KEY = Some (emergencyContact pg) /\
  localStorage pg !! SOS_MESSAGE_KEY = Some (emergencyMessage pg) /\
  isSenderMode pg = true /\
  registered pg = [None] /\
  targetIdRef (session pg) = Some target /\
  connectionStatus (session pg) = connecting.
Proof.
  intros Ht. cbv zeta. unfold launch, initialization.
  rewrite (RemoteFacts.truthy_id_Some target Ht).
  destruct (RemoteFacts.connect_deferred_facts answer target initial Ht eq_refl)
    as (C & T & S).
  unfold registered, persist_sos, setItem, fresh_page.
  cbn [localStorage emergencyContact emergencyMessage isSenderMode session
       default].
  change (id target) with target. rewrite C. fold (with_sos st).
  split; [intros k H1 H2; now apply with_sos_other|].
  split; [apply with_sos_other; discriminate|].
  split; [apply with_sos_contact|]. split; [apply with_sos_message|].
  split; [reflexivity|]. split; [reflexivity|].
  split; assumption.
Qed.

Lemma sender_never_hosts_witness :
  registered (launch gives_nothing (Some "1234"%string) "4821"
                (fresh_page {[ STORAGE_KEY := "4821"%string ]}))
    = [None] /\
  localStorage (launch gives_nothing (Some "1234"%string) "4821"
                  (fresh_page {[ STORAGE_KEY := "4821"%string ]}))
    !! STORAGE_KEY = Some "4821"%string.
Proof.
  pose proof (sender_never_hosts gives_nothing "1234" "4821"
                {[ STORAGE_KEY := "4821"%string ]}
                ltac:(discriminate)) as (_ & H2 & _ & _ & _ & H6 & _).
  split; [exact H6|]. rewrite H2. apply lookup_singleton_eq.
Defined.

End Startup.

(* ===================================================================== *)
(** ** The sender's view, and a text on its way to the receiver *)
(* ===================================================================== *)

Module Sender.
Import JS Serial Remote.

(** The text of the SOS button. *)
Definition SOS_SIGNAL : jsstring := lit "!!SOS_TRIGGER!!".

(** The view's input field, and the session whose [sendData] the view
    receives as [onSend]. *)
Record View := {
  customText : jsstring;
  link : Session
}.

Definition handleCustomSend (v : View) : View :=
  if truthy (trim (customText v)) then
    {| customText := []; link := sendData (customText v) (link v) |}
  else v.

(** [confirmed] is the answer to the [confirm] dialog. *)
Definition handleSosTrigger (confirmed : bool) (v : View) : View :=
  if confirmed then
    {| customText := customText v; link := sendData SOS_SIGNAL (link v) |}
  else v.

(** The receiving page: its peer session and its router. *)
Record Receiver := {
  remote : Session;
  app : App.State
}.

Section Wire.

Variable randomUUID : nat -> string.
Variable Date_now : nat -> Z.

(** A payload arrives on the receiver's connection: the 'data' handler
    runs, and when it has stored a message the effect on
    [lastRemoteMessage] hands its text to the router with Device
    origin. *)
Definition on_data (data : option (option jsstring)) (r : Receiver)
  : Receiver :=
  let remote' := onConnData data (remote r) in
  let stored :=
    match data with Some (Some t) => truthy t | _ => false end in
  {| remote := remote';
     app :=
       if stored then
         match lastRemoteMessage remote' with
         | Some m =>
             App.handleIncomingText randomUUID Date_now (text m) device (app r)
         | None => app r
         end
       else app r |}.

(** The SOS button, from one page to the other. Confirmed on a sender
    whose connection is open, it makes one [send] of the trigger text and
    nothing else; declined, it makes no call. Whatever the state of the
    receiver, the arrival of that text raises the alarm there and hands
    nothing to the speech service. *)
Theorem sos_button_raises_remote_alarm (v : View) (c : nat) (r : Receiver) :
  connRef (link v) = Some c -> conn_has conn_open (link v) c = true ->
  calls_since (link v) (link (handleSosTrigger true v))
    = [conn_send c SOS_SIGNAL] /\
  handleSosTrigger false v = v /\
  let r' := on_data (Some (Some SOS_SIGNAL)) r in
  App.isSosActive (app r') = true /\
  App.spoken (app r') = App.spoken (app r) /\
  lastRemoteMessage (remote r') = Some {| text := App.SOS_TRIGGER |}.
Proof.
  intros Hc Ho. split; [|split; [reflexivity|]].
  - unfold handleSosTrigger, sendData. cbn [link]. rewrite Hc, Ho.
    now apply calls_since_app.
  - cbv zeta. unfold on_data, onConnData.
    change SOS_SIGNAL with App.SOS_TRIGGER.
    change (truthy App.SOS_TRIGGER) with true. cbv iota.
    cbn [app remote lastRemoteMessage set_lastRemoteMessage text].
    destruct (AppFacts.step_spoken randomUUID Date_now
                (AppFacts.ingest App.SOS_TRIGGER device) (app r))
      as [Hs|(t & [= <-] & Hne & _)]; [|congruence].
    simpl in Hs. rewrite Hs.
    rewrite (AppFacts.handleIncomingText_alarm randomUUID Date_now).
    unfold AppFacts.is_trigger. cbn [fst snd App.is_device].
    rewrite (proj2 (App.strict_eq_true _ _) eq_refl).
    now rewrite orb_true_r.
Qed.

(** The custom message field. A blank text is not sent and stays in the
    field. Any other text empties the field and is handed to [sendData]
    as typed, white space at its ends included: with an open connection
    that is one [send] of the text, and without one nothing is sent and
    the text is gone. *)
Theorem custom_text_sent_as_typed (v : View) :
  (trim (customText v) = [] -> handleCustomSend v = v) /\
  (trim (customText v) <> [] ->
     customText (handleCustomSend v) = [] /\
     (forall c, connRef (link v) = Some c ->
                conn_has conn_open (link v) c = true ->
        calls_since (link v) (link (handleCustomSend v))
          = [conn_send c (customText v)]) /\
     (isConnected (link v) = false ->
        link (handleCustomSend v) = link v)).
Proof.
  unfold handleCustomSend. split.
  - intros ->. reflexivity.
  - intros Hne. destruct (trim (customText v)) as [|x l]; [contradiction|].
    cbn [truthy customText link]. split; [reflexivity|]. split.
    + intros c Hc Ho. unfold sendData. rewrite Hc, Ho.
      now apply calls_since_app.
    + intros Hn. unfold sendData, isConnected in *.
      destruct (connRef (link v)); [now rewrite Hn|reflexivity].
Qed.

End Wire.

Lemma sos_button_raises_remote_alarm_witness :
  calls_since RemoteFacts.connected_client
    (link (handleSosTrigger true
             {| customText := []; link := RemoteFacts.connected_client |}))
  = [conn_send 0 SOS_SIGNAL] /\
  App.isSosActive
    (app (on_data (fun _ => "uuid"%string) Z.of_nat (Some (Some SOS_SIGNAL))
            {| remote := host_with_connection; app := App.initial |}))
  = true.
Proof.
  pose proof (sos_button_raises_remote_alarm (fun _ => "uuid"%string) Z.of_nat
                {| customText := []; link := RemoteFacts.connected_client |}
                0 {| remote := host_with_connection; app := App.initial |}
                eq_refl eq_refl) as (H1 & _ & H2 & _).
  split; [exact H1|exact H2].
Defined.

End Sender.

(* ===================================================================== *)
(** ** sw.js: the service worker *)
(* ===================================================================== *)

Module ServiceWorker.

Definition CACHE_NAME : string := "sign-glove-cache-v3".

Definition APP_SHELL_URLS : list string :=
  [ "/"; "/index.html"; "/index.tsx"; "/App.tsx"; "/hooks/useSerial.ts";
    "/services/speechService.ts"; "/components/icons.tsx"; "/icon.svg";
    "/manifest.json" ]%string.

Definition CDN_URLS : list string :=
  [ "https://cdn.tailwindcss.com"; "https://aistudiocdn.com/react@^19.2.0";
    "https://aistudiocdn.com/react-dom@^19.2.0/" ]%string.

(** A response, by its [ok] flag (a status in 200..299) and its content,
    and a cache, by the URL of the GET request it answers. *)
Record Response := {
  ok : bool;
  body : string
}.
Abbreviation Cache := (gmap string Response).

(** The caches of the origin by name, and the requests that went to the
    network, in order. *)
Record Worker := {
  caches : gmap string Cache;
  fetched : list string
}.

(** What [fetch(url)] resolves to; [None] when it does not. *)
Definition Network := string -> option Response.

(** How a 'fetch' event ends. *)
Inductive outcome :=
| not_handled              (* the handler returns: the browser takes over *)
| responds (r : Response)
| fails.

(** [caches.open(name)]: the cache is created when it does not exist. *)
Definition open_cache (name : string) (cs : gmap string Cache) : Cache :=
  default ∅ (cs !! name).

(** The responses to all of [urls], if every one arrives and is [ok]. *)
Fixpoint fetch_all (net : Network) (urls : list string)
  : option (list (string * Response)) :=
  match urls with
  | [] => Some []
  | u :: rest =>
      match net u, fetch_all net rest with
      | Some r, Some rs => if ok r then Some ((u, r) :: rs) else None
      | _, _ => None
      end
  end.

(** [cache.addAll(urls)]: every response is stored, or none is. *)
Definition addAll (net : Network) (urls : list string) (c : Cache) : Cache :=
  match fetch_all net urls with
  | Some rs => fold_left (fun c ur => <[ur.1 := ur.2]> c) rs c
  | None => c
  end.

(** The 'install' handler; a failure of either [addAll] is logged and
    leaves what the other has stored. *)
Definition install (net : Network) (w : Worker) : Worker :=
  let cache := open_cache CACHE_NAME (caches w) in
  let cache1 := addAll net APP_SHELL_URLS cache in
  let cache2 := addAll net CDN_URLS cache1 in
  {| caches := <[CACHE_NAME := cache2]> (caches w);
     fetched := fetched w ++ APP_SHELL_URLS ++ CDN_URLS |}.

(** [cacheWhitelist.indexOf(cacheName) === -1]. *)
Definition not_whitelisted (whitelist : list string) (name : string) : bool :=
  negb (existsb (String.eqb name) whitelist).

(** The 'activate' handler: every cache that [caches.keys()] lists and
    that is not on the whitelist is deleted. *)
Definition activate (w : Worker) : Worker :=
  let cacheWhitelist := [CACHE_NAME] in
  {| caches :=
       fold_left
         (fun cs cacheName =>
            if not_whitelisted cacheWhitelist cacheName
            then delete cacheName cs else cs)
         (map fst (map_to_list (caches w))) (caches w);
     fetched := fetched w |}.

(** The 'fetch' handler for a request with the given method and URL. *)
Definition onFetch (net : Network) (method url : string) (w : Worker)
  : Worker * outcome :=
  if negb (String.eqb method "GET") then (w, not_handled)
  else
    let cache := open_cache CACHE_NAME (caches w) in
    match cache !! url with
    | Some cachedResponse =>
        ({| caches := <[CACHE_NAME := cache]> (caches w);
            fetched := fetched w |}, responds cachedResponse)
    | None =>
        match net url with
        | Some networkResponse =>
            ({| caches :=
                  <[CACHE_NAME := <[url := networkResponse]> cache]> (caches w);
                fetched := fetched w ++ [url] |}, responds networkResponse)
        | None =>
            ({| caches := <[CACHE_NAME := cache]> (caches w);
                fetched := fetched w ++ [url] |}, fails)
        end
    end.

(** What the worker goes through after installation. *)
Inductive event :=
| ev_fetch (net : Network) (method url : string)
| ev_activate.

Definition handle (e : event) (w : Worker) : Worker :=
  match e with
  | ev_fetch net method url => (onFetch net method url w).1
  | ev_activate => activate w
  end.

Definition handle_all (evs : list event) (w : Worker) : Worker :=
  fold_left (fun w e => handle e w) evs w.

(** The response the current cache holds for [url], if any. *)
Definition cached (w : Worker) (url : string) : option Response :=
  open_cache CACHE_NAME (caches w) !! url.

(** A network that answers nothing. *)
Definition offline : Network := fun _ => None.

(** A network that serves every URL, and a worker that has no cache yet. *)
Definition example_network : Network :=
  fun u => Some {| ok := true; body := ("content of " ++ u)%string |}.

Definition new_worker : Worker := {| caches := ∅; fetched := [] |}.

(** *** Activation *)

Lemma activate_fold_keeps (l : list string) (cs : gmap string Cache)
    (n : string) :
  not_whitelisted [CACHE_NAME] n = false ->
  fold_left
    (fun cs cacheName =>
       if not_whitelisted [CACHE_NAME] cacheName
       then delete cacheName cs else cs) l cs !! n
  = cs !! n.
Proof.
  intros Hn. revert cs. induction l as [|a l IH]; intros cs; simpl;
    [reflexivity|].
  rewrite IH. destruct (not_whitelisted [CACHE_NAME] a) eqn:Ha; [|reflexivity].
  apply lookup_delete_ne. congruence.
Qed.

Lemma activate_fold_gone (l : list string) (cs : gmap string Cache)
    (n : string) :
  not_whitelisted [CACHE_NAME] n = true ->
  In n l \/ cs !! n = None ->
  fold_left
    (fun cs cacheName =>
       if not_whitelisted [CACHE_NAME] cacheName
       then delete cacheName cs else cs) l cs !! n
  = None.
Proof.
  intros Hn. revert cs. induction l as [|a l IH]; intros cs H; simpl.
  - destruct H as [[]|H]. exact H.
  - apply IH. destruct H as [[->|H]|H].
    + right. rewrite Hn. apply lookup_delete_eq.
    + now left.
    + right. destruct (not_whitelisted [CACHE_NAME] a); [|exact H].
      rewrite lookup_delete_None. now right.
Qed.

Lemma activate_lookup (w : Worker) (name : string) :
  caches (activate w) !! name =
  if String.eqb name CACHE_NAME then caches w !! name else None.
Proof.
  unfold activate. cbn [caches].
  destruct (String.eqb name CACHE_NAME) eqn:E.
  - apply activate_fold_keeps. unfold not_whitelisted. simpl. now rewrite E.
  - apply activate_fold_gone; [unfold not_whitelisted; simpl; now rewrite E|].
    destruct (caches w !! name) as [c|] eqn:L; [left|now right].
    apply elem_of_map_to_list in L.
    apply list_elem_of_In. apply list_elem_of_fmap. now exists (name, c).
Qed.

(** After activation the current cache answers every URL as before, no
    cache of another name is left, and nothing went to the network. *)
Theorem activate_keeps_only_current_cache (w : Worker) :
  (forall url, cached (activate w) url = cached w url) /\
  (forall name, name <> CACHE_NAME -> caches (activate w) !! name = None) /\
  fetched (activate w) = fetched w.
Proof.
  split; [|split; [|reflexivity]].
  - intros url. unfold cached, open_cache.
    now rewrite activate_lookup, String.eqb_refl.
  - intros name Hne. rewrite activate_lookup.
    destruct (String.eqb name CACHE_NAME) eqn:E; [|reflexivity].
    now apply String.eqb_eq in E.
Qed.

(** *** Requests *)

Lemma open_cache_insert (c : Cache) (cs : gmap string Cache) :
  open_cache CACHE_NAME (<[CACHE_NAME := c]> cs) = c.
Proof. unfold open_cache. now rewrite lookup_insert_eq. Qed.

Lemma handle_keeps_cached (e : event) (w : Worker) (url : string)
    (r : Response) :
  cached w url = Some r -> cached (handle e w) url = Some r.
Proof.
  unfold cached. intros H. destruct e as [net method u|]; cbn [handle].
  - unfold onFetch. destruct (negb (String.eqb method "GET")); [exact H|].
    cbv zeta.
    destruct (open_cache CACHE_NAME (caches w) !! u) as [r'|] eqn:Hu;
      cbn [fst caches].
    + now rewrite open_cache_insert.
    + destruct (net u) as [r'|]; cbn [fst caches]; rewrite open_cache_insert;
        [|exact H].
      rewrite lookup_insert_ne; [exact H|]. intros ->. congruence.
  - unfold open_cache in *.
    rewrite (activate_lookup w CACHE_NAME).
    now rewrite String.eqb_refl.
Qed.

(** A GET request that misses the cache and is answered by the network is
    answered with the network's response, which is stored; asked again
    with the network gone, it gets the same response from the cache and
    no request goes out. *)
Theorem fetched_once_then_served_offline
    (net : Network) (url : string) (r : Response) (w : Worker) :
  cached w url = None -> net url = Some r ->
  let w1 := (onFetch net "GET" url w).1 in
  (onFetch net "GET" url w).2 = responds r /\
  fetched w1 = fetched w ++ [url] /\
  cached w1 url = Some r /\
  (onFetch offline "GET" url w1).2 = responds r /\
  fetched (onFetch offline "GET" url w1).1 = fetched w1.
Proof.
  unfold cached. intros Hmiss Hnet. cbv zeta.
  assert (E : onFetch net "GET" url w =
              ({| caches :=
                    <[CACHE_NAME := <[url := r]> (open_cache CACHE_NAME (caches w))]>
                      (caches w);
                  fetched := fetched w ++ [url] |}, responds r)).
  { unfold onFetch. simpl negb. now rewrite Hmiss, Hnet. }
  rewrite E. cbn [fst snd fetched caches].
  split; [reflexivity|]. split; [reflexivity|].
  rewrite open_cache_insert, lookup_insert_eq.
  split; [reflexivity|]. unfold onFetch. simpl negb. cbn [caches].
  rewrite open_cache_insert, lookup_insert_eq. now split.
Qed.

Lemma fetched_once_then_served_offline_witness :
  let r := {| ok := true; body := "content of /icon.svg"%string |} in
  let w1 := (onFetch example_network "GET"%string "/icon.svg"%string new_worker).1 in
  (onFetch example_network "GET"%string "/icon.svg"%string new_worker).2 = responds r /\
  fetched w1 = fetched new_worker ++ ["/icon.svg"%string] /\
  cached w1 "/icon.svg"%string = Some r /\
  (onFetch offline "GET"%string "/icon.svg"%string w1).2 = responds r /\
  fetched (onFetch offline "GET"%string "/icon.svg"%string w1).1 = fetched w1.
Proof.
  apply (fetched_once_then_served_offline example_network "/icon.svg"%string
           {| ok := true; body := "content of /icon.svg"%string |} new_worker);
    reflexivity.
Defined.

(** A response that the current cache holds is never replaced by the
    handling of requests and activations: whatever requests follow, over
    whatever network, the cache keeps answering that URL with the same
    response and sends nothing to the network for it. *)
Theorem cached_response_is_never_refreshed
    (evs : list event) (net : Network) (url : string) (r : Response)
    (w : Worker) :
  cached w url = Some r ->
  let w' := handle_all evs w in
  cached w' url = Some r /\
  (onFetch net "GET" url w').2 = responds r /\
  fetched (onFetch net "GET" url w').1 = fetched w'.
Proof.
  intros H. cbv zeta.
  assert (Hc : cached (handle_all evs w) url = Some r).
  { revert w H. unfold handle_all.
    induction evs as [|e evs IH]; intros w H; simpl; [exact H|].
    apply IH, handle_keeps_cached, H. }
  split; [exact Hc|]. unfold cached in Hc. unfold onFetch. simpl negb.
  rewrite Hc. now split.
Qed.

Lemma cached_response_is_never_refreshed_witness :
  let r := {| ok := false; body := "old"%string |} in
  let w := {| caches := {[ CACHE_NAME := {[ "/data"%string := r ]} ]};
              fetched := [] |} in
  let w' := handle_all [ev_fetch example_network "GET"%string "/data"%string; ev_activate;
                        ev_fetch example_network "GET"%string "/other"%string] w in
  cached w' "/data"%string = Some r /\
  (onFetch example_network "GET"%string "/data"%string w').2 = responds r /\
  fetched (onFetch example_network "GET"%string "/data"%string w').1 = fetched w'.
Proof.
  apply (cached_response_is_never_refreshed
           [ev_fetch example_network "GET"%string "/data"%string; ev_activate;
            ev_fetch example_network "GET"%string "/other"%string]
           example_network "/data"%string {| ok := false; body := "old"%string |}
           {| caches :=
                {[ CACHE_NAME := {[ "/data"%string :=
                                      {| ok := false; body := "old"%string |} ]} ]};
              fetched := [] |}).
  unfold cached, open_cache. cbn [caches].
  rewrite lookup_singleton_eq. cbn [default]. apply lookup_singleton_eq.
Defined.

(** *** Installation *)

Lemma fetch_all_sound (net : Network) (urls : list string)
    (rs : list (string * Response)) :
  fetch_all net urls = Some rs ->
  map fst rs = urls /\ Forall (fun ur => net ur.1 = Some ur.2) rs.
Proof.
  revert rs. induction urls as [|u urls IH]; intros rs; simpl.
  - intros [= <-]. split; [reflexivity|constructor].
  - destruct (net u) as [r|] eqn:Hu; [|discriminate].
    destruct (fetch_all net urls) as [rs'|]; [|discriminate].
    destruct (ok r); [|discriminate].
    intros [= <-]. destruct (IH rs' eq_refl) as [E F]. simpl.
    split; [now rewrite E|]. now constructor.
Qed.

Lemma fetch_all_complete (net : Network) (urls : list string) :
  (forall u, In u urls -> exists r, net u = Some r /\ ok r = true) ->
  exists rs, fetch_all net urls = Some rs.
Proof.
  induction urls as [|u urls IH]; intros H; simpl; [now eexists|].
  destruct (H u (or_introl eq_refl)) as (r & -> & ->).
  destruct IH as [rs ->]; [intros v Hv; apply H; now right|]. now eexists.
Qed.

Lemma store_all_agrees (net : Network) (rs : list (string * Response))
    (c : Cache) (u : string) :
  Forall (fun ur => net ur.1 = Some ur.2) rs ->
  In u (map fst rs) \/ c !! u = net u ->
  fold_left (fun c ur => <[ur.1 := ur.2]> c) rs c !! u = net u.
Proof.
  intros F. revert c. induction F as [|[u' r'] rs Hur _ IH]; intros c H; simpl.
  - destruct H as [[]|H]. exact H.
  - simpl in Hur. apply IH. destruct H as [[<-|H]|H].
    + right. simpl. now rewrite lookup_insert_eq.
    + now left.
    + right. simpl. destruct (decide (u' = u)) as [<-|Hne].
      * now rewrite lookup_insert_eq.
      * now rewrite lookup_insert_ne.
Qed.

Lemma addAll_agrees (net : Network) (urls : list string) (c : Cache)
    (u : string) :
  c !! u = net u -> addAll net urls c !! u = net u.
Proof.
  intros H. unfold addAll.
  destruct (fetch_all net urls) as [rs|] eqn:E; [|exact H].
  apply store_all_agrees; [apply (fetch_all_sound _ _ _ E)|now right].
Qed.

(** When the network serves every file of the app shell with an ok
    response at installation, each of them is in the current cache
    afterwards (whether or not the CDN files could be fetched), so a GET
    request for it is answered with that response even when the network
    is gone. *)
Theorem installed_shell_is_served_offline
    (net : Network) (w : Worker) (u : string) :
  (forall v, In v APP_SHELL_URLS -> exists r, net v = Some r /\ ok r = true) ->
  In u APP_SHELL_URLS ->
  exists r,
    net u = Some r /\ cached (install net w) u = Some r /\
    (onFetch offline "GET" u (install net w)).2 = responds r.
Proof.
  intros Hall Hu.
  destruct (Hall u Hu) as (r & Hr & _).
  exists r. split; [exact Hr|].
  assert (Hc : cached (install net w) u = Some r).
  { unfold cached, install. cbn [caches]. rewrite open_cache_insert.
    rewrite <- Hr. apply addAll_agrees. unfold addAll.
    destruct (fetch_all_complete net APP_SHELL_URLS Hall) as [rs E].
    rewrite E. destruct (fetch_all_sound _ _ _ E) as [Hfst F].
    apply store_all_agrees; [exact F|]. left. now rewrite Hfst. }
  split; [exact Hc|]. unfold cached in Hc. unfold onFetch. simpl negb.
  now rewrite Hc.
Qed.

Lemma installed_shell_is_served_offline_witness :
  exists r,
    example_network "/index.html"%string = Some r /\
    cached (install example_network new_worker) "/index.html"%string = Some r /\
    (onFetch offline "GET"%string "/index.html"%string
       (install example_network new_worker)).2 = responds r.
Proof.
  apply (installed_shell_is_served_offline example_network new_worker
           "/index.html"%string).
  - intros v _. eexists. split; reflexivity.
  - simpl. tauto.
Defined.

End ServiceWorker.

(* ===================================================================== *)
(** ** The speech service *)
(* ===================================================================== *)

Module Speech.
Import JS.

(** A [SpeechSynthesisVoice], by the two properties the service reads. *)
Record Voice := {
  name : string;
  lang : string
}.

(** A [SpeechSynthesisUtterance]; [rate] and [pitch] are the whole
    numbers the service assigns, [voice] is [None] for the default. *)
Record Utterance := {
  utt_text : jsstring;
  utt_lang : string;
  rate : Z;
  pitch : Z;
  voice : option Voice
}.

(** Calls made on [window.speechSynthesis], in order. *)
Inductive call :=
| cancel
| speak_call (u : Utterance).

(** The module's state: whether speech synthesis is present, the module
    variable [voices], what [getVoices()] returns at present, and the
    calls made. *)
Record Service := {
  supported : bool;
  voices : list Voice;
  available : list Voice;
  calls : list call
}.

(** [s.includes(pat)]. *)
Definition includes (pat s : string) : bool :=
  match String.index 0 pat s with Some _ => true | None => false end.

(** [s.startsWith(pat)]. *)
Definition startsWith (pat s : string) : bool := String.prefix pat s.

Definition is_google (v : Voice) : bool := includes "Google US English" (name v).
Definition is_en_US (v : Voice) : bool := String.eqb (lang v) "en-US".
Definition is_english (v : Voice) : bool := startsWith "en" (lang v).

(** [a || b] on values that are an object or [undefined]. *)
Definition or_else {A : Type} (a b : option A) : option A :=
  match a with Some _ => a | None => b end.

(** The voice [speak] prefers among [vs]. *)
Definition preferredVoice (vs : list Voice) : option Voice :=
  or_else (List.find is_google vs)
    (or_else (List.find is_en_US vs) (List.find is_english vs)).

Definition loadVoices (s : Service) : Service :=
  if supported s then
    {| supported := supported s; voices := available s;
       available := available s; calls := calls s |}
  else s.

Definition log (c : call) (s : Service) : Service :=
  {| supported := supported s; voices := voices s;
     available := available s; calls := calls s ++ [c] |}.

(** [speak] of the service that selects a voice. *)
Definition speak (t : jsstring) (s : Service) : Service :=
  if supported s && truthy t then
    let s1 := log cancel s in
    let s2 := match voices s1 with [] => loadVoices s1 | _ :: _ => s1 end in
    let chosen :=
      match voices s2 with
      | [] => None
      | _ :: _ => preferredVoice (voices s2)
      end in
    log (speak_call {| utt_text := t; utt_lang := "en-US"; rate := 1;
                       pitch := 1; voice := chosen |}) s2
  else s.

(** [speak] of services/speechService.ts, which leaves the voice alone. *)
Definition speak_plain (t : jsstring) (s : Service) : Service :=
  if supported s && truthy t then
    log (speak_call {| utt_text := t; utt_lang := "en-US"; rate := 1;
                       pitch := 1; voice := None |})
        (log cancel s)
  else s.

Definition speak_all (ts : list jsstring) (s : Service) : Service :=
  fold_left (fun s t => speak t s) ts s.

(** What a call says aloud, if anything. *)
Definition said (c : call) : option jsstring :=
  match c with cancel => None | speak_call u => Some (utt_text u) end.

(** *** Which voice *)

Lemma is_en_US_english (v : Voice) : is_en_US v = true -> is_english v = true.
Proof.
  unfold is_en_US, is_english, startsWith. intros H.
  apply String.eqb_eq in H. now rewrite H.
Qed.

(** The voice chosen is one of the list and is English or Google's US
    English; a Google US English voice is taken when there is one, else
    an en-US voice when there is one, else any English voice; and only
    when the list has none of these is the default voice left in place. *)
Theorem preferred_voice_priority (vs : list Voice) :
  (forall v, preferredVoice vs = Some v ->
     In v vs /\ (is_google v = true \/ is_english v = true)) /\
  (forall g, In g vs -> is_google g = true ->
     exists v, preferredVoice vs = Some v /\ is_google v = true) /\
  (forall u, In u vs -> is_en_US u = true ->
     exists v, preferredVoice vs = Some v /\
               (is_google v = true \/ is_en_US v = true)) /\
  (preferredVoice vs = None <->
     forall v, In v vs -> is_google v = false /\ is_english v = false).
Proof.
  unfold preferredVoice, or_else.
  destruct (List.find is_google vs) as [g|] eqn:Hg.
  - apply List.find_some in Hg as [Hin Hg].
    split; [intros v [= <-]; auto|]. split; [eauto|]. split; [eauto|].
    split; [discriminate|]. intros H. destruct (H g Hin) as [H1 _]. congruence.
  - pose proof (List.find_none _ _ Hg) as Ng.
    destruct (List.find is_en_US vs) as [u|] eqn:Hu.
    + apply List.find_some in Hu as [Hin Hu].
      split; [intros v [= <-]; split; [exact Hin|right; now apply is_en_US_english]|].
      split; [intros g Hg1 Hg2; rewrite (Ng g Hg1) in Hg2; discriminate|].
      split; [eauto|].
      split; [discriminate|]. intros H. destruct (H u Hin) as [_ H2].
      rewrite (is_en_US_english u Hu) in H2. discriminate.
    + pose proof (List.find_none _ _ Hu) as Nu.
      destruct (List.find is_english vs) as [e|] eqn:He.
      * apply List.find_some in He as [Hin He].
        split; [intros v [= <-]; auto|].
        split; [intros g Hg1 Hg2; rewrite (Ng g Hg1) in Hg2; discriminate|].
        split; [intros u Hu1 Hu2; rewrite (Nu u Hu1) in Hu2; discriminate|].
        split; [discriminate|]. intros H. destruct (H e Hin) as [_ H2]. congruence.
      * pose proof (List.find_none _ _ He) as Ne.
        split; [discriminate|].
        split; [intros g Hg1 Hg2; rewrite (Ng g Hg1) in Hg2; discriminate|].
        split; [intros u Hu1 Hu2; rewrite (Nu u Hu1) in Hu2; discriminate|].
        split; [auto|reflexivity].
Qed.

(** *** What is said *)

Lemma speak_calls (t : jsstring) (s : Service) :
  supported (speak t s) = supported s /\
  exists u,
    utt_text u = t /\
    calls (speak t s) =
      calls s ++ (if supported s && truthy t then [cancel; speak_call u] else []).
Proof.
  unfold speak. destruct (supported s && truthy t) eqn:E.
  - cbv zeta.
    assert (Hl : forall x : Service,
               supported (match voices x with
                          | [] => loadVoices x | _ :: _ => x end) = supported x /\
               calls (match voices x with
                      | [] => loadVoices x | _ :: _ => x end) = calls x).
    { intros x. destruct (voices x); [|now split].
      unfold loadVoices. destruct (supported x) eqn:Hx; now split. }
    destruct (Hl (log cancel s)) as [Hs Hc]. split.
    + cbn [log supported] in *. exact Hs.
    + eexists. split.
      2:{ cbn [log calls] in *. rewrite Hc, <- app_assoc. reflexivity. }
      reflexivity.
  - split; [reflexivity|]. exists {| utt_text := t; utt_lang := "en-US";
      rate := 1; pitch := 1; voice := None |}.
    split; [reflexivity|]. now rewrite app_nil_r.
Qed.

(** Over any sequence of texts handed to [speak], the calls made on the
    synthesizer are, for each text that is not empty and in order, one
    [cancel] followed by one [speak] of that text: an empty text makes no
    call, every utterance is preceded by a [cancel], and without speech
    synthesis nothing is called. *)
Theorem speak_cancels_then_speaks (ts : list jsstring) (s : Service) :
  map said (skipn (length (calls s)) (calls (speak_all ts s))) =
  if supported s
  then flat_map (fun t => [None; Some t]) (List.filter truthy ts)
  else [].
Proof.
  cut (exists new, calls (speak_all ts s) = calls s ++ new /\
         map said new =
           if supported s
           then flat_map (fun t => [None; Some t]) (List.filter truthy ts)
           else []).
  { intros (new & -> & E). now rewrite skipn_app, skipn_all, Nat.sub_diag. }
  revert s. unfold speak_all. induction ts as [|t ts IH]; intros s; simpl.
  - exists []. rewrite app_nil_r. split; [reflexivity|].
    now destruct (supported s).
  - destruct (IH (speak t s)) as (new & E & M).
    destruct (speak_calls t s) as (Hs & u & Hu & C).
    rewrite Hs in M. rewrite E, C, <- app_assoc. eexists. split; [reflexivity|].
    rewrite map_app, M. destruct (supported s); simpl; [|reflexivity].
    destruct (truthy t); simpl; [|reflexivity]. now rewrite Hu.
Qed.

End Speech.

(* ===================================================================== *)
(** ** The SOS overlay: countdown and message *)
(* ===================================================================== *)

Module SosOverlay.

(** The overlay: its [countdown], whether the 1 s interval is still
    registered, the address [window.location.href] has been given, and
    how often [onCancel] has been called. *)
Record Overlay := {
  countdown : Z;
  timer : bool;
  href : option string;
  cancelled : nat
}.

(** The overlay as it mounts. *)
Definition mounted : Overlay :=
  {| countdown := 3; timer := true; href := None; cancelled := 0 |}.

Section Message.

Variable contact : string.
Variable message : string.
(** The platform's [encodeURIComponent]. *)
Variable encodeURIComponent : string -> string.

Definition sms_address : string :=
  ("sms:" ++ contact ++ "?body=" ++ encodeURIComponent message)%string.

Definition handleSendNow (o : Overlay) : Overlay :=
  {| countdown := countdown o; timer := timer o;
     href := Some sms_address; cancelled := S (cancelled o) |}.

(** The effect that depends on [countdown]. *)
Definition countdown_effect (o : Overlay) : Overlay :=
  if countdown o =? 0 then handleSendNow o else o.

(** One firing of the 1 s interval: the updater of [setCountdown] runs,
    and the effect runs when [countdown] has changed. *)
Definition tick (o : Overlay) : Overlay :=
  if timer o then
    let c := countdown o in
    let o' :=
      if c <=? 1 then
        {| countdown := 0; timer := false; href := href o;
           cancelled := cancelled o |}
      else
        {| countdown := c - 1; timer := timer o; href := href o;
           cancelled := cancelled o |} in
    if countdown o' =? c then o' else countdown_effect o'
  else o.

(** The overlay after [n] seconds. *)
Definition after (n : nat) : Overlay := Nat.iter n tick mounted.

(** Left alone, the overlay counts 3, 2, 1 and, exactly when the third
    second has passed, composes the SMS to the contact once and dismisses
    itself once; before that nothing is sent, and afterwards the interval
    is cleared and nothing more happens. *)
Theorem countdown_sends_once_after_three (n : nat) :
  countdown (after n) = Z.max 0 (3 - Z.of_nat n) /\
  href (after n) = (if (3 <=? n)%nat then Some sms_address else None) /\
  cancelled (after n) = (if (3 <=? n)%nat then 1%nat else 0%nat) /\
  timer (after n) = (n <? 3)%nat.
Proof.
  destruct n as [|[|[|n]]]; try (repeat split; reflexivity).
  assert (H : after (3 + n) = after 3).
  { induction n as [|n IH]; [reflexivity|].
    change (after (3 + S n)) with (tick (after (3 + n))). rewrite IH.
    reflexivity. }
  change (S (S (S n))) with (3 + n)%nat. rewrite H.
  split; [|repeat split; reflexivity].
  change (countdown (after 3)) with 0. lia.
Qed.

End Message.

End SosOverlay.

(* ===================================================================== *)
(** ** The device adapter: connecting, unplugging, reconnecting *)
(* ===================================================================== *)

(** [connect], the 'disconnect' listener and the way [readLoop] starts and
    ends, of hooks/useSerial.ts; [attemptAutoConnect] and the 'connect'
    listener of the auto-connecting revision. Each function is taken
    between its [await]s without another handler running in between, and a
    port that is held is taken to have a [readable] stream. *)
Module Adapter.
Import JS Utf8 Serial.

(** A value thrown by the platform: whether it is an [Error], its [name]
    and its [message]. *)
Record Thrown := {
  is_Error : bool;
  err_name : string;
  err_message : string
}.

(** How a promise of the platform settles. *)
Inductive promise (A : Type) :=
| resolves (a : A)
| rejects (e : Thrown).
Arguments resolves {A} a.
Arguments rejects {A} e.

(** The hook of [Serial] with the state the framer does not touch. *)
Record Adapter := {
  hook : Hook;
  isSupported : bool;
  isConnecting : bool;
  error : option string
}.

Definition on_hook (f : Hook -> Hook) (a : Adapter) : Adapter :=
  {| hook := f (hook a); isSupported := isSupported a;
     isConnecting := isConnecting a; error := error a |}.

Definition setIsConnecting (v : bool) (a : Adapter) : Adapter :=
  {| hook := hook a; isSupported := isSupported a;
     isConnecting := v; error := error a |}.

Definition setError (v : option string) (a : Adapter) : Adapter :=
  {| hook := hook a; isSupported := isSupported a;
     isConnecting := isConnecting a; error := v |}.

(** [port.current === other], by identity. *)
Definition is_port (other : SerialPort) (current : option SerialPort) : bool :=
  match current with
  | Some p => Nat.eqb (port_id p) (port_id other)
  | None => false
  end.

(** [readLoop] from its call in [connect] or [attemptAutoConnect] to its
    first [await]: the port just opened is held and [keepReading.current]
    is true, so the loop is entered and [getReader()] gives [rd]. *)
Definition readLoop_enter (rd : StreamReader) (a : Adapter) : Adapter :=
  on_hook (set_reader (Some rd)) a.

(** The [catch] block of [connect]. *)
Definition connect_catch (err : Thrown) (a : Adapter) : Adapter :=
  let a1 :=
    if is_Error err then
      if negb (String.eqb (err_name err) "NotFoundError")
      then setError (Some ("Connection failed: " ++ err_message err)%string) a
      else a
    else a in
  on_hook (set_isConnected false) a1.

(** [connect], given how [requestPort()] and [open()] settle. *)
Definition connect (request : promise SerialPort) (opening : promise unit)
    (rd : StreamReader) (a : Adapter) : Adapter :=
  if negb (isSupported a) then a
  else
    let a1 := setIsConnecting true (setError None a) in
    let a2 :=
      match request with
      | rejects err => connect_catch err a1
      | resolves selectedPort =>
          let a2 := on_hook (set_port (Some selectedPort)) a1 in
          match opening with
          | rejects err => connect_catch err a2
          | resolves _ =>
              readLoop_enter rd
                (on_hook (set_isConnected true)
                   (on_hook (set_keepReading true)
                      (on_hook (set_readBuffer []) a2)))
          end
      end in
    setIsConnecting false a2.

(** The listener of 'disconnect' on [navigator.serial], by itself; what
    the auto-connecting revision does in the render that follows is
    [unplug]. *)
Definition handleDisconnect (unplugged : SerialPort) (a : Adapter) : Adapter :=
  if is_port unplugged (port (hook a)) then
    setError (Some "Device disconnected"%string)
      (on_hook (set_port None)
         (on_hook (set_isConnected false)
            (on_hook (set_keepReading false) a)))
  else a.

(** The [catch] block of [attemptAutoConnect]. *)
Definition autoConnect_catch (a : Adapter) : Adapter :=
  on_hook (set_port None) (on_hook (set_isConnected false) a).

(** [attemptAutoConnect], given how [getPorts()] and [open()] settle;
    [navigator.serial] exists exactly when [isSupported] was set. *)
Definition attemptAutoConnect (getPorts : promise (list SerialPort))
    (opening : promise unit) (rd : StreamReader) (a : Adapter) : Adapter :=
  if negb (isSupported a) || holds_port (hook a) then a
  else
    let a1 :=
      match getPorts with
      | rejects _ => autoConnect_catch a
      | resolves [] => a
      | resolves (first :: _) =>
          let a1 := on_hook (set_port (Some first)) (setIsConnecting true a) in
          match opening with
          | rejects _ => autoConnect_catch a1
          | resolves _ =>
              readLoop_enter rd
                (setError None
                   (on_hook (set_isConnected true)
                      (on_hook (set_keepReading true)
                         (on_hook (set_readBuffer []) a1))))
          end
      end in
    setIsConnecting false a1.

(** The listener of 'connect' on [navigator.serial], registered while
    [isSupported] is set; it is registered anew when [isConnected]
    changes, so it reads the [isConnected] of the last render. *)
Definition handleConnect (getPorts : promise (list SerialPort))
    (opening : promise unit) (rd : StreamReader) (a : Adapter) : Adapter :=
  if negb (isConnected (hook a)) then attemptAutoConnect getPorts opening rd a
  else a.

(** The effect of the auto-connecting revision that depends on
    [isSupported] and [attemptAutoConnect]. *)
Definition autoConnect_effect (getPorts : promise (list SerialPort))
    (opening : promise unit) (rd : StreamReader) (a : Adapter) : Adapter :=
  if isSupported a && negb (isConnected (hook a))
  then attemptAutoConnect getPorts opening rd a
  else a.

(** The render after a handler has turned [before] into [a], in the
    auto-connecting revision: [readLoop] is created anew when
    [isConnected] has changed, [attemptAutoConnect] with it, and then
    [autoConnect_effect] runs. *)
Definition rendered (before : Adapter) (getPorts : promise (list SerialPort))
    (opening : promise unit) (rd : StreamReader) (a : Adapter) : Adapter :=
  if Bool.eqb (isConnected (hook a)) (isConnected (hook before)) then a
  else autoConnect_effect getPorts opening rd a.

(** A device is unplugged, in the auto-connecting revision: the listener
    runs, then the render that follows. *)
Definition unplug (unplugged : SerialPort)
    (getPorts : promise (list SerialPort)) (opening : promise unit)
    (rd : StreamReader) (a : Adapter) : Adapter :=
  rendered a getPorts opening rd (handleDisconnect unplugged a).

(** [h'] differs from [h] at most in the buffer, the decoder and the
    messages. *)
Definition same_refs (h h' : Hook) : Prop :=
  isConnected h' = isConnected h /\ port h' = port h /\
  reader h' = reader h /\ keepReading h' = keepReading h /\
  timers h' = timers h /\ calls h' = calls h.

(** An adapter that is supported and has not connected yet, a port and a
    reader. *)
Definition idle_adapter : Adapter :=
  {| hook := {| isConnected := false; lastMessage := None; port := None;
                reader := None; keepReading := false; readBuffer := [];
                textDecoder := newTextDecoder; published := [];
                timers := []; calls := [] |};
     isSupported := true; isConnecting := false; error := None |}.

Definition example_port (n : nat) : SerialPort :=
  {| port_id := n; close_settles := fulfilled |}.

Definition example_reader (n : nat) : StreamReader :=
  {| reader_id := n; cancel_settles := fulfilled |}.

Definition example_error : Thrown :=
  {| is_Error := true; err_name := "NetworkError";
     err_message := "Failed to open serial port." |}.

Section Sessions.

Variable randomUUID : nat -> string.
Variable Date_now : nat -> Z.

Local Abbreviation processLine := (processLine randomUUID Date_now).
Local Abbreviation drainLines := (drainLines randomUUID Date_now).
Local Abbreviation onValue := (onValue randomUUID Date_now).
Local Abbreviation readLoop_iteration := (readLoop_iteration randomUUID Date_now).
Local Abbreviation readLoop_inner := (readLoop_inner randomUUID Date_now).
Local Abbreviation disconnect := (disconnect randomUUID Date_now).

(** *** The framer leaves the connection alone *)

Lemma same_refs_refl (h : Hook) : same_refs h h.
Proof. repeat split. Qed.

Lemma same_refs_trans (h1 h2 h3 : Hook) :
  same_refs h1 h2 -> same_refs h2 h3 -> same_refs h1 h3.
Proof.
  unfold same_refs. intros (A & B & C & D & E & F) (A' & B' & C' & D' & E' & F').
  repeat split; congruence.
Qed.

Lemma processLine_refs (line : jsstring) (h : Hook) :
  same_refs h (processLine line h).
Proof.
  unfold Serial.processLine. destruct (negb (truthy line)); repeat split.
Qed.

Lemma drainLines_refs (h : Hook) : same_refs h (drainLines h).
Proof.
  remember (length (readBuffer h)) as n eqn:Hn.
  revert h Hn. induction n as [n IH] using lt_wf_ind. intros h Hn.
  rewrite drainLines_loop. cbv zeta.
  destruct (Z.eqb_spec (indexOf (readBuffer h) NEWLINE) (-1)) as [_|Hfound];
    [apply same_refs_refl|].
  destruct (indexOf_found _ _ Hfound) as (pre & post & Hbuf & Hpre & -> & ->).
  set (h1 := set_readBuffer post h).
  apply same_refs_trans with (h2 := processLine (trim pre) h1).
  - apply same_refs_trans with (h2 := h1); [repeat split|].
    apply processLine_refs.
  - apply (IH (length post)); [|now rewrite processLine_readBuffer].
    subst n. rewrite Hbuf, length_app. simpl. lia.
Qed.

Lemma onValue_refs (v : list byte) (h : Hook) : same_refs h (onValue v h).
Proof.
  unfold Serial.onValue. destruct (decode (textDecoder h) v) as [td s].
  apply same_refs_trans
    with (h2 := set_textDecoder td (set_readBuffer (readBuffer h ++ s) h));
    [repeat split|apply drainLines_refs].
Qed.

Lemma readLoop_iteration_refs (r : ReadResult) (h : Hook) :
  same_refs h (readLoop_iteration r h).1.
Proof.
  unfold Serial.readLoop_iteration.
  set (h1 := match value r with Some v => onValue v h | None => h end).
  assert (H1 : same_refs h h1).
  { unfold h1. destruct (value r); [apply onValue_refs|apply same_refs_refl]. }
  cbv zeta. destruct (done r); [|exact H1].
  destruct (truthy (trim (readBuffer h1))); [|exact H1]. simpl.
  apply same_refs_trans with (h2 := h1); [exact H1|].
  apply same_refs_trans with (h2 := processLine (trim (readBuffer h1)) h1);
    [apply processLine_refs|repeat split].
Qed.

Lemma readLoop_inner_refs (rs : list ReadResult) (h : Hook) :
  same_refs h (readLoop_inner rs h).
Proof.
  revert h. induction rs as [|r rs IH]; intros h; simpl;
    [apply same_refs_refl|].
  pose proof (readLoop_iteration_refs r h) as A.
  destruct (readLoop_iteration r h) as [h1 brk]. simpl in A.
  destruct brk; [exact A|].
  apply same_refs_trans with (h2 := h1); [exact A|apply IH].
Qed.

(** *** Timers *)

Lemma closePort_callback_calls (h : Hook) :
  exists h1,
    returns closePort_callback h h1 /\
    isConnected h1 = false /\ port h1 = None /\ readBuffer h1 = [] /\
    reader h1 = reader h /\ keepReading h1 = keepReading h /\
    calls h1 =
      calls h ++
      match port h with Some p => [port_close (port_id p)] | None => [] end.
Proof.
  unfold returns, closePort_callback, mbind, M_bind, bind, update, read,
    try_catch, await, ret. simpl.
  destruct (port h) as [pt|] eqn:Hp; simpl.
  - destruct (close_settles pt); simpl; eexists;
      (split; [eexists; reflexivity|]); simpl; repeat split; reflexivity.
  - eexists; (split; [eexists; reflexivity|]); simpl.
    repeat split; try reflexivity; [exact Hp|now rewrite app_nil_r].
Qed.

Lemma run_tasks_calls (ts : list (Z * task)) (h : Hook) :
  ts <> [] ->
  exists h1,
    returns (run_tasks ts) h h1 /\
    isConnected h1 = false /\ port h1 = None /\ readBuffer h1 = [] /\
    reader h1 = reader h /\ keepReading h1 = keepReading h /\
    calls h1 =
      calls h ++
      match port h with Some p => [port_close (port_id p)] | None => [] end.
Proof.
  revert h. induction ts as [|[ms t] rest IH]; intros h Hne; [contradiction|].
  destruct t. simpl.
  destruct (closePort_callback_calls h)
    as (h1 & [[] R1] & C1 & P1 & B1 & D1 & K1 & L1).
  destruct rest as [|x rest'].
  - exists h1. split; [|repeat split; assumption].
    exists tt. unfold mbind, M_bind, bind. rewrite R1. reflexivity.
  - destruct (IH h1) as (h2 & [[] R2] & C2 & P2 & B2 & D2 & K2 & L2);
      [discriminate|].
    exists h2. split; [|repeat split; try assumption; try congruence].
    + exists tt. unfold mbind, M_bind, bind. rewrite R1. exact R2.
    + rewrite L2, P1, app_nil_r. exact L1.
Qed.

(** *** Connecting and disconnecting *)

(** A session of hooks/useSerial.ts from Connect to Disconnect: the port
    the user selected is opened and read, whatever the device sends;
    [disconnect] cancels the reader that was taken, the read loop ends,
    and the teardown 100 ms later leaves the adapter disconnected, without
    port or reader and with an empty buffer. The port is closed by that
    teardown exactly once, unless [connect] was called while the adapter
    showed Connected: then the read loop itself drops the port as it
    ends, and [close] is never called on it. *)
Theorem connect_then_disconnect_releases_port
    (p : SerialPort) (rd next : StreamReader) (chunks : list (list byte))
    (a : Adapter) :
  isSupported a = true ->
  cancel_settles rd = fulfilled ->
  let a1 := connect (resolves p) (resolves tt) rd a in
  let h2 := readLoop_inner (map chunk_read chunks) (hook a1) in
  isConnected h2 = true /\ port h2 = Some p /\ reader h2 = Some rd /\
  isConnecting a1 = false /\ error a1 = None /\
  exists h4 h5,
    returns (disconnect (read_resolves_done next (isConnected (hook a))))
      h2 h4 /\
    returns run_timers h4 h5 /\
    isConnected h5 = false /\ port h5 = None /\ reader h5 = None /\
    keepReading h5 = false /\ readBuffer h5 = [] /\
    calls h5 =
      calls (hook a) ++
      reader_cancel (reader_id rd) ::
      (if isConnected (hook a) then [] else [port_close (port_id p)]).
Proof.
  intros Hs Hc. cbv zeta.
  set (a1 := connect (resolves p) (resolves tt) rd a).
  assert (Ea : isConnected (hook a1) = true /\ port (hook a1) = Some p /\
               reader (hook a1) = Some rd /\ keepReading (hook a1) = true /\
               timers (hook a1) = timers (hook a) /\
               calls (hook a1) = calls (hook a) /\
               isConnecting a1 = false /\ error a1 = None).
  { unfold a1, connect. rewrite Hs. simpl. repeat split. }
  destruct Ea as (A1 & A2 & A3 & A4 & A5 & A6 & A7 & A8). clearbody a1.
  set (h2 := readLoop_inner (map chunk_read chunks) (hook a1)).
  destruct (readLoop_inner_refs (map chunk_read chunks) (hook a1))
    as (B1 & B2 & B3 & B4 & B5 & B6).
  fold h2 in B1, B2, B3, B4, B5, B6. clearbody h2.
  split; [congruence|]. split; [congruence|]. split; [congruence|].
  split; [exact A7|]. split; [exact A8|].
  set (h3 := log_call (reader_cancel (reader_id rd))
               (set_keepReading false h2)).
  destruct (readLoop_iteration_refs {| value := None; done := true |} h3)
    as (C1 & C2 & C3 & C4 & C5 & C6).
  set (g := (readLoop_iteration {| value := None; done := true |} h3).1) in *.
  set (h4 := readLoop_after_break next (isConnected (hook a)) g).
  assert (R4 : returns
                 (disconnect (read_resolves_done next (isConnected (hook a))))
                 h2 (set_timers (timers h4 ++ [(100, closePort)]) h4)).
  { exists tt. unfold Serial.disconnect, mbind, M_bind, bind, update, read,
      try_catch, await_while, setTimeout, ret. simpl.
    rewrite B3, A3. simpl. rewrite Hc. reflexivity. }
  assert (G : isConnected g = true /\ port g = Some p /\
              keepReading g = false /\ timers g = timers (hook a) /\
              calls g = calls (hook a) ++ [reader_cancel (reader_id rd)]).
  { rewrite C1, C2, C4, C5, C6. unfold h3. simpl.
    repeat split; congruence. }
  destruct G as (G1 & G2 & G4 & G5 & G6).
  clearbody g. clear C1 C2 C3 C4 C5 C6.
  assert (H4 : reader h4 = None /\ keepReading h4 = false /\
               timers h4 = timers (hook a) /\
               calls h4 = calls (hook a) ++ [reader_cancel (reader_id rd)] /\
               port h4 = if isConnected (hook a) then None else Some p).
  { unfold h4, readLoop_after_break, holds_port. simpl.
    rewrite G2, G4. simpl. destruct (isConnected (hook a)); simpl;
      repeat split; assumption. }
  destruct H4 as (H1 & H2 & H3 & H5 & H6). clearbody h4.
  exists (set_timers (timers h4 ++ [(100, closePort)]) h4).
  destruct (run_tasks_calls (timers h4 ++ [(100, closePort)])
              (set_timers [] (set_timers (timers h4 ++ [(100, closePort)]) h4)))
    as (h5 & R5 & D1 & D2 & D3 & D4 & D5 & D6).
  { now destruct (timers h4). }
  exists h5. split; [exact R4|split; [exact R5|]].
  simpl in D4, D5, D6.
  split; [exact D1|]. split; [exact D2|]. split; [congruence|].
  split; [congruence|]. split; [exact D3|].
  rewrite D6, H5, H6, <- app_assoc. simpl.
  now destruct (isConnected (hook a)).
Qed.

(** *** Unplugging and plugging in *)

(** In the auto-connecting revision, unplugging the device the connected
    adapter holds stops the reading, drops the port and shows 'Device
    disconnected', and the render that follows tries at once to connect
    by itself. When no permitted port is listed then, the adapter stays
    disconnected, and a device plugged in later is connected without the
    user: the adapter holds the first permitted port, reads it with an
    empty buffer and shows no error. When a permitted port is listed
    right after the unplug and opens, the adapter is connected to it
    before any device is plugged in, and a device plugged in then changes
    nothing. Either way the decoder is the one of the connection
    before. *)
Theorem replug_reconnects
    (held first : SerialPort) (others : list SerialPort)
    (listed : promise (list SerialPort)) (opening : promise unit)
    (rd rd' : StreamReader) (a : Adapter) :
  isSupported a = true ->
  port (hook a) = Some held ->
  isConnected (hook a) = true ->
  (forall q l, listed <> resolves (q :: l)) ->
  let a1 := unplug held listed opening rd' a in
  let a2 := handleConnect (resolves (first :: others)) (resolves tt) rd a1 in
  let b1 := unplug held (resolves (first :: others)) (resolves tt) rd a in
  (isConnected (hook a1) = false /\ keepReading (hook a1) = false /\
   port (hook a1) = None /\ error a1 = Some "Device disconnected"%string /\
   isConnecting a1 = false) /\
  (isConnected (hook a2) = true /\ keepReading (hook a2) = true /\
   port (hook a2) = Some first /\ reader (hook a2) = Some rd /\
   readBuffer (hook a2) = [] /\ error a2 = None /\ isConnecting a2 = false /\
   textDecoder (hook a2) = textDecoder (hook a) /\
   published (hook a2) = published (hook a)) /\
  b1 = a2 /\
  (forall listed' opening' rd'',
     handleConnect listed' opening' rd'' b1 = b1).
Proof.
  intros Hs Hp Hc Hl. cbv zeta.
  assert (E0 : handleDisconnect held a =
               setError (Some "Device disconnected"%string)
                 (on_hook (set_port None)
                    (on_hook (set_isConnected false)
                       (on_hook (set_keepReading false) a)))).
  { unfold handleDisconnect, is_port. now rewrite Hp, Nat.eqb_refl. }
  assert (E1 : unplug held listed opening rd' a =
               setIsConnecting false (handleDisconnect held a)).
  { unfold unplug, rendered. rewrite E0. simpl. rewrite Hc. simpl.
    unfold autoConnect_effect, attemptAutoConnect, autoConnect_catch,
      holds_port. simpl. rewrite Hs. simpl.
    destruct listed as [[|q l]|e]; [reflexivity| |reflexivity].
    now destruct (Hl q l). }
  assert (E2 : unplug held (resolves (first :: others)) (resolves tt) rd a =
               handleConnect (resolves (first :: others)) (resolves tt) rd
                 (setIsConnecting false (handleDisconnect held a))).
  { unfold unplug, rendered. rewrite E0. simpl. rewrite Hc. simpl.
    unfold autoConnect_effect, handleConnect, attemptAutoConnect, holds_port.
    simpl. rewrite Hs. reflexivity. }
  rewrite E1, E2, E0.
  split; [repeat split|].
  unfold handleConnect, attemptAutoConnect, holds_port. simpl. rewrite Hs.
  simpl. split; [repeat split|]. split; [reflexivity|].
  intros listed' opening' rd''. reflexivity.
Qed.

(** In the auto-connecting revision, a device the user selected but that
    could not be opened stays held although the adapter is disconnected,
    so neither the start of the page nor a device being plugged in
    connects by itself afterwards, however the platform would answer. *)
Theorem failed_open_blocks_auto_connect
    (selected : SerialPort) (err : Thrown) (rd rd' : StreamReader)
    (getPorts : promise (list SerialPort)) (opening : promise unit)
    (a : Adapter) :
  isSupported a = true ->
  let a1 := connect (resolves selected) (rejects err) rd a in
  isConnected (hook a1) = false /\ port (hook a1) = Some selected /\
  isConnecting a1 = false /\
  attemptAutoConnect getPorts opening rd' a1 = a1 /\
  handleConnect getPorts opening rd' a1 = a1.
Proof.
  intros Hs. cbv zeta.
  assert (E : isConnected (hook (connect (resolves selected) (rejects err) rd a))
              = false /\
              port (hook (connect (resolves selected) (rejects err) rd a))
              = Some selected /\
              isConnecting (connect (resolves selected) (rejects err) rd a)
              = false).
  { unfold connect, connect_catch. rewrite Hs. simpl.
    destruct (is_Error err); [destruct (negb _)|]; repeat split. }
  destruct E as (E1 & E2 & E3).
  set (a1 := connect (resolves selected) (rejects err) rd a) in *.
  clearbody a1.
  assert (A : attemptAutoConnect getPorts opening rd' a1 = a1).
  { unfold attemptAutoConnect, holds_port. rewrite E2.
    now rewrite orb_true_r. }
  repeat split; try assumption.
  unfold handleConnect. rewrite E1. exact A.
Qed.

(** An auto-connect that fails, because the ports cannot be listed or the
    first one cannot be opened, reports no error and holds no port, so
    that the next device plugged in is tried again and, when it opens,
    is connected. *)
Theorem auto_connect_failure_is_silent
    (getPorts : promise (list SerialPort)) (err : Thrown)
    (first : SerialPort) (others : list SerialPort) (rd rd' : StreamReader)
    (a : Adapter) :
  isSupported a = true ->
  port (hook a) = None ->
  (forall l, getPorts = resolves l -> l <> []) ->
  let a1 := attemptAutoConnect getPorts (rejects err) rd a in
  let a2 := handleConnect (resolves (first :: others)) (resolves tt) rd' a1 in
  error a1 = error a /\ isConnected (hook a1) = false /\
  port (hook a1) = None /\ isConnecting a1 = false /\
  isConnected (hook a2) = true /\ port (hook a2) = Some first /\
  reader (hook a2) = Some rd' /\ error a2 = None.
Proof.
  intros Hs Hp Hne. cbv zeta.
  unfold handleConnect, attemptAutoConnect, autoConnect_catch, holds_port.
  rewrite Hs, Hp. simpl.
  destruct getPorts as [[|q l]|e]; [now destruct (Hne [] eq_refl)| |];
    simpl; rewrite Hs; simpl; repeat split.
Qed.

End Sessions.

Lemma connect_then_disconnect_releases_port_witness :
  let a1 := connect (resolves (example_port 7)) (resolves tt)
              (example_reader 1) idle_adapter in
  let h2 := Serial.readLoop_inner (fun _ => "uuid"%string) Z.of_nat
              (map chunk_read example_chunks) (hook a1) in
  isConnected h2 = true /\ port h2 = Some (example_port 7) /\
  reader h2 = Some (example_reader 1) /\
  isConnecting a1 = false /\ error a1 = None /\
  exists h4 h5,
    returns
      (disconnect (fun _ => "uuid"%string) Z.of_nat
         (read_resolves_done (example_reader 2) false)) h2 h4 /\
    returns run_timers h4 h5 /\
    isConnected h5 = false /\ port h5 = None /\ reader h5 = None /\
    keepReading h5 = false /\ readBuffer h5 = [] /\
    calls h5 = [reader_cancel 1; port_close 7].
Proof.
  exact (connect_then_disconnect_releases_port
           (fun _ => "uuid"%string) Z.of_nat
           (example_port 7) (example_reader 1) (example_reader 2)
           example_chunks idle_adapter eq_refl eq_refl).
Defined.

Lemma replug_reconnects_witness :
  let a := connect (resolves (example_port 7)) (resolves tt)
             (example_reader 1) idle_adapter in
  let a1 := unplug (example_port 7) (resolves []) (resolves tt)
              (example_reader 3) a in
  let a2 := handleConnect (resolves [example_port 8; example_port 9])
              (resolves tt) (example_reader 2) a1 in
  let b1 := unplug (example_port 7)
              (resolves [example_port 8; example_port 9]) (resolves tt)
              (example_reader 2) a in
  (isConnected (hook a1) = false /\ keepReading (hook a1) = false /\
   port (hook a1) = None /\ error a1 = Some "Device disconnected"%string /\
   isConnecting a1 = false) /\
  (isConnected (hook a2) = true /\ keepReading (hook a2) = true /\
   port (hook a2) = Some (example_port 8) /\
   reader (hook a2) = Some (example_reader 2) /\
   readBuffer (hook a2) = [] /\ error a2 = None /\ isConnecting a2 = false /\
   textDecoder (hook a2) = textDecoder (hook a) /\
   published (hook a2) = published (hook a)) /\
  b1 = a2 /\
  (forall listed' opening' rd'',
     handleConnect listed' opening' rd'' b1 = b1).
Proof.
  apply (replug_reconnects (example_port 7) (example_port 8) [example_port 9]
           (resolves []) (resolves tt) (example_reader 2) (example_reader 3)
           (connect (resolves (example_port 7)) (resolves tt)
              (example_reader 1) idle_adapter) eq_refl eq_refl eq_refl).
  intros q l. discriminate.
Defined.

Lemma failed_open_blocks_auto_connect_witness :
  let a1 := connect (resolves (example_port 7)) (rejects example_error)
              (example_reader 1) idle_adapter in
  isConnected (hook a1) = false /\ port (hook a1) = Some (example_port 7) /\
  isConnecting a1 = false /\
  attemptAutoConnect (resolves [example_port 7]) (resolves tt)
    (example_reader 2) a1 = a1 /\
  handleConnect (resolves [example_port 7]) (resolves tt)
    (example_reader 2) a1 = a1.
Proof.
  exact (failed_open_blocks_auto_connect (example_port 7) example_error
           (example_reader 1) (example_reader 2)
           (resolves [example_port 7]) (resolves tt) idle_adapter eq_refl).
Defined.

Lemma auto_connect_failure_is_silent_witness :
  let a1 := attemptAutoConnect (resolves [example_port 7])
              (rejects example_error) (example_reader 1) idle_adapter in
  let a2 := handleConnect (resolves [example_port 7]) (resolves tt)
              (example_reader 2) a1 in
  error a1 = None /\ isConnected (hook a1) = false /\
  port (hook a1) = None /\ isConnecting a1 = false /\
  isConnected (hook a2) = true /\ port (hook a2) = Some (example_port 7) /\
  reader (hook a2) = Some (example_reader 2) /\ error a2 = None.
Proof.
  apply (auto_connect_failure_is_silent (resolves [example_port 7])
           example_error (example_port 7) [] (example_reader 1)
           (example_reader 2) idle_adapter eq_refl eq_refl).
  intros l [= <-]. discriminate.
Defined.

End Adapter.
